(** * agnpy.absorption: gamma-gamma pair-production opacity

    A shallow embedding of [agnpy/absorption.py]: the cross section
    [sigma], the [Absorption] object with its three grid setters, the
    three opacity integrators and the dispatcher [tau].

    Numbers.  The arithmetic is modelled twice.  In the exact model a
    finite float is a real number (no rounding, no overflow) and a value
    that is not finite is the single value [None], which absorbs every
    arithmetic operation and compares false; a result [Some x] of that
    model is reached through finite intermediate values only, and it is
    the program's result up to the rounding of float64.  Where rounding
    decides the outcome, the cross section is modelled a second time on
    IEEE 754 binary64 values (module [B64]).

    Quantities.  astropy units are not tracked: every quantity is its
    value in CGS units (cm, erg, Hz), as the code's own [to_value]
    calls make it. *)

From Stdlib Require Import Reals Lra Lia List ZArith Bool.
From Stdlib Require String.
From Corelib Require PrimFloat.
Import ListNotations.
Import String.StringSyntax.
Delimit Scope string_scope with str.
Open Scope R_scope.

(* ================================================================== *)
(** ** Idealised floats *)

Definition fl : Type := option R.
Definition fin (x : R) : fl := Some x.
Coercion fin : R >-> fl.

Declare Scope fl_scope.
Delimit Scope fl_scope with fl.
Bind Scope fl_scope with fl.

Definition lift2 (f : R -> R -> R) (a b : fl) : fl :=
  match a, b with
  | Some x, Some y => Some (f x y)
  | _, _ => None
  end.

Definition fadd : fl -> fl -> fl := lift2 Rplus.
Definition fsub : fl -> fl -> fl := lift2 Rminus.
Definition fmul : fl -> fl -> fl := lift2 Rmult.

(** [x / 0] is inf or nan. *)
Definition fdiv (a b : fl) : fl :=
  match a, b with
  | Some x, Some y => if Req_dec_T y 0 then None else Some (x / y)
  | _, _ => None
  end.

(** [np.sqrt]: nan below zero. *)
Definition fsqrt (a : fl) : fl :=
  match a with
  | Some x => if Rlt_dec x 0 then None else Some (sqrt x)
  | None => None
  end.

(** [np.log]: -inf at zero, nan below. *)
Definition flog (a : fl) : fl :=
  match a with
  | Some x => if Rlt_dec 0 x then Some (ln x) else None
  | None => None
  end.

Definition fcos (a : fl) : fl :=
  match a with
  | Some x => Some (cos x)
  | None => None
  end.

(** [np.power] with an integer exponent: [0 ** n] is inf for [n < 0]. *)
Definition fpow (a : fl) (n : Z) : fl :=
  match a with
  | Some x =>
      if (0 <=? n)%Z then Some (x ^ Z.to_nat n)
      else if Req_dec_T x 0 then None else Some (/ x ^ Z.to_nat (- n))
  | None => None
  end.

(** [np.power(x, 3 / 2)]: nan for a negative base. *)
Definition fpow_3_2 (a : fl) : fl :=
  match a with
  | Some x => if Rlt_dec x 0 then None else Some (sqrt x ^ 3)
  | None => None
  end.

(** [10 ** y] and [np.log10]. *)
Definition fexp10 (a : fl) : fl :=
  match a with
  | Some y => Some (Rpower 10 y)
  | None => None
  end.

Definition flog10 (a : fl) : fl :=
  match a with
  | Some x => if Rlt_dec 0 x then Some (ln x / ln 10) else None
  | None => None
  end.

(** [a < b]; a comparison with [None] is false, as one with nan is.  An
    infinity, which would compare, is not told apart from nan here:
    what [sigma] does at -inf is in [B64] below. *)
Definition fltb (a b : fl) : bool :=
  match a, b with
  | Some x, Some y => if Rlt_dec x y then true else false
  | _, _ => false
  end.

Infix "+" := fadd : fl_scope.
Infix "-" := fsub : fl_scope.
Infix "*" := fmul : fl_scope.
Infix "/" := fdiv : fl_scope.

(** A finite, non-negative float. *)
Definition fin_nonneg (a : fl) : Prop := exists x : R, a = Some x /\ 0 <= x.

(* ================================================================== *)
(** ** numpy arrays

    An array is its flat buffer; element-wise operations act on the
    buffer whatever the shape. *)

Definition array : Type := list fl.

Definition np_sqrt (a : array) : array := map fsqrt a.
Definition np_log (a : array) : array := map flog a.
Definition np_power (a : array) (n : Z) : array := map (fun x => fpow x n) a.

(** scalar (op) array, broadcast *)
Definition sc_add (k : fl) (a : array) : array := map (fadd k) a.
Definition sc_sub (k : fl) (a : array) : array := map (fsub k) a.
Definition sc_mul (k : fl) (a : array) : array := map (fmul k) a.

(** array (op) array, same shape *)
Fixpoint zip_with (f : fl -> fl -> fl) (a b : array) : array :=
  match a, b with
  | x :: a', y :: b' => f x y :: zip_with f a' b'
  | _, _ => []
  end.

Definition arr_add : array -> array -> array := zip_with fadd.
Definition arr_mul : array -> array -> array := zip_with fmul.
Definition arr_div : array -> array -> array := zip_with fdiv.

(** [a < k] element-wise: a boolean mask *)
Definition np_lt (a : array) (k : fl) : list bool := map (fun x => fltb x k) a.

(** [values[mask] = v] with a mask of the shape of [values] *)
Fixpoint setitem_mask (values : array) (mask : list bool) (v : fl) : array :=
  match values, mask with
  | x :: values', m :: mask' =>
      (if m then v else x) :: setitem_mask values' mask' v
  | _, _ => values
  end.

Declare Scope arr_scope.
Delimit Scope arr_scope with arr.
Infix "+:" := sc_add (at level 50, left associativity) : arr_scope.
Infix "-:" := sc_sub (at level 50, left associativity) : arr_scope.
Infix "*:" := sc_mul (at level 40, left associativity) : arr_scope.
Infix ".+" := arr_add (at level 50, left associativity) : arr_scope.
Infix ".*" := arr_mul (at level 40, left associativity) : arr_scope.
Infix "./" := arr_div (at level 40, left associativity) : arr_scope.

(* ================================================================== *)
(** ** Physical constants

    [h], [c], [m_e], [sigma_T] come from [astropy.constants] and the
    parsec from [astropy.units]; their values are not part of the
    repository and are taken as parameters, in CGS units. *)

Module Const.
Record t : Type := {
  h : R;        (* erg s *)
  c : R;        (* cm / s *)
  m_e : R;      (* g *)
  sigma_T : R;  (* cm2 *)
  pc : R        (* cm *)
}.
End Const.

Definition positive_constants (k : Const.t) : Prop :=
  0 < Const.h k /\ 0 < Const.c k /\ 0 < Const.m_e k /\
  0 < Const.sigma_T k /\ 0 < Const.pc k.

(** [mec2 = m_e.to("erg", equivalencies=u.mass_energy())] *)
Definition mec2 (k : Const.t) : R :=
  Const.m_e k * (Const.c k * Const.c k).

(* ================================================================== *)
(** ** The cross section *)

Section Sigma.
Variable k : Const.t.
Open Scope arr_scope.

(** [sigma(s)], line by line. *)
Definition sigma (s : array) : array :=
  let beta_cm := np_sqrt (1 -: np_power s (-1)) in
  let _prefactor := (3 / 16 * Const.sigma_T k)%fl *: (1 -: np_power beta_cm 2) in
  let _term1 :=
    (3 -: np_power beta_cm 4) .* np_log ((1 +: beta_cm) ./ (1 -: beta_cm)) in
  let _term2 := (-2) *: beta_cm .* (2 -: np_power beta_cm 2) in
  let values := _prefactor .* (_term1 .+ _term2) in
  setitem_mask values (np_lt s 1) 0.

(** What [sigma] does to one element of its argument, in exact
    arithmetic (in binary64: [B64.sigma_elt] below). *)
Definition sigma_elt (s : fl) : fl :=
  let beta_cm := fsqrt (1 - fpow s (-1)) in
  let _prefactor := (3 / 16 * Const.sigma_T k * (1 - fpow beta_cm 2))%fl in
  let _term1 :=
    ((3 - fpow beta_cm 4) * flog ((1 + beta_cm) / (1 - beta_cm)))%fl in
  let _term2 := (-2 * beta_cm * (2 - fpow beta_cm 2))%fl in
  let value := (_prefactor * (_term1 + _term2))%fl in
  if fltb s 1 then fin 0 else value.

(** The closed form of Eq. 17 of Dermer & Menon (2009), over the reals. *)
Definition beta_of (s : R) : R := sqrt (1 - / s).

Definition dermer_bracket (b : R) : R :=
  (3 - b ^ 4) * ln ((1 + b) / (1 - b)) - 2 * b * (2 - b ^ 2).

Definition dermer17 (s : R) : R :=
  3 / 16 * Const.sigma_T k * (1 - beta_of s ^ 2) * dermer_bracket (beta_of s).

End Sigma.

(* ================================================================== *)
(** ** The cross section in binary64

    The same [sigma], element by element, on IEEE 754 binary64 values.
    [+], [-], [*], [/], [np.sqrt] and [<] are the IEEE operations, which
    the kernel's primitive floats compute.  [np.power] and [np.log] call
    the C library, whose results no standard fixes bit for bit: they are
    modelled where every library accurate to less than one unit in the
    last place agrees, and are [None] (not known to the model)
    elsewhere. *)

Module B64.
Import PrimFloat.
Local Open Scope float_scope.

(** [np.log] at the arguments of C99 Annex F: nan at nan and below zero,
    -inf at zero, 0 at 1, +inf at +inf. *)
Definition libm_log (x : float) : option float :=
  if is_nan x then Some nan
  else if x <? 0 then Some nan
  else if x =? 0 then Some neg_infinity
  else if x =? 1 then Some 0
  else if x =? infinity then Some infinity
  else None.

(** The bases at which Annex F fixes [pow]: nan, the infinities, the
    zeros and 1. *)
Definition is_special (x : float) : bool :=
  is_nan x || is_infinity x || (x =? 0) || (x =? 1).

(** A power of two, of either sign. *)
Definition is_pow2 (x : float) : bool :=
  let '(m, _) := frshiftexp (abs x) in m =? 0.5.

(** A result that neither overflowed nor underflowed to zero. *)
Definition is_exact (r : float) : bool :=
  negb (is_nan r) && negb (is_infinity r) && negb (r =? 0).

(** [np.power(x, n)] for the exponents [sigma] uses.  At a special base
    the value of Annex F, which is also what the IEEE operations give;
    at a power of two the exact power, when it is a float; [None]
    elsewhere. *)
Definition libm_pow (x : float) (n : Z) : option float :=
  let candidate :=
    match n with
    | (-1)%Z => Some (1 / x)
    | 2%Z => Some (x * x)
    | 4%Z => Some ((x * x) * (x * x))
    | _ => None
    end in
  match candidate with
  | Some r =>
      if is_special x then Some r
      else if is_pow2 x && is_exact r then Some r
      else None
  | None => None
  end.

Definition bind {A B : Type} (m : option A) (f : A -> option B) : option B :=
  match m with
  | Some a => f a
  | None => None
  end.

(** What [sigma] does to one element [s] of its argument: the formula
    first, then the mask assignment [values[s < 1] = 0], which
    overwrites whatever the formula gave. *)
Definition sigma_elt (sigma_T s : float) : option float :=
  let values :=
    bind (libm_pow s (-1)) (fun s_inv =>
    let beta_cm := sqrt (1 - s_inv) in
    bind (libm_pow beta_cm 2) (fun beta_2 =>
    let _prefactor := 3 / 16 * sigma_T * (1 - beta_2) in
    bind (libm_pow beta_cm 4) (fun beta_4 =>
    bind (libm_log ((1 + beta_cm) / (1 - beta_cm))) (fun log_ratio =>
    let _term1 := (3 - beta_4) * log_ratio in
    let _term2 := -2 * beta_cm * (2 - beta_2) in
    Some (_prefactor * (_term1 + _term2)))))) in
  if s <? 1 then Some 0 else values.

(** The Thomson cross section in cm2 (the float nearest to
    6.6524587321e-25) and two large arguments. *)
Definition sigma_T_cgs : float := 0x1.9bc46a933e3aap-81.

End B64.

(* ================================================================== *)
(** ** Python outcomes *)

Inductive exn : Type := IndexError | UnboundLocalError | ValueError.

Inductive outcome (A : Type) : Type :=
| Ret (a : A)
| Raise (e : exn).
Arguments Ret {A} a.
Arguments Raise {A} e.

Definition obind {A B : Type} (m : outcome A) (f : A -> outcome B) : outcome B :=
  match m with
  | Ret a => f a
  | Raise e => Raise e
  end.

Declare Scope py_scope.
Delimit Scope py_scope with py.
Notation "x <- m ;; f" := (obind m (fun x => f))
  (at level 61, m at next level, right associativity) : py_scope.
Notation "' p <- m ;; f" := (obind m (fun x => match x with p => f end))
  (at level 61, p pattern, m at next level, right associativity) : py_scope.

(** [a[i] = v] for a non-negative index. *)
Fixpoint setitem (a : array) (i : nat) (v : fl) : outcome array :=
  match a, i with
  | [], _ => Raise IndexError
  | _ :: a', O => Ret (v :: a')
  | x :: a', S i' =>
      match setitem a' i' v with
      | Ret b => Ret (x :: b)
      | Raise e => Raise e
      end
  end.

(** [enumerate] *)
Fixpoint enumerate_from {A : Type} (n : nat) (xs : list A) : list (nat * A) :=
  match xs with
  | [] => []
  | x :: xs' => (n, x) :: enumerate_from (S n) xs'
  end.
Definition enumerate {A : Type} (xs : list A) : list (nat * A) :=
  enumerate_from 0 xs.

(** A [for] loop over [xs] threading the loop state [st]; an exception
    ends the loop. *)
Fixpoint for_each {A St : Type} (xs : list A) (body : A -> St -> outcome St)
    (st : St) : outcome St :=
  match xs with
  | [] => Ret st
  | x :: xs' => obind (body x st) (for_each xs' body)
  end.

(** [np.empty(n)]: [n] cells holding whatever [junk] the allocator left. *)
Definition np_empty (junk : nat -> fl) (n : nat) : array :=
  map junk (seq 0 n).

(* ================================================================== *)
(** ** numpy grids and quadrature

    [np.linspace], [np.logspace], [np.diff], [np.sum] and [np.trapz]
    belong to numpy; they are written from numpy's definitions. *)

(** [np.arange(0, num)] as floats *)
Definition arange (num : nat) : array := map (fun i => fin (INR i)) (seq 0 num).

(** [y[-1] = v] on a non-empty array *)
Fixpoint set_last (y : array) (v : fl) : array :=
  match y with
  | [] => []
  | [_] => [v]
  | x :: y' => x :: set_last y' v
  end.

(** [np.linspace(start, stop, num)] (endpoint included): the samples
    [start + i * step] with [step = (stop - start) / (num - 1)], the last
    one overwritten with [stop]; a negative [num] is a ValueError. *)
Definition linspace (start stop : fl) (num : Z) : outcome array :=
  if (num <? 0)%Z then Raise ValueError
  else
    let div := (num - 1)%Z in
    let y := arange (Z.to_nat num) in
    let delta := (stop - start)%fl in
    let y :=
      if (0 <? div)%Z then sc_mul (delta / fin (IZR div))%fl y
      else sc_mul delta y in
    let y := sc_add start y in
    Ret (if (1 <? num)%Z then set_last y stop else y).

(** [np.logspace(start, stop, num)] = [10 ** linspace(start, stop, num)].
    In this exact model [10 ** log10(x)] is [x]; in float64 it can
    differ from [x] in the last places. *)
Definition logspace (start stop : fl) (num : Z) : outcome array :=
  (y <- linspace start stop num ;; Ret (map fexp10 y))%py.

(** [np.diff] *)
Fixpoint diff (x : array) : array :=
  match x with
  | a :: (b :: _) as x' => (b - a)%fl :: diff x'
  | _ => []
  end.

Definition np_sum (a : array) : fl := fold_right fadd (fin 0) a.

(** [np.trapz(y, x)] on one axis:
    [sum(diff(x) * (y[1:] + y[:-1]) / 2.0)]. *)
Definition trapz (y x : array) : fl :=
  np_sum (map (fun t => (t / 2)%fl)
              (arr_mul (diff x) (arr_add (tl y) (removelast y)))).

(* ================================================================== *)
(** ** Geometry helpers of [agnpy.compton] *)

(** Modelled from the spec: [cos_psi] of [agnpy/compton.py], which is not
    among the sources; the spherical law of cosines
    cos psi = mu1 mu2 + sqrt(1 - mu1^2) sqrt(1 - mu2^2) cos phi. *)
Definition cos_psi (mu_s mu phi : fl) : fl :=
  (mu_s * mu
   + fsqrt (1 - fpow mu_s 2) * fsqrt (1 - fpow mu 2) * fcos phi)%fl.

(** Modelled from the spec: [x_re_shell] of [agnpy/compton.py];
    x = sqrt(R^2 + l^2 - 2 R l mu). *)
Definition x_re_shell (mu R_re l : fl) : fl :=
  fsqrt (fpow R_re 2 + fpow l 2 - 2 * R_re * l * mu)%fl.

(** Modelled from the spec: [x_re_ring] of [agnpy/compton.py];
    x = sqrt(R^2 + l^2). *)
Definition x_re_ring (R_re l : fl) : fl :=
  fsqrt (fpow R_re 2 + fpow l 2)%fl.

(** Modelled from the spec: [mu_star] of [agnpy/compton.py];
    mu_star = (l - R mu) / x. *)
Definition mu_star (mu R_re l : fl) : fl :=
  ((l - R_re * mu) / x_re_shell mu R_re l)%fl.

(* ================================================================== *)
(** ** The collaborators: emission region and photon targets

    [Blob] and the target classes live in modules that are not among
    the sources; each is the record of the attributes and methods that
    [absorption.py] reads. *)

Module Blob.
Record t : Type := {
  z : R;      (* redshift *)
  mu_s : R    (* cosine of the viewing angle *)
}.
End Blob.

Module SSDisk.
Record t : Type := {
  L_disk : R;
  R_g : R;
  eta : R;
  mu_from_r_tilde : fl -> array;
  epsilon_mu : fl -> fl -> fl;     (* element-wise in its first argument *)
  phi_disk_mu : fl -> fl -> fl     (* element-wise in its first argument *)
}.
End SSDisk.

Module SphericalShellBLR.
Record t : Type := {
  L_disk : R;
  xi_line : R;
  epsilon_line : R;
  R_line : R
}.
End SphericalShellBLR.

Module RingDustTorus.
Record t : Type := {
  L_disk : R;
  xi_dt : R;
  epsilon_dt : R;
  R_dt : R
}.
End RingDustTorus.

(** The run-time class of [self.target], as the [isinstance] chain of
    [tau] sees it; [OtherTarget] is any object of another class. *)
Inductive target : Type :=
| IsSSDisk (d : SSDisk.t)
| IsSphericalShellBLR (b : SphericalShellBLR.t)
| IsRingDustTorus (t : RingDustTorus.t)
| OtherTarget.

(* ================================================================== *)
(** ** The Absorption object *)

Record Absorption : Type := {
  blob : Blob.t;
  target_ : target;
  r : R;                 (* cm *)
  mu_size : Z;
  mu : array;
  phi_size : Z;
  phi : array;
  l_size : Z;
  l : array              (* cm *)
}.

(** Methods that mutate [self]: the object after the call, also when
    the call raises, and the outcome. *)
Definition method (A : Type) : Type := Absorption -> outcome A * Absorption.

Definition mret {A : Type} (a : A) : method A := fun self => (Ret a, self).

Definition mbind {A B : Type} (m : method A) (f : A -> method B) : method B :=
  fun self =>
    match m self with
    | (Ret a, self') => f a self'
    | (Raise e, self') => (Raise e, self')
    end.

Definition getself : method Absorption := fun self => (Ret self, self).

Definition call {A : Type} (o : outcome A) : method A := fun self => (o, self).

Declare Scope method_scope.
Delimit Scope method_scope with method.
Notation "x <- m ;; f" := (mbind m (fun x => f))
  (at level 61, m at next level, right associativity) : method_scope.
Notation "m ;; f" := (mbind m (fun _ => f))
  (at level 61, right associativity) : method_scope.

(** Attribute assignments [self.a = v] *)
Definition set_attr_mu_size (v : Z) : method unit := fun s =>
  (Ret tt, {| blob := blob s; target_ := target_ s; r := r s;
              mu_size := v; mu := mu s;
              phi_size := phi_size s; phi := phi s;
              l_size := l_size s; l := l s |}).
Definition set_attr_mu (v : array) : method unit := fun s =>
  (Ret tt, {| blob := blob s; target_ := target_ s; r := r s;
              mu_size := mu_size s; mu := v;
              phi_size := phi_size s; phi := phi s;
              l_size := l_size s; l := l s |}).
Definition set_attr_phi_size (v : Z) : method unit := fun s =>
  (Ret tt, {| blob := blob s; target_ := target_ s; r := r s;
              mu_size := mu_size s; mu := mu s;
              phi_size := v; phi := phi s;
              l_size := l_size s; l := l s |}).
Definition set_attr_phi (v : array) : method unit := fun s =>
  (Ret tt, {| blob := blob s; target_ := target_ s; r := r s;
              mu_size := mu_size s; mu := mu s;
              phi_size := phi_size s; phi := v;
              l_size := l_size s; l := l s |}).
Definition set_attr_l_size (v : Z) : method unit := fun s =>
  (Ret tt, {| blob := blob s; target_ := target_ s; r := r s;
              mu_size := mu_size s; mu := mu s;
              phi_size := phi_size s; phi := phi s;
              l_size := v; l := l s |}).
Definition set_attr_l (v : array) : method unit := fun s =>
  (Ret tt, {| blob := blob s; target_ := target_ s; r := r s;
              mu_size := mu_size s; mu := mu s;
              phi_size := phi_size s; phi := phi s;
              l_size := l_size s; l := v |}).

Section Engine.
Variable k : Const.t.
Open Scope method_scope.

(** [set_mu], [set_phi], [set_l]; the argument is the setter's
    [mu_size], [phi_size], [l_size]. *)
Definition set_mu (size : Z) : method unit :=
  set_attr_mu_size size ;;
  self <- getself ;;
  a <- call (linspace (-1) 1 (mu_size self)) ;;
  set_attr_mu a.

Definition set_phi (size : Z) : method unit :=
  set_attr_phi_size size ;;
  self <- getself ;;
  a <- call (linspace 0 (2 * PI) (phi_size self)) ;;
  set_attr_phi a.

Definition set_l (size : Z) : method unit :=
  set_attr_l_size size ;;
  self <- getself ;;
  let l_max := 3000 * Const.pc k in
  a <- call (logspace (flog10 (r self)) (flog10 l_max) (l_size self)) ;;
  set_attr_l a.

(** The object as [__init__] finds it after its three attribute
    assignments; the grids are not assigned yet and are shown empty. *)
Definition fresh (blob0 : Blob.t) (target0 : target) (r0 : R) : Absorption :=
  {| blob := blob0; target_ := target0; r := r0;
     mu_size := 0; mu := []; phi_size := 0; phi := [];
     l_size := 0; l := [] |}.

(** [__init__]: the setters with their default sizes. *)
Definition init : method unit :=
  set_mu 100 ;; set_phi 50 ;; set_l 10.

(** [Absorption(blob, target, r)] *)
Definition Absorption_new (blob0 : Blob.t) (target0 : target) (r0 : R)
  : outcome Absorption :=
  match init (fresh blob0 target0 r0) with
  | (Ret _, self) => Ret self
  | (Raise e, _) => Raise e
  end.

Close Scope method_scope.

(** [nu.to("", equivalencies=epsilon_equivalency)] followed by
    [epsilon_1 *= 1 + self.blob.z] *)
Definition epsilon_1_of (self : Absorption) (nu : array) : array :=
  let epsilon_1 :=
    map (fun x => (Const.h k * x / mec2 k)%fl) nu in
  map (fun e => (e * (1 + Blob.z (blob self)))%fl) epsilon_1.

(** *** The shell and ring integrators

    The broadcast integrand has one axis per grid and one for the
    frequencies.  [np.trapz(A, x, axis=0)] reduces the leading axis of [A]
    separately at every index of the other axes, so each reduction is the
    one-axis [trapz] of the samples along that axis; the element of the
    result for one frequency is the nest of these reductions. *)

Definition _opacity_shell_blr (self : Absorption) (b : SphericalShellBLR.t)
    (nu : array) : array :=
  let epsilon_1 := epsilon_1_of self nu in
  let integrand (_mu _phi _l _epsilon_1 : fl) : fl :=
    let _x := x_re_shell _mu (SphericalShellBLR.R_line b) _l in
    let _mu_star := mu_star _mu (SphericalShellBLR.R_line b) _l in
    let _cos_psi := cos_psi (Blob.mu_s (blob self)) _mu_star _phi in
    let _s :=
      (_epsilon_1 * SphericalShellBLR.epsilon_line b * (1 - _cos_psi) / 2)%fl in
    ((1 - _cos_psi) * fpow _x (-2) * sigma_elt k _s)%fl in
  let prefactor_num :=
    (SphericalShellBLR.xi_line b * SphericalShellBLR.L_disk b)%fl in
  let prefactor_denum :=
    (fpow (4 * PI)%fl 2 * SphericalShellBLR.epsilon_line b * Const.m_e k
     * fpow (Const.c k) 3)%fl in
  map (fun _epsilon_1 =>
         let integral_mu (_phi _l : fl) : fl :=
           trapz (map (fun _mu => integrand _mu _phi _l _epsilon_1) (mu self))
                 (mu self) in
         let integral_phi (_l : fl) : fl :=
           trapz (map (fun _phi => integral_mu _phi _l) (phi self))
                 (phi self) in
         let integral := trapz (map integral_phi (l self)) (l self) in
         (prefactor_num / prefactor_denum * integral)%fl)
      epsilon_1.

Definition _opacity_ring_torus (self : Absorption) (t : RingDustTorus.t)
    (nu : array) : array :=
  let epsilon_1 := epsilon_1_of self nu in
  let integrand (_phi _l _epsilon_1 : fl) : fl :=
    let _x := x_re_ring (RingDustTorus.R_dt t) _l in
    let _mu := (_l / _x)%fl in
    let _cos_psi := cos_psi (Blob.mu_s (blob self)) _mu _phi in
    let _s :=
      (_epsilon_1 * RingDustTorus.epsilon_dt t * (1 - _cos_psi) / 2)%fl in
    ((1 - _cos_psi) * fpow _x (-2) * sigma_elt k _s)%fl in
  let prefactor_num :=
    (RingDustTorus.xi_dt t * RingDustTorus.L_disk t)%fl in
  let prefactor_denum :=
    (fpow (4 * PI)%fl 2 * RingDustTorus.epsilon_dt t * Const.m_e k
     * fpow (Const.c k) 3)%fl in
  map (fun _epsilon_1 =>
         let integral_phi (_l : fl) : fl :=
           trapz (map (fun _phi => integrand _phi _l _epsilon_1) (phi self))
                 (phi self) in
         let integral := trapz (map integral_phi (l self)) (l self) in
         (prefactor_num / prefactor_denum * integral)%fl)
      epsilon_1.

(** *** The disk integrator

    [uninit n i] is what cell [i] of the [n]-th array handed out by
    [np.empty] during the call holds before it is written: array 0 is
    [integral], array [S i] the [integrand_l] of the [i]-th frequency.
    The [print] calls write to the standard output only and are left
    out. *)
Variable uninit : nat -> nat -> fl.

(** The body of the inner loop up to [integral_phi], for one frequency
    and one path length. *)
Definition disk_integral_phi (self : Absorption) (d : SSDisk.t)
    (_epsilon_1 _l : fl) : fl :=
  let l_tilde := (_l / SSDisk.R_g d)%fl in
  let mu := SSDisk.mu_from_r_tilde d l_tilde in
  let integrand (_mu _phi : fl) : fl :=
    let _epsilon := SSDisk.epsilon_mu d _mu l_tilde in
    let _phi_disk_mu := SSDisk.phi_disk_mu d _mu l_tilde in
    let _cos_psi := cos_psi (Blob.mu_s (blob self)) _mu _phi in
    let _s := (_epsilon_1 * _epsilon * (1 - _cos_psi) / 2)%fl in
    let _integrand_mu :=
      (_phi_disk_mu
       / (_epsilon * fpow _l 3 * _mu * fpow_3_2 (fpow _mu (-2) - 1)))%fl in
    (_integrand_mu * (1 - _cos_psi) * sigma_elt k _s)%fl in
  let integral_mu (_phi : fl) : fl :=
    trapz (map (fun _mu => integrand _mu _phi) mu) mu in
  trapz (map integral_mu (phi self)) (phi self).

(** The two loops.  The loop state of the inner loop is [integrand_l]
    and the variable [j]; that of the outer loop is [integral] and [j],
    which is unbound ([None]) until the inner loop has run once. *)
Definition _opacity_disk (self : Absorption) (d : SSDisk.t) (nu : array)
  : outcome array :=
  let epsilon_1 := epsilon_1_of self nu in
  let integral := np_empty (uninit 0) (length epsilon_1) in
  ('(integral, _) <-
     for_each (enumerate epsilon_1)
       (fun '(i, _epsilon_1) '(integral, j) =>
          let integrand_l := np_empty (uninit (S i)) (length (l self)) in
          '(integrand_l, j) <-
            for_each (enumerate (l self))
              (fun '(j, _l) '(integrand_l, _) =>
                 integrand_l <-
                   setitem integrand_l i
                     (disk_integral_phi self d _epsilon_1 _l) ;;
                 Ret (integrand_l, Some j))
              (integrand_l, j) ;;
          match j with
          | None => Raise UnboundLocalError
          | Some j' =>
              integral <- setitem integral j' (trapz integrand_l (l self)) ;;
              Ret (integral, j)
          end)
       (integral, @None nat) ;;
   let prefactor_num := (3 * SSDisk.L_disk d * SSDisk.R_g d)%fl in
   let prefactor_denum :=
     (16 * PI * SSDisk.eta d * Const.m_e k * fpow (Const.c k) 3)%fl in
   Ret (sc_mul (prefactor_num / prefactor_denum)%fl integral))%py.

(** *** The dispatcher *)

Inductive pyvalue : Type :=
| PyNone
| PyArray (a : array).

(** [tau]: three [isinstance] tests; a target of another class falls off
    the end of the function, which returns [None]. *)
Definition tau (self : Absorption) (nu : array) : outcome pyvalue :=
  match target_ self with
  | IsSSDisk d =>
      (a <- _opacity_disk self d nu ;; Ret (PyArray a))%py
  | IsSphericalShellBLR b => Ret (PyArray (_opacity_shell_blr self b nu))
  | IsRingDustTorus t => Ret (PyArray (_opacity_ring_torus self t nu))
  | OtherTarget => Ret PyNone
  end.

End Engine.

(* ================================================================== *)
(** ** The Gammapy wrapper: ranges and scales of the fit parameters

    [agnpy/wrappers/gammapy.py].  A [gammapy.modeling.Parameter] is the
    record of the attributes the wrapper reads or assigns; [min] and
    [max] are floats. *)

Module Param.
Record t : Type := {
  name : String.string;
  value : fl;
  min : fl;
  max : fl;
  frozen : bool;
  scale_method : String.string;
  interp : String.string;
  _is_norm : bool
}.

(** Attribute assignments [parameter.a = v] *)
Definition set_min (v : fl) (p : t) : t :=
  {| name := name p; value := value p; min := v; max := max p;
     frozen := frozen p; scale_method := scale_method p;
     interp := interp p; _is_norm := _is_norm p |}.
Definition set_max (v : fl) (p : t) : t :=
  {| name := name p; value := value p; min := min p; max := v;
     frozen := frozen p; scale_method := scale_method p;
     interp := interp p; _is_norm := _is_norm p |}.
Definition set_frozen (v : bool) (p : t) : t :=
  {| name := name p; value := value p; min := min p; max := max p;
     frozen := v; scale_method := scale_method p;
     interp := interp p; _is_norm := _is_norm p |}.
Definition set_scale_method (v : String.string) (p : t) : t :=
  {| name := name p; value := value p; min := min p; max := max p;
     frozen := frozen p; scale_method := v;
     interp := interp p; _is_norm := _is_norm p |}.
Definition set_interp (v : String.string) (p : t) : t :=
  {| name := name p; value := value p; min := min p; max := max p;
     frozen := frozen p; scale_method := scale_method p;
     interp := v; _is_norm := _is_norm p |}.
Definition set__is_norm (v : bool) (p : t) : t :=
  {| name := name p; value := value p; min := min p; max := max p;
     frozen := frozen p; scale_method := scale_method p;
     interp := interp p; _is_norm := v |}.
End Param.

(** One [if] of a loop body: the assignments [f] when the test holds. *)
Definition when (c : bool) (f : Param.t -> Param.t) (p : Param.t) : Param.t :=
  if c then f p else p.

(** The body of the loop of [set_spectral_pars_ranges_scales]: five
    [if]s in a row, each reading [parameter.name]. *)
Definition spectral_pars_body (p : Param.t) : Param.t :=
  let p :=
    when (String.eqb (Param.name p) "k_e"%str)
      (fun p =>
         Param.set__is_norm true
           (Param.set_interp "log"%str
              (Param.set_scale_method "scale10"%str
                 (Param.set_max 1e9 (Param.set_min 1 p))))) p in
  let p :=
    when (String.prefix "gamma"%str (Param.name p))
      (fun p =>
         Param.set_interp "log"%str
           (Param.set_scale_method "scale10"%str p)) p in
  let p :=
    when (String.eqb (Param.name p) "gamma_min"%str)
      (fun p =>
         Param.set_frozen true (Param.set_max 1e3 (Param.set_min 1 p))) p in
  let p :=
    when (String.eqb (Param.name p) "gamma_max"%str)
      (fun p =>
         Param.set_frozen true (Param.set_max 1e8 (Param.set_min 1e4 p))) p in
  when (String.prefix "p"%str (Param.name p))
    (fun p =>
       Param.set_interp "lin"%str
         (Param.set_scale_method "factor1"%str
            (Param.set_max 5 (Param.set_min 1 p)))) p.

(** [set_spectral_pars_ranges_scales(parameters)]: the parameters after
    the loop, in their order. *)
Definition set_spectral_pars_ranges_scales (parameters : list Param.t)
  : list Param.t :=
  map spectral_pars_body parameters.

Section EmissionRegion.
(** [Distance(z=z).to_value("cm")] of [astropy.coordinates], the
    luminosity distance of a redshift, is not part of the repository. *)
Variable distance_cm : R -> fl.

Definition emission_region_pars_body (p : Param.t) : Param.t :=
  let z_min := 0.001 in
  let z_max := 10 in
  let p :=
    when (String.eqb (Param.name p) "z"%str)
      (fun p =>
         Param.set_frozen true
           (Param.set_max z_max (Param.set_min z_min p))) p in
  let p :=
    when (String.eqb (Param.name p) "d_L"%str)
      (fun p =>
         Param.set_frozen true
           (Param.set_max (distance_cm z_max)
              (Param.set_min (distance_cm z_min) p))) p in
  let p :=
    when (String.eqb (Param.name p) "delta_D"%str)
      (fun p =>
         Param.set_interp "lin"%str
           (Param.set_scale_method "factor1"%str
              (Param.set_max 100 (Param.set_min 1 p)))) p in
  let p :=
    when (String.eqb (Param.name p) "B"%str)
      (fun p =>
         Param.set_interp "log"%str
           (Param.set_scale_method "scale10"%str
              (Param.set_max 1e3 (Param.set_min 1e-4 p)))) p in
  let p :=
    when (String.eqb (Param.name p) "R_b"%str)
      (fun p =>
         Param.set_interp "log"%str
           (Param.set_scale_method "scale10"%str
              (Param.set_max 1e18 (Param.set_min 1e12 p)))) p in
  let p :=
    when (String.eqb (Param.name p) "mu_s"%str)
      (fun p =>
         Param.set_frozen true (Param.set_max 1 (Param.set_min 0 p))) p in
  when (String.eqb (Param.name p) "r"%str)
    (fun p =>
       Param.set_interp "log"%str
         (Param.set_scale_method "scale10"%str
            (Param.set_max 1e20 (Param.set_min 1e16 p)))) p.

Definition set_emission_region_pars_ranges_scales
    (parameters : list Param.t) : list Param.t :=
  map emission_region_pars_body parameters.

End EmissionRegion.

Definition targets_pars_body (p : Param.t) : Param.t :=
  let p :=
    when (String.eqb (Param.name p) "L_disk"%str)
      (fun p =>
         Param.set_frozen true
           (Param.set_max 1e48 (Param.set_min 1e42 p))) p in
  let p :=
    when (String.eqb (Param.name p) "xi_line"%str)
      (fun p =>
         Param.set_frozen true (Param.set_max 1 (Param.set_min 1e-3 p))) p in
  let p :=
    when (String.eqb (Param.name p) "epsilon_line"%str)
      (fun p =>
         Param.set_frozen true
           (Param.set_max 1e-4 (Param.set_min 1e-7 p))) p in
  let p :=
    when (String.eqb (Param.name p) "R_line"%str)
      (fun p =>
         Param.set_frozen true
           (Param.set_max 1e18 (Param.set_min 1e15 p))) p in
  let p :=
    when (String.eqb (Param.name p) "xi_dt"%str)
      (fun p =>
         Param.set_frozen true (Param.set_max 1 (Param.set_min 1e-3 p))) p in
  let p :=
    when (String.eqb (Param.name p) "epsilon_dt"%str)
      (fun p =>
         Param.set_frozen true
           (Param.set_max 1e-8 (Param.set_min 1e-6 p))) p in
  when (String.eqb (Param.name p) "R_dt"%str)
    (fun p =>
       Param.set_frozen true
         (Param.set_max 1e21 (Param.set_min 1e17 p))) p.

Definition set_targets_pars_ranges_scales (parameters : list Param.t)
  : list Param.t :=
  map targets_pars_body parameters.

(** The names each of the three functions tests for. *)
Definition spectral_name (s : String.string) : bool :=
  String.eqb s "k_e"%str || String.prefix "gamma"%str s
  || String.eqb s "gamma_min"%str || String.eqb s "gamma_max"%str
  || String.prefix "p"%str s.

Definition emission_region_name (s : String.string) : bool :=
  String.eqb s "z"%str || String.eqb s "d_L"%str
  || String.eqb s "delta_D"%str || String.eqb s "B"%str
  || String.eqb s "R_b"%str || String.eqb s "mu_s"%str
  || String.eqb s "r"%str.

Definition targets_name (s : String.string) : bool :=
  String.eqb s "L_disk"%str || String.eqb s "xi_line"%str
  || String.eqb s "epsilon_line"%str || String.eqb s "R_line"%str
  || String.eqb s "xi_dt"%str || String.eqb s "epsilon_dt"%str
  || String.eqb s "R_dt"%str.

(* ================================================================== *)
(** ** What the statements below are written with *)

(** CODATA 2018 values in CGS units, for concrete instances. *)
Definition cgs : Const.t :=
  {| Const.h := 6.62607015e-27;
     Const.c := 29979245800;
     Const.m_e := 9.1093837015e-28;
     Const.sigma_T := 6.6524587321e-25;
     Const.pc := 3.0856775814913673e18 |}.

(** [n] samples [a + i * step]. *)
Definition lin_samples (a step : R) (n : nat) : array :=
  map (fun i => fin (a + INR i * step)) (seq 0 n).

Definition log10R (x : R) : R := ln x / ln 10.

(** [g] holds [n >= 2] evenly spaced samples from [a] to [b], ends
    included. *)
Definition linear_grid (a b : R) (n : Z) (g : array) : Prop :=
  (2 <= n)%Z /\
  length g = Z.to_nat n /\
  hd_error g = Some (fin a) /\
  last g None = fin b /\
  forall i : nat, (i < length g)%nat ->
    nth_error g i = Some (fin (a + INR i * ((b - a) / (IZR n - 1)))).

(** [g] holds [n >= 2] samples from [a] to [b], ends included, evenly
    spaced in their decimal logarithm and strictly increasing. *)
Definition log_grid (a b : R) (n : Z) (g : array) : Prop :=
  (2 <= n)%Z /\
  length g = Z.to_nat n /\
  hd_error g = Some (fin a) /\
  last g None = fin b /\
  (forall i : nat, (i < length g)%nat ->
     nth_error g i =
     Some (fin (Rpower 10 (log10R a
                           + INR i * ((log10R b - log10R a) / (IZR n - 1)))))) /\
  (forall (i : nat) (x y : R),
     nth_error g i = Some (fin x) -> nth_error g (S i) = Some (fin y) ->
     x < y).


(** The grids of an [Absorption] object as the setters leave them. *)
Definition grid_invariant (k : Const.t) (self : Absorption) : Prop :=
  linear_grid (-1) 1 (mu_size self) (mu self) /\
  linear_grid 0 (2 * PI) (phi_size self) (phi self) /\
  log_grid (r self) (3000 * Const.pc k) (l_size self) (l self).

(** [n] samples [10 ** (a + i * step)]. *)
Definition log_samples (a step : R) (n : nat) : array :=
  map (fun i => fin (Rpower 10 (a + INR i * step))) (seq 0 n).

(** A concrete scene: a blob at redshift 0.1 seen at mu_s = 0.1, at
    1e16 cm from the black hole, and one target of each class. *)
Definition blob_ex : Blob.t := {| Blob.z := 0.1; Blob.mu_s := 0.1 |}.

Definition blr_ex : SphericalShellBLR.t :=
  {| SphericalShellBLR.L_disk := 2e46;
     SphericalShellBLR.xi_line := 0.024;
     SphericalShellBLR.epsilon_line := 2e-5;
     SphericalShellBLR.R_line := 1e17 |}.

Definition torus_ex : RingDustTorus.t :=
  {| RingDustTorus.L_disk := 2e46;
     RingDustTorus.xi_dt := 0.1;
     RingDustTorus.epsilon_dt := 5e-7;
     RingDustTorus.R_dt := 1e18 |}.

Definition r_ex : R := 1e16.

(** The object [Absorption(blob, target, r)] holds when [r] is positive
    and below 3000 pc. *)
Definition constructed (k : Const.t) (blob0 : Blob.t) (target0 : target)
    (r0 : R) : Absorption :=
  {| blob := blob0; target_ := target0; r := r0;
     mu_size := 100;
     mu := lin_samples (-1) ((1 - -1) / (IZR 100 - 1)) (Z.to_nat 100);
     phi_size := 50;
     phi := lin_samples 0 ((2 * PI - 0) / (IZR 50 - 1)) (Z.to_nat 50);
     l_size := 10;
     l := log_samples (log10R r0)
            ((log10R (3000 * Const.pc k) - log10R r0) / (IZR 10 - 1))
            (Z.to_nat 10) |}.

(** A grid of finite, weakly increasing samples. *)
Fixpoint fin_increasing (x : array) : Prop :=
  match x with
  | a :: (b :: _) as x' =>
      (exists u v : R, a = fin u /\ b = fin v /\ u <= v) /\ fin_increasing x'
  | _ => True
  end.

(** The object with another target, and the targets with another
    luminosity fraction, all else kept. *)
Definition with_target (self : Absorption) (t : target) : Absorption :=
  {| blob := blob self; target_ := t; r := r self;
     mu_size := mu_size self; mu := mu self;
     phi_size := phi_size self; phi := phi self;
     l_size := l_size self; l := l self |}.

Definition with_xi_line (b : SphericalShellBLR.t) (xi : R)
  : SphericalShellBLR.t :=
  {| SphericalShellBLR.L_disk := SphericalShellBLR.L_disk b;
     SphericalShellBLR.xi_line := xi;
     SphericalShellBLR.epsilon_line := SphericalShellBLR.epsilon_line b;
     SphericalShellBLR.R_line := SphericalShellBLR.R_line b |}.

Definition with_xi_dt (t : RingDustTorus.t) (xi : R) : RingDustTorus.t :=
  {| RingDustTorus.L_disk := RingDustTorus.L_disk t;
     RingDustTorus.xi_dt := xi;
     RingDustTorus.epsilon_dt := RingDustTorus.epsilon_dt t;
     RingDustTorus.R_dt := RingDustTorus.R_dt t |}.

(** The value of a finite float. *)
Definition fl_value (a : fl) : R :=
  match a with
  | Some v => v
  | None => 0
  end.

(** The parts of the shell and ring integrators: the dimensionless
    energy of one frequency, the integrand at one grid point, the
    triple and double quadrature for one energy, and the denominator of
    the prefactor. *)
Definition epsilon_of (k : Const.t) (self : Absorption) (nu0 : R) : R :=
  Const.h k * nu0 / mec2 k * (1 + Blob.z (blob self)).

Definition shell_integrand (k : Const.t) (self : Absorption)
    (b : SphericalShellBLR.t) (_mu _phi _l _epsilon_1 : fl) : fl :=
  let _x := x_re_shell _mu (SphericalShellBLR.R_line b) _l in
  let _mu_star := mu_star _mu (SphericalShellBLR.R_line b) _l in
  let _cos_psi := cos_psi (Blob.mu_s (blob self)) _mu_star _phi in
  let _s :=
    (_epsilon_1 * SphericalShellBLR.epsilon_line b * (1 - _cos_psi) / 2)%fl in
  ((1 - _cos_psi) * fpow _x (-2) * sigma_elt k _s)%fl.

Definition shell_integral (k : Const.t) (self : Absorption)
    (b : SphericalShellBLR.t) (_epsilon_1 : fl) : fl :=
  trapz
    (map (fun _l =>
            trapz
              (map (fun _phi =>
                      trapz
                        (map (fun _mu =>
                                shell_integrand k self b _mu _phi _l _epsilon_1)
                             (mu self))
                        (mu self))
                   (phi self))
              (phi self))
         (l self))
    (l self).

Definition ring_integrand (k : Const.t) (self : Absorption)
    (t : RingDustTorus.t) (_phi _l _epsilon_1 : fl) : fl :=
  let _x := x_re_ring (RingDustTorus.R_dt t) _l in
  let _mu := (_l / _x)%fl in
  let _cos_psi := cos_psi (Blob.mu_s (blob self)) _mu _phi in
  let _s :=
    (_epsilon_1 * RingDustTorus.epsilon_dt t * (1 - _cos_psi) / 2)%fl in
  ((1 - _cos_psi) * fpow _x (-2) * sigma_elt k _s)%fl.

Definition ring_integral (k : Const.t) (self : Absorption)
    (t : RingDustTorus.t) (_epsilon_1 : fl) : fl :=
  trapz
    (map (fun _l =>
            trapz
              (map (fun _phi => ring_integrand k self t _phi _l _epsilon_1)
                   (phi self))
              (phi self))
         (l self))
    (l self).

Definition ec_denominator (k : Const.t) (eps : R) : R :=
  (4 * PI) ^ 2 * eps * Const.m_e k * Const.c k ^ 3.

(** What the shell and ring integrators ask of their target: a
    non-negative luminosity fraction and disk luminosity, a positive
    photon energy and radius and, for the shell, no path-length sample
    on the shell itself. *)
Definition shell_well_formed (self : Absorption) (b : SphericalShellBLR.t)
  : Prop :=
  0 <= SphericalShellBLR.xi_line b /\
  0 <= SphericalShellBLR.L_disk b /\
  0 < SphericalShellBLR.epsilon_line b /\
  0 < SphericalShellBLR.R_line b /\
  ~ In (fin (SphericalShellBLR.R_line b)) (l self).

Definition ring_well_formed (t : RingDustTorus.t) : Prop :=
  0 <= RingDustTorus.xi_dt t /\
  0 <= RingDustTorus.L_disk t /\
  0 < RingDustTorus.epsilon_dt t /\
  0 < RingDustTorus.R_dt t.

(** A disk for concrete instances; its three methods, which belong to
    the absent [targets] module, are stand-ins with constant values. *)
Definition disk_ex : SSDisk.t :=
  {| SSDisk.L_disk := 2e46;
     SSDisk.R_g := 1.5e14;
     SSDisk.eta := 1 / 12;
     SSDisk.mu_from_r_tilde := fun _ => [fin (1 / 2); fin (9 / 10)];
     SSDisk.epsilon_mu := fun _ _ => fin 1e-5;
     SSDisk.phi_disk_mu := fun _ _ => fin 1 |}.

(** The object with another redshift of the blob, all else kept. *)
Definition with_redshift (self : Absorption) (z0 : R) : Absorption :=
  {| blob := {| Blob.z := z0; Blob.mu_s := Blob.mu_s (blob self) |};
     target_ := target_ self; r := r self;
     mu_size := mu_size self; mu := mu self;
     phi_size := phi_size self; phi := phi self;
     l_size := l_size self; l := l self |}.

(** The bodies of the two loops of [_opacity_disk] and its prefactor. *)
Definition disk_inner_body (k : Const.t) (self : Absorption) (d : SSDisk.t)
    (i : nat) (_epsilon_1 : fl)
  : nat * fl -> array * option nat -> outcome (array * option nat) :=
  fun '(j, _l) '(integrand_l, _) =>
    (integrand_l <-
       setitem integrand_l i (disk_integral_phi k self d _epsilon_1 _l) ;;
     Ret (integrand_l, Some j))%py.

Definition disk_outer_body (k : Const.t) (uninit : nat -> nat -> fl)
    (self : Absorption) (d : SSDisk.t)
  : nat * fl -> array * option nat -> outcome (array * option nat) :=
  fun '(i, _epsilon_1) '(integral, j) =>
    let integrand_l := np_empty (uninit (S i)) (length (l self)) in
    ('(integrand_l, j) <-
       for_each (enumerate (l self)) (disk_inner_body k self d i _epsilon_1)
                (integrand_l, j) ;;
     match j with
     | None => Raise UnboundLocalError
     | Some j' =>
         integral <- setitem integral j' (trapz integrand_l (l self)) ;;
         Ret (integral, j)
     end)%py.

Definition disk_prefactor (k : Const.t) (d : SSDisk.t) : fl :=
  (3 * SSDisk.L_disk d * SSDisk.R_g d
   / (16 * PI * SSDisk.eta d * Const.m_e k * fpow (Const.c k) 3))%fl.

(** A [Parameter(name, value)] of Gammapy with the defaults of its
    other attributes. *)
Definition parameter_ex (n : String.string) (v : fl) : Param.t :=
  {| Param.name := n; Param.value := v; Param.min := None;
     Param.max := None; Param.frozen := false;
     Param.scale_method := "scale10"%str; Param.interp := "lin"%str;
     Param._is_norm := false |}.

(** Two lists of parameters with the same names and values, in the same
    order. *)
Definition same_names_values (ps qs : list Param.t) : Prop :=
  map Param.name ps = map Param.name qs
  /\ map Param.value ps = map Param.value qs.

(** A grid of finite, strictly increasing samples. *)
Fixpoint fin_strictly_increasing (x : array) : Prop :=
  match x with
  | a :: (b :: _) as x' =>
      (exists u v : R, a = fin u /\ b = fin v /\ u < v)
      /\ fin_strictly_increasing x'
  | _ => True
  end.

(** The grids of an object as its constructor and its setters leave
    them: each grid is the one its setter computes for the size the
    object records (any size the setter accepts, 0 and 1 included). *)
Definition grids_of_setters (k : Const.t) (self : Absorption) : Prop :=
  linspace (fin (-1)) (fin 1) (mu_size self) = Ret (mu self) /\
  linspace (fin 0) (fin (2 * PI)) (phi_size self) = Ret (phi self) /\
  logspace (flog10 (fin (r self))) (flog10 (fin (3000 * Const.pc k)))
           (l_size self) = Ret (l self).

(** What the shell and ring integrators use of the grids: samples that
    are finite, weakly increasing, and in [-1, 1] for the cosines, in
    [0, 2 pi] for the azimuths, positive for the path lengths. *)
Definition grid_facts (self : Absorption) : Prop :=
  (fin_increasing (mu self) /\
   forall x : fl, In x (mu self) -> exists m : R, x = fin m /\ -1 <= m <= 1) /\
  (fin_increasing (phi self) /\
   forall x : fl, In x (phi self) ->
     exists p : R, x = fin p /\ 0 <= p <= 2 * PI) /\
  (fin_increasing (l self) /\
   forall x : fl, In x (l self) -> exists lv : R, x = fin lv /\ 0 < lv).

(** Frequencies at which the argument [s] of the cross section stays at
    or below 1e16 at every grid point ([s] is at most the dimensionless
    energy times the photon energy [eps] of the target): below [2^54],
    from where the binary64 cross section is nan. *)
Definition below_sigma_limit (k : Const.t) (self : Absorption) (eps : R)
    (nus : list R) : Prop :=
  forall nu0 : R, In nu0 nus -> epsilon_of k self nu0 * eps <= 1e16.

(** A blob beyond the broad-line region and at the radius of the torus. *)
Definition r_out : R := 1e18.

(** Auxiliary functions of the analysis of the cross section. *)
Definition atanh2 (t : R) : R := ln (1 + t) - ln (1 - t) - 2 * t.
Definition atanh2' (t : R) : R :=
  / (1 + t) * (0 + 1) - / (1 - t) * (0 - 1) - 2 * 1.

(* ================================================================== *)
(** * Properties *)

(** Projections of the concrete records, without touching the numerals. *)
Ltac project :=
  unfold cgs, blob_ex, blr_ex, torus_ex, r_ex, with_xi_line, with_xi_dt;
  cbn [Const.h Const.c Const.m_e Const.sigma_T Const.pc
       Blob.z Blob.mu_s
       SphericalShellBLR.L_disk SphericalShellBLR.xi_line
       SphericalShellBLR.epsilon_line SphericalShellBLR.R_line
       RingDustTorus.L_disk RingDustTorus.xi_dt
       RingDustTorus.epsilon_dt RingDustTorus.R_dt].

(** ** Real-analysis facts behind the cross section *)

Lemma ln_le_minus1 (y : R) : 0 < y -> ln y <= y - 1.
Proof.
  intros Hy.
  destruct (Req_dec_T y 1) as [-> | Hne].
  - rewrite ln_1. lra.
  - left. apply exp_lt_inv. rewrite exp_ln by assumption.
    pose proof (exp_ineq1 (y - 1)) as H. lra.
Qed.

Lemma atanh2_deriv (t : R) :
  -1 < t < 1 -> derivable_pt_lim atanh2 t (atanh2' t).
Proof.
  intros Ht. unfold atanh2, atanh2'.
  apply (derivable_pt_lim_minus
           (fun u => ln (1 + u) - ln (1 - u)) (fun u => 2 * u)).
  - apply (derivable_pt_lim_minus
             (fun u => ln (1 + u)) (fun u => ln (1 - u))).
    + apply (derivable_pt_lim_comp (fun u => 1 + u) ln).
      * apply (derivable_pt_lim_plus (fct_cte 1) id).
        -- apply derivable_pt_lim_const.
        -- apply derivable_pt_lim_id.
      * apply derivable_pt_lim_ln. lra.
    + apply (derivable_pt_lim_comp (fun u => 1 - u) ln).
      * apply (derivable_pt_lim_minus (fct_cte 1) id).
        -- apply derivable_pt_lim_const.
        -- apply derivable_pt_lim_id.
      * apply derivable_pt_lim_ln. lra.
  - apply (derivable_pt_lim_scal id 2). apply derivable_pt_lim_id.
Qed.

Lemma atanh2'_nonneg (t : R) : 0 <= t < 1 -> 0 <= atanh2' t.
Proof.
  intros Ht. unfold atanh2'.
  replace (/ (1 + t) * (0 + 1) - / (1 - t) * (0 - 1) - 2 * 1)
    with (2 * (t * t) / ((1 + t) * (1 - t))) by (field; lra).
  apply Rmult_le_pos; [nra |].
  left. apply Rinv_0_lt_compat. nra.
Qed.

Lemma atanh2_nonneg (b : R) : 0 <= b < 1 -> 0 <= atanh2 b.
Proof.
  intros [Hb0 Hb1].
  assert (H0 : atanh2 0 = 0).
  { unfold atanh2. rewrite Rplus_0_r, Rminus_0_r, ln_1. lra. }
  destruct (Req_dec_T b 0) as [-> | Hne].
  - lra.
  - assert (Hlt : 0 < b) by lra.
    destruct (MVT_cor2 atanh2 atanh2' 0 b Hlt) as [x [Heq Hx]].
    + intros y Hy. apply atanh2_deriv. lra.
    + assert (0 <= atanh2' x) by (apply atanh2'_nonneg; lra).
      rewrite H0 in Heq. nra.
Qed.

Lemma ln_ratio (b : R) : 0 <= b < 1 ->
  ln ((1 + b) / (1 - b)) = ln (1 + b) - ln (1 - b).
Proof.
  intros Hb. unfold Rdiv. rewrite ln_mult, ln_Rinv; try lra.
  apply Rinv_0_lt_compat. lra.
Qed.

Lemma ln_ratio_lower (b : R) : 0 <= b < 1 -> 2 * b <= ln ((1 + b) / (1 - b)).
Proof.
  intros Hb. rewrite ln_ratio by assumption.
  pose proof (atanh2_nonneg b Hb) as H. unfold atanh2 in H. lra.
Qed.

Lemma ln_ratio_upper (b : R) :
  0 <= b < 1 -> ln ((1 + b) / (1 - b)) <= 2 * b / (1 - b).
Proof.
  intros Hb.
  assert (Hpos : 0 < (1 + b) / (1 - b)).
  { apply Rdiv_lt_0_compat; lra. }
  pose proof (ln_le_minus1 _ Hpos) as H.
  replace ((1 + b) / (1 - b) - 1) with (2 * b / (1 - b)) in H
    by (field; lra).
  exact H.
Qed.

Lemma dermer_bracket_nonneg (b : R) : 0 <= b < 1 -> 0 <= dermer_bracket b.
Proof.
  intros Hb. unfold dermer_bracket.
  pose proof (ln_ratio_lower b Hb) as HL.
  set (L := ln ((1 + b) / (1 - b))) in *.
  assert (Hb4 : 0 <= b ^ 4 <= 1).
  { assert (0 <= b * b <= 1) by nra. simpl. nra. }
  assert (H1 : (3 - b ^ 4) * (2 * b) <= (3 - b ^ 4) * L).
  { apply Rmult_le_compat_l; lra. }
  assert (H2 : 0 <= (3 - b ^ 4) * (2 * b) - 2 * b * (2 - b ^ 2)).
  { replace ((3 - b ^ 4) * (2 * b) - 2 * b * (2 - b ^ 2))
      with (2 * b * (1 - b ^ 4 + b ^ 2)) by ring.
    apply Rmult_le_pos; [lra |].
    assert (0 <= b ^ 2) by (simpl; nra). lra. }
  lra.
Qed.

Lemma dermer_bracket_pos (b : R) : 0 < b < 1 -> 0 < dermer_bracket b.
Proof.
  intros Hb. unfold dermer_bracket.
  pose proof (ln_ratio_lower b ltac:(lra)) as HL.
  set (L := ln ((1 + b) / (1 - b))) in *.
  assert (Hb2 : 0 < b * b < 1) by nra.
  assert (Hb4 : 0 <= b ^ 4 <= 1) by (simpl; nra).
  assert (H1 : (3 - b ^ 4) * (2 * b) <= (3 - b ^ 4) * L).
  { apply Rmult_le_compat_l; lra. }
  assert (H2 : 0 < (3 - b ^ 4) * (2 * b) - 2 * b * (2 - b ^ 2)).
  { replace ((3 - b ^ 4) * (2 * b) - 2 * b * (2 - b ^ 2))
      with (2 * b * (1 - b ^ 4 + b ^ 2)) by ring.
    apply Rmult_lt_0_compat; [lra |].
    assert (0 <= b ^ 2) by (simpl; nra). lra. }
  lra.
Qed.

Lemma dermer_bracket_upper (b : R) :
  0 <= b < 1 -> (1 - b ^ 2) * dermer_bracket b <= 12 * b.
Proof.
  intros Hb. unfold dermer_bracket.
  pose proof (ln_ratio_lower b Hb) as HL.
  pose proof (ln_ratio_upper b Hb) as HU.
  set (L := ln ((1 + b) / (1 - b))) in *.
  assert (Hb4 : 0 <= b ^ 4 <= 1).
  { assert (0 <= b * b <= 1) by nra. simpl. nra. }
  assert (Hb2 : 0 <= b ^ 2 <= 1) by (simpl; nra).
  assert (HUL : (1 - b) * L <= 2 * b).
  { apply (Rmult_le_compat_l (1 - b)) in HU; [| lra].
    replace ((1 - b) * (2 * b / (1 - b))) with (2 * b) in HU by (field; lra).
    exact HU. }
  assert (H1 : (1 - b ^ 2) * L <= 2 * b * (1 + b)).
  { replace ((1 - b ^ 2) * L) with ((1 + b) * ((1 - b) * L)) by ring.
    replace (2 * b * (1 + b)) with ((1 + b) * (2 * b)) by ring.
    apply Rmult_le_compat_l; lra. }
  assert (HL0 : 0 <= (1 - b ^ 2) * L).
  { apply Rmult_le_pos; lra. }
  assert (H3 : (1 - b ^ 2) * ((3 - b ^ 4) * L) <= 3 * ((1 - b ^ 2) * L)).
  { replace ((1 - b ^ 2) * ((3 - b ^ 4) * L))
      with ((3 - b ^ 4) * ((1 - b ^ 2) * L)) by ring.
    apply Rmult_le_compat_r; lra. }
  assert (H4 : 0 <= (1 - b ^ 2) * (2 * b * (2 - b ^ 2))).
  { apply Rmult_le_pos; [lra |]. apply Rmult_le_pos; lra. }
  nra.
Qed.

Lemma beta_of_range (s : R) : 1 <= s -> 0 <= beta_of s < 1.
Proof.
  intros Hs. unfold beta_of. split; [apply sqrt_pos |].
  assert (0 < / s <= 1).
  { split; [apply Rinv_0_lt_compat; lra |].
    rewrite <- Rinv_1. apply Rinv_le_contravar; lra. }
  pose proof (sqrt_lt_1_alt (1 - / s) 1) as Hlt.
  rewrite sqrt_1 in Hlt. apply Hlt. lra.
Qed.

Lemma beta_of_sqr (s : R) : 1 <= s -> beta_of s ^ 2 = 1 - / s.
Proof.
  intros Hs. unfold beta_of. simpl. rewrite Rmult_1_r.
  apply sqrt_def.
  assert (/ s <= 1).
  { rewrite <- Rinv_1. apply Rinv_le_contravar; lra. }
  lra.
Qed.

(** ** The float layer *)

Lemma fadd_fin (x y : R) : (fin x + fin y)%fl = fin (x + y).
Proof. reflexivity. Qed.

Lemma fsub_fin (x y : R) : (fin x - fin y)%fl = fin (x - y).
Proof. reflexivity. Qed.

Lemma fmul_fin (x y : R) : (fin x * fin y)%fl = fin (x * y).
Proof. reflexivity. Qed.

Lemma fdiv_fin (x y : R) : y <> 0 -> (fin x / fin y)%fl = fin (x / y).
Proof.
  intros Hy. unfold fdiv, fin. destruct (Req_dec_T y 0); [contradiction | reflexivity].
Qed.

Lemma fdiv_zero (x : R) : (fin x / fin 0)%fl = None.
Proof.
  unfold fdiv, fin. destruct (Req_dec_T 0 0); [reflexivity | contradiction].
Qed.

Lemma fsqrt_fin (x : R) : 0 <= x -> fsqrt (fin x) = fin (sqrt x).
Proof.
  intros Hx. unfold fsqrt, fin. destruct (Rlt_dec x 0); [lra | reflexivity].
Qed.

Lemma flog_fin (x : R) : 0 < x -> flog (fin x) = fin (ln x).
Proof.
  intros Hx. unfold flog, fin. destruct (Rlt_dec 0 x); [reflexivity | lra].
Qed.

Lemma flog10_fin (x : R) : 0 < x -> flog10 (fin x) = fin (ln x / ln 10).
Proof.
  intros Hx. unfold flog10, fin. destruct (Rlt_dec 0 x); [reflexivity | lra].
Qed.

Lemma fpow_nat (x : R) (n : Z) :
  (0 <= n)%Z -> fpow (fin x) n = fin (x ^ Z.to_nat n).
Proof.
  intros Hn. unfold fpow, fin.
  destruct (0 <=? n)%Z eqn:E; [reflexivity | apply Z.leb_gt in E; lia].
Qed.

Lemma fpow_neg (x : R) (n : Z) :
  (n < 0)%Z -> x <> 0 -> fpow (fin x) n = fin (/ x ^ Z.to_nat (- n)).
Proof.
  intros Hn Hx. unfold fpow, fin.
  destruct (0 <=? n)%Z eqn:E; [apply Z.leb_le in E; lia |].
  destruct (Req_dec_T x 0); [contradiction | reflexivity].
Qed.

Lemma fpow_neg_zero (n : Z) : (n < 0)%Z -> fpow (fin 0) n = None.
Proof.
  intros Hn. unfold fpow, fin.
  destruct (0 <=? n)%Z eqn:E; [apply Z.leb_le in E; lia |].
  destruct (Req_dec_T 0 0); [reflexivity | contradiction].
Qed.

Lemma fltb_true (x y : R) : x < y -> fltb (fin x) (fin y) = true.
Proof.
  intros H. unfold fltb, fin. destruct (Rlt_dec x y); [reflexivity | contradiction].
Qed.

Lemma fltb_false (x y : R) : y <= x -> fltb (fin x) (fin y) = false.
Proof.
  intros H. unfold fltb, fin. destruct (Rlt_dec x y); [lra | reflexivity].
Qed.

Lemma fmul_None_r (a : fl) : (a * None)%fl = None.
Proof. destruct a; reflexivity. Qed.

Lemma fadd_None_r (a : fl) : (a + None)%fl = None.
Proof. destruct a; reflexivity. Qed.

Lemma fin_nonneg_intro (x : R) : 0 <= x -> fin_nonneg (fin x).
Proof. intros Hx. exists x. split; [reflexivity | exact Hx]. Qed.

(** ** The cross section, element by element *)

Section SigmaFacts.
Variable k : Const.t.

Lemma sigma_map (s : array) : sigma k s = map (sigma_elt k) s.
Proof.
  unfold sigma. induction s as [| x s IH]; [reflexivity |].
  cbn [np_sqrt np_log np_power sc_add sc_sub sc_mul arr_add arr_mul arr_div
       zip_with map np_lt setitem_mask] in *.
  f_equal. exact IH.
Qed.

Lemma sigma_length (s : array) : length (sigma k s) = length s.
Proof. rewrite sigma_map. apply length_map. Qed.

Lemma sigma_elt_below (x : R) : x < 1 -> sigma_elt k (fin x) = fin 0.
Proof.
  intros Hx. unfold sigma_elt. rewrite fltb_true by exact Hx. reflexivity.
Qed.

Lemma sigma_elt_above (x : R) :
  1 <= x -> sigma_elt k (fin x) = fin (dermer17 k x).
Proof.
  intros Hx. unfold sigma_elt.
  rewrite fltb_false by exact Hx.
  pose proof (beta_of_range x Hx) as Hb.
  assert (Hinv : / x <= 1).
  { rewrite <- Rinv_1. apply Rinv_le_contravar; lra. }
  rewrite (fpow_neg x (-1)) by (lia || lra).
  change (Z.to_nat (- -1)) with 1%nat. rewrite pow_1.
  rewrite fsub_fin, fsqrt_fin by lra.
  fold (beta_of x). set (b := beta_of x) in *.
  rewrite !fpow_nat by lia.
  change (Z.to_nat 2) with 2%nat. change (Z.to_nat 4) with 4%nat.
  rewrite !fsub_fin, !fadd_fin.
  rewrite (fdiv_fin (1 + b) (1 - b)) by lra.
  rewrite flog_fin by (apply Rdiv_lt_0_compat; lra).
  rewrite (fdiv_fin 3 16) by lra.
  rewrite !fmul_fin, !fadd_fin, !fmul_fin.
  unfold fin. f_equal. unfold dermer17, dermer_bracket. fold b. ring.
Qed.

Lemma sigma_elt_nan : sigma_elt k None = None.
Proof.
  unfold sigma_elt. cbn [fltb fpow fsub lift2 fsqrt fin].
  rewrite !fmul_None_r. reflexivity.
Qed.

Lemma dermer17_nonneg (x : R) :
  0 < Const.sigma_T k -> 1 <= x -> 0 <= dermer17 k x.
Proof.
  intros HT Hx. unfold dermer17.
  pose proof (beta_of_range x Hx) as Hb.
  pose proof (dermer_bracket_nonneg _ Hb) as HB.
  assert (0 <= 1 - beta_of x ^ 2) by (simpl; nra).
  apply Rmult_le_pos; [| exact HB].
  apply Rmult_le_pos; [lra | assumption].
Qed.

Lemma dermer17_pos (x : R) :
  0 < Const.sigma_T k -> 1 < x -> 0 < dermer17 k x.
Proof.
  intros HT Hx. unfold dermer17.
  pose proof (beta_of_range x ltac:(lra)) as Hb.
  pose proof (beta_of_sqr x ltac:(lra)) as Hsq.
  assert (Hi : 0 < / x < 1).
  { split; [apply Rinv_0_lt_compat; lra |].
    rewrite <- Rinv_1. apply Rinv_lt_contravar; lra. }
  assert (Hbpos : 0 < beta_of x).
  { destruct (Req_dec_T (beta_of x) 0) as [E | E]; [| lra].
    rewrite E in Hsq. simpl in Hsq. lra. }
  pose proof (dermer_bracket_pos (beta_of x) ltac:(lra)) as HB.
  apply Rmult_lt_0_compat; [| exact HB].
  apply Rmult_lt_0_compat; lra.
Qed.


Lemma sigma_elt_fin_nonneg (x : R) :
  0 < Const.sigma_T k -> fin_nonneg (sigma_elt k (fin x)).
Proof.
  intros HT. destruct (Rlt_dec x 1) as [Hlt | Hge].
  - rewrite sigma_elt_below by exact Hlt. apply fin_nonneg_intro. lra.
  - rewrite sigma_elt_above by lra. apply fin_nonneg_intro.
    apply dermer17_nonneg; lra.
Qed.

End SigmaFacts.

(** ** The cross section: closed form, sign and threshold *)

Section SigmaClaims.
Variable k : Const.t.


Lemma dermer17_upper (x : R) :
  0 < Const.sigma_T k -> 1 <= x ->
  dermer17 k x <= 9 / 4 * Const.sigma_T k * beta_of x.
Proof.
  intros HT Hx. unfold dermer17.
  pose proof (beta_of_range x Hx) as Hb.
  pose proof (dermer_bracket_upper _ Hb) as HU.
  replace (3 / 16 * Const.sigma_T k * (1 - beta_of x ^ 2)
           * dermer_bracket (beta_of x))
    with (3 / 16 * Const.sigma_T k
          * ((1 - beta_of x ^ 2) * dermer_bracket (beta_of x))) by ring.
  replace (9 / 4 * Const.sigma_T k * beta_of x)
    with (3 / 16 * Const.sigma_T k * (12 * beta_of x)) by field.
  apply Rmult_le_compat_l; [lra | exact HU].
Qed.





End SigmaClaims.

(** ** Lists and grids *)

Lemma nth_error_map_seq {A : Type} (f : nat -> A) (n i : nat) :
  (i < n)%nat -> nth_error (map f (seq 0 n)) i = Some (f i).
Proof.
  intros Hi. apply map_nth_error. rewrite nth_error_seq.
  destruct (i <? n)%nat eqn:E; [reflexivity | apply Nat.ltb_ge in E; lia].
Qed.

Lemma set_last_snoc (y : array) (x v : fl) : set_last (y ++ [x]) v = y ++ [v].
Proof.
  induction y as [| a y IH]; [reflexivity |].
  cbn [app set_last]. rewrite IH.
  destruct y; reflexivity.
Qed.

Lemma set_last_length (y : array) (v : fl) : length (set_last y v) = length y.
Proof.
  induction y as [| a y IH]; [reflexivity |].
  destruct y as [| b y]; [reflexivity |].
  change (set_last (a :: b :: y) v) with (a :: set_last (b :: y) v).
  cbn [length] in *. rewrite IH. reflexivity.
Qed.

Lemma lin_samples_length (a step : R) (n : nat) :
  length (lin_samples a step n) = n.
Proof. unfold lin_samples. rewrite length_map, length_seq. reflexivity. Qed.

Lemma lin_samples_nth (a step : R) (n i : nat) :
  (i < n)%nat ->
  nth_error (lin_samples a step n) i = Some (fin (a + INR i * step)).
Proof.
  intros Hi. unfold lin_samples.
  apply (nth_error_map_seq (fun j => fin (a + INR j * step))). exact Hi.
Qed.

Lemma lin_samples_S (a step : R) (n : nat) :
  lin_samples a step (S n) =
  lin_samples a step n ++ [fin (a + INR n * step)].
Proof. unfold lin_samples. rewrite seq_S, map_app. reflexivity. Qed.

(** The outcome of [np.linspace] on finite ends. *)
Lemma linspace_fin (a b : R) (num : Z) :
  (2 <= num)%Z ->
  linspace (fin a) (fin b) num =
  Ret (lin_samples a ((b - a) / (IZR num - 1)) (Z.to_nat num)).
Proof.
  intros Hn. unfold linspace.
  destruct (num <? 0)%Z eqn:E0; [apply Z.ltb_lt in E0; lia |].
  destruct (0 <? num - 1)%Z eqn:E1; [| apply Z.ltb_ge in E1; lia].
  destruct (1 <? num)%Z eqn:E2; [| apply Z.ltb_ge in E2; lia].
  f_equal.
  assert (Hd : IZR (num - 1) = IZR num - 1) by (rewrite minus_IZR; reflexivity).
  assert (Hpos : 0 < IZR num - 1).
  { rewrite <- Hd. apply IZR_lt. lia. }
  rewrite fsub_fin, fdiv_fin by (rewrite Hd; lra).
  rewrite Hd. set (step := (b - a) / (IZR num - 1)).
  assert (Hy : sc_add (fin a) (sc_mul (fin step) (arange (Z.to_nat num))) =
               lin_samples a step (Z.to_nat num)).
  { unfold sc_add, sc_mul, arange, lin_samples. rewrite !map_map.
    apply map_ext. intros i. cbn. unfold fin. f_equal. ring. }
  rewrite Hy.
  destruct (Z.to_nat num) as [| m] eqn:Em; [lia |].
  rewrite lin_samples_S, set_last_snoc. do 2 f_equal.
  unfold fin. f_equal.
  assert (HINR : INR m = IZR num - 1).
  { rewrite INR_IZR_INZ, <- Hd. f_equal. lia. }
  rewrite HINR. unfold step. field. lra.
Qed.

Lemma linspace_length (a b : fl) (num : Z) :
  (0 <= num)%Z ->
  exists g : array, linspace a b num = Ret g /\ length g = Z.to_nat num.
Proof.
  intros Hn. unfold linspace.
  destruct (num <? 0)%Z eqn:E0; [apply Z.ltb_lt in E0; lia |].
  eexists. split; [reflexivity |].
  assert (Hlen : forall k0 : fl,
             length (sc_add a (sc_mul k0 (arange (Z.to_nat num))))
             = Z.to_nat num).
  { intros k0. unfold sc_add, sc_mul, arange.
    rewrite !length_map, length_seq. reflexivity. }
  destruct (0 <? num - 1)%Z, (1 <? num)%Z;
    rewrite ?set_last_length; apply Hlen.
Qed.

Lemma logspace_length (a b : fl) (num : Z) :
  (0 <= num)%Z ->
  exists g : array, logspace a b num = Ret g /\ length g = Z.to_nat num.
Proof.
  intros Hn. unfold logspace.
  destruct (linspace_length a b num Hn) as (g & Hg & Hlen).
  rewrite Hg. cbn [obind]. eexists. split; [reflexivity |].
  rewrite length_map. exact Hlen.
Qed.

Lemma linspace_one (a b : R) : linspace (fin a) (fin b) 1 = Ret [fin a].
Proof.
  unfold linspace. cbn.
  change (Pos.to_nat 1) with 1%nat. cbn.
  do 2 f_equal. unfold fin. f_equal. ring.
Qed.

Lemma lin_samples_hd (a step : R) (n : nat) :
  (0 < n)%nat -> hd_error (lin_samples a step n) = Some (fin a).
Proof.
  intros Hn. rewrite <- nth_error_0, lin_samples_nth by exact Hn.
  do 2 f_equal. simpl. ring.
Qed.

Lemma linear_grid_intro (a b : R) (num : Z) :
  (2 <= num)%Z ->
  linear_grid a b num (lin_samples a ((b - a) / (IZR num - 1)) (Z.to_nat num)).
Proof.
  intros Hn. unfold linear_grid.
  rewrite lin_samples_length.
  assert (Hpos : 0 < IZR num - 1).
  { assert (IZR 2 <= IZR num) by (apply IZR_le; exact Hn). lra. }
  repeat split.
  - exact Hn.
  - apply lin_samples_hd. lia.
  - destruct (Z.to_nat num) as [| m] eqn:Em; [lia |].
    rewrite lin_samples_S, last_last. unfold fin. f_equal.
    assert (HINR : INR m = IZR num - 1).
    { rewrite INR_IZR_INZ. replace (Z.of_nat m) with (num - 1)%Z by lia.
      rewrite minus_IZR. reflexivity. }
    rewrite HINR. field. lra.
  - intros i Hi. apply lin_samples_nth. exact Hi.
Qed.

Lemma ln_10_pos : 0 < ln 10.
Proof. rewrite <- ln_1. apply ln_increasing; lra. Qed.

Lemma Rpower_10_log10R (x : R) : 0 < x -> Rpower 10 (log10R x) = x.
Proof.
  intros Hx. unfold Rpower, log10R.
  replace (ln x / ln 10 * ln 10) with (ln x)
    by (field; pose proof ln_10_pos; lra).
  apply exp_ln. exact Hx.
Qed.

Lemma log10R_lt (x y : R) : 0 < x -> x < y -> log10R x < log10R y.
Proof.
  intros Hx Hxy. unfold log10R.
  apply Rmult_lt_compat_r.
  - apply Rinv_0_lt_compat. exact ln_10_pos.
  - apply ln_increasing; assumption.
Qed.

Lemma log_samples_length (a step : R) (n : nat) :
  length (log_samples a step n) = n.
Proof. unfold log_samples. rewrite length_map, length_seq. reflexivity. Qed.

Lemma log_samples_nth (a step : R) (n i : nat) :
  (i < n)%nat ->
  nth_error (log_samples a step n) i =
  Some (fin (Rpower 10 (a + INR i * step))).
Proof.
  intros Hi. unfold log_samples.
  apply (nth_error_map_seq (fun j => fin (Rpower 10 (a + INR j * step)))).
  exact Hi.
Qed.

Lemma log_samples_lin (a step : R) (n : nat) :
  map fexp10 (lin_samples a step n) = log_samples a step n.
Proof. unfold lin_samples, log_samples. rewrite map_map. reflexivity. Qed.

Lemma logspace_fin (a b : R) (num : Z) :
  (2 <= num)%Z ->
  logspace (fin a) (fin b) num =
  Ret (log_samples a ((b - a) / (IZR num - 1)) (Z.to_nat num)).
Proof.
  intros Hn. unfold logspace. rewrite linspace_fin by exact Hn.
  cbn [obind]. rewrite log_samples_lin. reflexivity.
Qed.

Lemma log_grid_intro (a b : R) (num : Z) :
  0 < a -> a < b -> (2 <= num)%Z ->
  log_grid a b num
    (log_samples (log10R a) ((log10R b - log10R a) / (IZR num - 1))
                 (Z.to_nat num)).
Proof.
  intros Ha Hab Hn. unfold log_grid.
  rewrite log_samples_length.
  assert (Hpos : 0 < IZR num - 1).
  { assert (IZR 2 <= IZR num) by (apply IZR_le; exact Hn). lra. }
  pose proof (log10R_lt a b Ha Hab) as Hlog.
  set (step := (log10R b - log10R a) / (IZR num - 1)).
  assert (Hstep : 0 < step).
  { unfold step. apply Rdiv_lt_0_compat; lra. }
  split; [exact Hn |]. split; [reflexivity |]. split; [| split; [| split]].
  - rewrite <- nth_error_0, log_samples_nth by lia.
    do 2 f_equal. simpl. rewrite Rmult_0_l, Rplus_0_r.
    apply Rpower_10_log10R. exact Ha.
  - destruct (Z.to_nat num) as [| m] eqn:Em; [lia |].
    unfold log_samples. rewrite seq_S, map_app. cbn [map].
    rewrite last_last. unfold fin. f_equal. cbn [Nat.add].
    assert (HINR : INR m = IZR num - 1).
    { rewrite INR_IZR_INZ. replace (Z.of_nat m) with (num - 1)%Z by lia.
      rewrite minus_IZR. reflexivity. }
    rewrite HINR.
    replace (log10R a + (IZR num - 1) * step) with (log10R b)
      by (unfold step; field; lra).
    apply Rpower_10_log10R. lra.
  - intros i Hi. apply log_samples_nth. exact Hi.
  - intros i x y Hx Hy.
    assert (Hi : (S i < Z.to_nat num)%nat).
    { rewrite <- (log_samples_length (log10R a) step (Z.to_nat num)).
      apply nth_error_Some. rewrite Hy. discriminate. }
    rewrite log_samples_nth in Hx by lia.
    rewrite log_samples_nth in Hy by lia.
    injection Hx as <-. injection Hy as <-.
    apply Rpower_lt; [lra |].
    change (log10R a + INR i * step < log10R a + INR (S i) * step).
    rewrite S_INR. nra.
Qed.


(** ** The setters and the constructor *)

Section Setters.
Variable k : Const.t.

Lemma set_mu_run (self : Absorption) (size : Z) (g : array) :
  linspace (fin (-1)) (fin 1) size = Ret g ->
  set_mu size self =
  (Ret tt, {| blob := blob self; target_ := target_ self; r := r self;
              mu_size := size; mu := g;
              phi_size := phi_size self; phi := phi self;
              l_size := l_size self; l := l self |}).
Proof.
  intros Hg. unfold set_mu, mbind, set_attr_mu_size, getself, call, set_attr_mu.
  cbn [mu_size]. rewrite Hg. reflexivity.
Qed.

Lemma set_phi_run (self : Absorption) (size : Z) (g : array) :
  linspace (fin 0) (fin (2 * PI)) size = Ret g ->
  set_phi size self =
  (Ret tt, {| blob := blob self; target_ := target_ self; r := r self;
              mu_size := mu_size self; mu := mu self;
              phi_size := size; phi := g;
              l_size := l_size self; l := l self |}).
Proof.
  intros Hg.
  unfold set_phi, mbind, set_attr_phi_size, getself, call, set_attr_phi.
  cbn [phi_size]. change (fin 2 * fin PI)%fl with (fin (2 * PI)).
  rewrite Hg. reflexivity.
Qed.

Lemma set_l_run (self : Absorption) (size : Z) (g : array) :
  logspace (flog10 (fin (r self))) (flog10 (fin (3000 * Const.pc k))) size
  = Ret g ->
  set_l k size self =
  (Ret tt, {| blob := blob self; target_ := target_ self; r := r self;
              mu_size := mu_size self; mu := mu self;
              phi_size := phi_size self; phi := phi self;
              l_size := size; l := g |}).
Proof.
  intros Hg.
  unfold set_l, mbind, set_attr_l_size, getself, call, set_attr_l.
  cbn [l_size r]. rewrite Hg. reflexivity.
Qed.

Lemma set_l_logspace (r0 : R) (size : Z) :
  0 < Const.pc k -> 0 < r0 -> (2 <= size)%Z ->
  logspace (flog10 (fin r0)) (flog10 (fin (3000 * Const.pc k))) size =
  Ret (log_samples (log10R r0)
         ((log10R (3000 * Const.pc k) - log10R r0) / (IZR size - 1))
         (Z.to_nat size)).
Proof.
  intros Hpc Hr Hn.
  rewrite !flog10_fin by lra.
  apply logspace_fin. exact Hn.
Qed.

Lemma Absorption_new_run (blob0 : Blob.t) (target0 : target) (r0 : R) :
  0 < Const.pc k -> 0 < r0 ->
  Absorption_new k blob0 target0 r0 = Ret (constructed k blob0 target0 r0).
Proof.
  intros Hpc Hr. unfold Absorption_new, init, mbind.
  rewrite (set_mu_run _ 100 _ (linspace_fin (-1) 1 100 ltac:(lia))).
  rewrite (set_phi_run _ 50 _ (linspace_fin 0 (2 * PI) 50 ltac:(lia))).
  erewrite set_l_run; [reflexivity |].
  cbn [r fresh]. apply set_l_logspace; [exact Hpc | exact Hr | lia].
Qed.

(** Whatever the distance, the constructor returns an object with ten
    path-length samples. *)
Lemma Absorption_new_returns (blob0 : Blob.t) (target0 : target) (r0 : R) :
  exists self : Absorption,
    Absorption_new k blob0 target0 r0 = Ret self /\
    target_ self = target0 /\ length (l self) = 10%nat.
Proof.
  destruct (logspace_length (flog10 (fin r0))
              (flog10 (fin (3000 * Const.pc k))) 10 ltac:(lia))
    as (g & Hg & Hlen).
  eexists. unfold Absorption_new, init, mbind.
  rewrite (set_mu_run _ 100 _ (linspace_fin (-1) 1 100 ltac:(lia))).
  rewrite (set_phi_run _ 50 _ (linspace_fin 0 (2 * PI) 50 ltac:(lia))).
  erewrite set_l_run; [| cbn [r fresh]; exact Hg].
  split; [reflexivity |]. split; [reflexivity |].
  cbn [l]. exact Hlen.
Qed.

Lemma constructed_invariant (blob0 : Blob.t) (target0 : target) (r0 : R) :
  0 < r0 < 3000 * Const.pc k ->
  grid_invariant k (constructed k blob0 target0 r0).
Proof.
  intros [Hr0 Hr1]. unfold grid_invariant, constructed. cbn [mu phi l mu_size phi_size l_size r].
  split; [| split].
  - apply linear_grid_intro. lia.
  - apply linear_grid_intro. lia.
  - apply log_grid_intro; [exact Hr0 | exact Hr1 | lia].
Qed.

End Setters.

Lemma cgs_positive : positive_constants cgs.
Proof. unfold positive_constants. project. repeat split; lra. Qed.

Lemma r_ex_in_range : 0 < r_ex < 3000 * Const.pc cgs.
Proof. project. split; lra. Qed.




(** C10.  Whatever its argument and whether or not it raises, each
    setter leaves the two other grids and their sizes, the blob, the
    target and the distance of the object as they were. *)
Theorem setters_frame (k : Const.t) (self : Absorption) (size : Z) :
  (let self' := snd (set_mu size self) in
   phi self' = phi self /\ phi_size self' = phi_size self /\
   l self' = l self /\ l_size self' = l_size self /\
   blob self' = blob self /\ target_ self' = target_ self /\
   r self' = r self) /\
  (let self' := snd (set_phi size self) in
   mu self' = mu self /\ mu_size self' = mu_size self /\
   l self' = l self /\ l_size self' = l_size self /\
   blob self' = blob self /\ target_ self' = target_ self /\
   r self' = r self) /\
  (let self' := snd (set_l k size self) in
   mu self' = mu self /\ mu_size self' = mu_size self /\
   phi self' = phi self /\ phi_size self' = phi_size self /\
   blob self' = blob self /\ target_ self' = target_ self /\
   r self' = r self).
Proof.
  split; [| split].
  - unfold set_mu, mbind, set_attr_mu_size, getself, call, set_attr_mu.
    cbn [mu_size]. destruct (linspace _ _ size); cbn; repeat split.
  - unfold set_phi, mbind, set_attr_phi_size, getself, call, set_attr_phi.
    cbn [phi_size]. destruct (linspace _ _ size); cbn; repeat split.
  - unfold set_l, mbind, set_attr_l_size, getself, call, set_attr_l.
    cbn [l_size r]. destruct (logspace _ _ size); cbn; repeat split.
Qed.

(** ** The dispatcher on a target of another class *)

(** C2, as the code has it.  On a target that is none of the three
    supported classes [tau] raises nothing: it returns Python's [None],
    that is, no array at all. *)
Theorem tau_unsupported_target_returns_None
    (k : Const.t) (uninit : nat -> nat -> fl) (self : Absorption)
    (nu : array) :
  target_ self = OtherTarget ->
  tau k uninit self nu = Ret PyNone.
Proof. intros Ht. unfold tau. rewrite Ht. reflexivity. Qed.

Lemma tau_unsupported_target_returns_None_witness :
  tau cgs (fun _ _ => fin 0) (constructed cgs blob_ex OtherTarget r_ex)
      [fin 1e26] = Ret PyNone.
Proof.
  apply (tau_unsupported_target_returns_None cgs (fun _ _ => fin 0)
           (constructed cgs blob_ex OtherTarget r_ex) [fin 1e26]).
  reflexivity.
Defined.

(** C2 as stated fails: on the object built for a target of another
    class, [tau] at 1e26 Hz raises no exception. *)
Lemma tau_unsupported_target_does_not_raise :
  Absorption_new cgs blob_ex OtherTarget r_ex =
    Ret (constructed cgs blob_ex OtherTarget r_ex) /\
  forall e : exn,
    tau cgs (fun _ _ => fin 0) (constructed cgs blob_ex OtherTarget r_ex)
        [fin 1e26] <> Raise e.
Proof.
  split.
  - apply Absorption_new_run; [project; lra | project; lra].
  - intros e. unfold tau. cbn [target_ constructed]. discriminate.
Qed.





(** ** The scattering-angle cosine *)

Lemma cos_psi_fin (a b p : R) :
  -1 <= a <= 1 -> -1 <= b <= 1 ->
  cos_psi (fin a) (fin b) (fin p) =
  fin (a * b + sqrt (1 - a ^ 2) * sqrt (1 - b ^ 2) * cos p).
Proof.
  intros Ha Hb. unfold cos_psi.
  rewrite !fpow_nat by lia. change (Z.to_nat 2) with 2%nat.
  rewrite !fsub_fin.
  rewrite !fsqrt_fin by (simpl; nra).
  reflexivity.
Qed.

Lemma cos_psi_aligned_left (m p : R) :
  -1 <= m <= 1 -> cos_psi (fin 1) (fin m) (fin p) = fin m.
Proof.
  intros Hm. rewrite cos_psi_fin by lra.
  unfold fin. f_equal.
  replace (1 - 1 ^ 2) with 0 by ring. rewrite sqrt_0. ring.
Qed.

Lemma cos_psi_aligned_right (m p : R) :
  -1 <= m <= 1 -> cos_psi (fin m) (fin 1) (fin p) = fin m.
Proof.
  intros Hm. rewrite cos_psi_fin by lra.
  unfold fin. f_equal.
  replace (1 - 1 ^ 2) with 0 by ring. rewrite sqrt_0. ring.
Qed.

(** C8, as the law of cosines has it.  With one of the two cosines equal
    to 1 the helper returns exactly the other cosine, whatever the
    azimuth; it returns exactly 1 when both cosines are 1. *)
Theorem cos_psi_aligned (m p : R) :
  -1 <= m <= 1 ->
  cos_psi (fin 1) (fin m) (fin p) = fin m /\
  cos_psi (fin m) (fin 1) (fin p) = fin m /\
  cos_psi (fin 1) (fin 1) (fin p) = fin 1.
Proof.
  intros Hm. split; [| split].
  - apply cos_psi_aligned_left. exact Hm.
  - apply cos_psi_aligned_right. exact Hm.
  - apply cos_psi_aligned_left. lra.
Qed.

Lemma cos_psi_aligned_witness :
  cos_psi (fin 1) (fin (1 / 2)) (fin PI) = fin (1 / 2).
Proof.
  apply (cos_psi_aligned (1 / 2) PI). lra.
Defined.

(** C8 as stated fails: with the first cosine equal to 1, the other
    equal to 0 and the azimuth 0, the helper returns 0, not 1; and so it
    does with the two cosines exchanged. *)
Lemma cos_psi_aligned_is_not_1 :
  cos_psi (fin 1) (fin 0) (fin 0) = fin 0 /\
  cos_psi (fin 0) (fin 1) (fin 0) = fin 0 /\
  cos_psi (fin 1) (fin 0) (fin 0) <> fin 1 /\
  cos_psi (fin 0) (fin 1) (fin 0) <> fin 1.
Proof.
  assert (H0 : -1 <= 0 <= 1) by lra.
  rewrite (cos_psi_aligned_left 0 0 H0), (cos_psi_aligned_right 0 0 H0).
  repeat split; unfold fin; intros E; injection E as E; lra.
Qed.

(** ** The loops of the disk integrator *)

Lemma np_empty_length (junk : nat -> fl) (n : nat) :
  length (np_empty junk n) = n.
Proof. unfold np_empty. rewrite length_map, length_seq. reflexivity. Qed.

Lemma setitem_in_range (a : array) (i : nat) (v : fl) :
  (i < length a)%nat ->
  exists a' : array, setitem a i v = Ret a' /\ length a' = length a.
Proof.
  revert i. induction a as [| x a IH]; intros i Hi; [simpl in Hi; lia |].
  destruct i as [| i].
  - exists (v :: a). split; reflexivity.
  - destruct (IH i) as [a' [Ha' Hlen]]; [simpl in Hi; lia |].
    exists (x :: a'). cbn [setitem]. rewrite Ha'.
    split; [reflexivity | cbn [length]; rewrite Hlen; reflexivity].
Qed.

Lemma setitem_out_of_range (a : array) (i : nat) (v : fl) :
  (length a <= i)%nat -> setitem a i v = Raise IndexError.
Proof.
  revert i. induction a as [| x a IH]; intros i Hi; [reflexivity |].
  destruct i as [| i]; [simpl in Hi; lia |].
  cbn [setitem]. rewrite IH by (simpl in Hi; lia). reflexivity.
Qed.

(** The inner loop writes cell [i] at every pass: with [i] in range it
    ends normally, the array keeps its length and [j] is the index of
    the last path length. *)
Lemma inner_loop_in_range (f : fl -> fl) (i : nat) (ls : array) :
  forall (n0 : nat) (a : array) (j0 : option nat),
    (i < length a)%nat ->
    exists a' : array,
      for_each (enumerate_from n0 ls)
        (fun '(j, _l) '(integrand_l, _) =>
           (integrand_l <- setitem integrand_l i (f _l) ;;
            Ret (integrand_l, Some j))%py)
        (a, j0)
      = Ret (a', match ls with
                 | [] => j0
                 | _ :: _ => Some (n0 + length ls - 1)%nat
                 end) /\
      length a' = length a.
Proof.
  induction ls as [| x ls IH]; intros n0 a j0 Hi.
  - exists a. split; reflexivity.
  - cbn [enumerate_from for_each].
    destruct (setitem_in_range a i (f x) Hi) as [a1 [Ha1 Hlen1]].
    rewrite Ha1. cbn [obind].
    destruct (IH (S n0) a1 (Some n0)) as [a' [Ha' Hlen']]; [lia |].
    exists a'. rewrite Ha'. split; [| lia].
    f_equal. f_equal. destruct ls as [| y ls]; cbn [length]; f_equal; lia.
Qed.

Section DiskClaims.
Variable k : Const.t.
Variable uninit : nat -> nat -> fl.

(** With one frequency and at least two path lengths the first pass of
    the outer loop ends on [integral[j]] with [j] past the end of
    [integral]. *)
Lemma opacity_disk_one_frequency (self : Absorption) (d : SSDisk.t) (nu0 : fl) :
  (2 <= length (l self))%nat ->
  _opacity_disk k uninit self d [nu0] = Raise IndexError.
Proof.
  intros Hl. unfold _opacity_disk, epsilon_1_of.
  cbn [map length enumerate enumerate_from for_each].
  destruct (inner_loop_in_range
              (disk_integral_phi k self d
                 (fin (Const.h k) * nu0 / fin (mec2 k)
                  * (fin 1 + fin (Blob.z (blob self))))%fl)
              0 (l self) 0 (np_empty (uninit 1) (length (l self))) None)
    as [a' [Ha' Hlen']].
  { rewrite np_empty_length. lia. }
  unfold enumerate. rewrite Ha'. cbn [obind].
  destruct (l self) as [| x ls] eqn:El; [simpl in Hl; lia |].
  rewrite setitem_out_of_range; [reflexivity |].
  rewrite np_empty_length. cbn [length] in *. lia.
Qed.

(** C1, what the code does instead.  The constructor returns an
    object with the default grids (ten path lengths), and on it, with a
    disk target, [tau] at any one-frequency array raises IndexError: the
    result of the path-length integration of the first frequency is
    stored at [integral[j]], with [j = 9] left by the inner loop, in an
    array of one cell. *)
Theorem tau_disk_one_frequency_raises
    (blob0 : Blob.t) (d : SSDisk.t) (r0 : R) (nu0 : fl) :
  exists self : Absorption,
    Absorption_new k blob0 (IsSSDisk d) r0 = Ret self /\
    tau k uninit self [nu0] = Raise IndexError.
Proof.
  destruct (Absorption_new_returns k blob0 (IsSSDisk d) r0)
    as (self & Hnew & Ht & Hlen).
  exists self. split; [exact Hnew |].
  unfold tau. rewrite Ht.
  rewrite opacity_disk_one_frequency; [reflexivity |].
  rewrite Hlen. lia.
Qed.

End DiskClaims.

(** With as many frequencies as path lengths (two of each here) the call
    returns, but only the last cell of [integral] is ever written: the
    first element of the result is the prefactor times what [np.empty]
    left there, and the last one integrates an [integrand_l] whose first
    cell was never written either. *)
Lemma opacity_disk_two_by_two
    (k : Const.t) (uninit : nat -> nat -> fl)
    (self : Absorption) (d : SSDisk.t) (nu0 nu1 l0 l1 : fl) :
  l self = [l0; l1] ->
  let e1 := (fin (Const.h k) * nu1 / fin (mec2 k)
             * (fin 1 + fin (Blob.z (blob self))))%fl in
  let prefactor :=
    (fin 3 * fin (SSDisk.L_disk d) * fin (SSDisk.R_g d)
     / (fin 16 * fin PI * fin (SSDisk.eta d) * fin (Const.m_e k)
        * fpow (fin (Const.c k)) 3))%fl in
  _opacity_disk k uninit self d [nu0; nu1] =
  Ret [ (prefactor * uninit 0%nat 0%nat)%fl;
        (prefactor
         * trapz [uninit 2%nat 0%nat; disk_integral_phi k self d e1 l1]
                 [l0; l1])%fl ].
Proof.
  intros Hl e1 prefactor. unfold _opacity_disk, epsilon_1_of.
  rewrite Hl. reflexivity.
Qed.

(** ** The trapezoidal rule *)

Lemma trapz_cons2 (y0 y1 x0 x1 : fl) (ys xs : array) :
  trapz (y0 :: y1 :: ys) (x0 :: x1 :: xs) =
  ((x1 - x0) * (y1 + y0) / 2 + trapz (y1 :: ys) (x1 :: xs))%fl.
Proof. reflexivity. Qed.

Lemma trapz_one (y0 x0 : fl) : trapz [y0] [x0] = fin 0.
Proof. reflexivity. Qed.

Lemma trapz_nil : trapz [] [] = fin 0.
Proof. reflexivity. Qed.

Lemma half_fin (t : R) : (fin t / fin 2)%fl = fin (t / 2).
Proof. apply fdiv_fin. lra. Qed.

Lemma trapz_map_nonneg (f : fl -> fl) (x : array) :
  fin_increasing x ->
  (forall a : fl, In a x -> fin_nonneg (f a)) ->
  fin_nonneg (trapz (map f x) x).
Proof.
  induction x as [| x0 x IH]; intros Hinc Hf.
  - cbn [map]. rewrite trapz_nil. apply fin_nonneg_intro. lra.
  - destruct x as [| x1 x].
    + cbn [map]. rewrite trapz_one. apply fin_nonneg_intro. lra.
    + cbn [map] in *. rewrite trapz_cons2.
      destruct Hinc as [(u & v & -> & -> & Huv) Hinc].
      destruct (Hf (fin u)) as (y0 & Hy0 & Hy0pos); [left; reflexivity |].
      destruct (Hf (fin v)) as (y1 & Hy1 & Hy1pos);
        [right; left; reflexivity |].
      destruct IH as (t & Ht & Htpos); [exact Hinc | |].
      { intros a Ha. apply Hf. right. exact Ha. }
      rewrite Ht, Hy0, Hy1.
      change (Some y1) with (fin y1). change (Some y0) with (fin y0).
      change (Some t) with (fin t).
      rewrite fsub_fin, fadd_fin, fmul_fin, half_fin, fadd_fin.
      apply fin_nonneg_intro.
      assert (0 <= (v - u) * (y1 + y0)) by (apply Rmult_le_pos; lra).
      lra.
Qed.

Lemma trapz_map_zero (f : fl -> fl) (x : array) :
  fin_increasing x ->
  (forall a : fl, In a x -> f a = fin 0) ->
  trapz (map f x) x = fin 0.
Proof.
  induction x as [| x0 x IH]; intros Hinc Hf; [reflexivity |].
  destruct x as [| x1 x]; [reflexivity |].
  cbn [map] in *. rewrite trapz_cons2.
  destruct Hinc as [(u & v & -> & -> & Huv) Hinc].
  rewrite IH; [| exact Hinc | intros a Ha; apply Hf; right; exact Ha].
  rewrite (Hf (fin u)) by (left; reflexivity).
  rewrite (Hf (fin v)) by (right; left; reflexivity).
  rewrite fsub_fin, fadd_fin, fmul_fin, half_fin, fadd_fin.
  unfold fin. f_equal. field.
Qed.

Lemma trapz_map_nan (f : fl -> fl) (x : array) :
  (2 <= length x)%nat ->
  (exists a : fl, In a x /\ f a = None) ->
  trapz (map f x) x = None.
Proof.
  induction x as [| x0 x IH]; intros Hlen (a & Ha & Hfa);
    [simpl in Hlen; lia |].
  destruct x as [| x1 x]; [simpl in Hlen; lia |].
  cbn [map]. rewrite trapz_cons2.
  destruct Ha as [<- | Ha].
  - rewrite Hfa. rewrite fadd_None_r, fmul_None_r. reflexivity.
  - destruct x as [| x2 x].
    + destruct Ha as [<- | []]. rewrite Hfa.
      destruct (f x0), (x1 - x0)%fl; reflexivity.
    + change (f x1 :: map f (x2 :: x)) with (map f (x1 :: x2 :: x)).
      rewrite IH; [apply fadd_None_r | simpl; lia |].
      exists a. split; assumption.
Qed.

(** ** What the grid invariant gives the integrators *)

Lemma fin_increasing_of_nth (g : array) :
  (forall i : nat, (i < length g)%nat ->
     exists x : R, nth_error g i = Some (fin x)) ->
  (forall (i : nat) (x y : R),
     nth_error g i = Some (fin x) -> nth_error g (S i) = Some (fin y) ->
     x <= y) ->
  fin_increasing g.
Proof.
  induction g as [| a g IH]; intros Hfin Hle; [exact I |].
  destruct g as [| b g]; [exact I |].
  cbn [fin_increasing]. split.
  - destruct (Hfin 0%nat) as [u Hu]; [simpl; lia |].
    destruct (Hfin 1%nat) as [v Hv]; [simpl; lia |].
    cbn in Hu, Hv. injection Hu as ->. injection Hv as ->.
    exists u, v. repeat split. apply (Hle 0%nat); reflexivity.
  - apply IH.
    + intros i Hi. apply (Hfin (S i)). simpl in *. lia.
    + intros i x y Hx Hy. apply (Hle (S i)); assumption.
Qed.

Lemma INR_below (i : nat) (n : Z) :
  (i < Z.to_nat n)%nat -> 0 <= INR i <= IZR n - 1.
Proof.
  intros Hi. split; [apply pos_INR |].
  rewrite INR_IZR_INZ, <- minus_IZR. apply IZR_le. lia.
Qed.

Lemma linear_grid_facts (a b : R) (n : Z) (g : array) :
  a <= b -> linear_grid a b n g ->
  fin_increasing g /\
  forall x : fl, In x g -> exists m : R, x = fin m /\ a <= m <= b.
Proof.
  intros Hab (Hn & Hlen & _ & _ & Hnth).
  assert (Hpos : 0 < IZR n - 1).
  { assert (IZR 2 <= IZR n) by (apply IZR_le; exact Hn). lra. }
  assert (Hstep : 0 <= (b - a) / (IZR n - 1)).
  { apply Rmult_le_pos; [lra |]. left. apply Rinv_0_lt_compat. exact Hpos. }
  split.
  - apply fin_increasing_of_nth.
    + intros i Hi. eexists. apply Hnth. exact Hi.
    + intros i x y Hx Hy.
      assert (Hi : (S i < length g)%nat).
      { apply nth_error_Some. rewrite Hy. discriminate. }
      rewrite Hnth in Hx by lia. rewrite Hnth in Hy by lia.
      injection Hx as <-. injection Hy as <-.
      pose proof (S_INR i) as HS.
      change (a + INR i * ((b - a) / (IZR n - 1))
              <= a + INR (S i) * ((b - a) / (IZR n - 1))).
      rewrite HS. nra.
  - intros x Hx. apply In_nth_error in Hx. destruct Hx as [i Hi].
    assert (Hlt : (i < length g)%nat).
    { apply nth_error_Some. rewrite Hi. discriminate. }
    rewrite Hnth in Hi by exact Hlt. injection Hi as <-.
    eexists. split; [reflexivity |].
    rewrite Hlen in Hlt. pose proof (INR_below i n Hlt) as [Hi0 Hi1].
    set (step := (b - a) / (IZR n - 1)) in *.
    assert (Hfull : (IZR n - 1) * step = b - a).
    { unfold step. field. lra. }
    split; [nra |].
    assert (INR i * step <= (IZR n - 1) * step)
      by (apply Rmult_le_compat_r; lra).
    lra.
Qed.

Lemma log_grid_facts (a b : R) (n : Z) (g : array) :
  log_grid a b n g ->
  fin_increasing g /\
  forall x : fl, In x g -> exists lv : R, x = fin lv /\ 0 < lv.
Proof.
  intros (Hn & Hlen & _ & _ & Hnth & Hlt). split.
  - apply fin_increasing_of_nth.
    + intros i Hi. eexists. apply Hnth. exact Hi.
    + intros i x y Hx Hy. left. apply (Hlt i); assumption.
  - intros x Hx. apply In_nth_error in Hx. destruct Hx as [i Hi].
    assert (Hi' : (i < length g)%nat).
    { apply nth_error_Some. rewrite Hi. discriminate. }
    rewrite Hnth in Hi by exact Hi'. injection Hi as <-.
    eexists. split; [reflexivity |].
    unfold Rpower. apply exp_pos.
Qed.

Lemma two_pi_nonneg : 0 <= 2 * PI.
Proof. pose proof PI_RGT_0. lra. Qed.

(** ** The integrand at one grid point *)

Lemma sqr_diff_nonneg (x y : R) : 0 <= x * x - 2 * (x * y) + y * y.
Proof.
  replace (x * x - 2 * (x * y) + y * y) with (Rsqr (x - y))
    by (unfold Rsqr; ring).
  apply Rle_0_sqr.
Qed.

Lemma sqr_sum_nonneg (x y : R) : 0 <= x * x + 2 * (x * y) + y * y.
Proof.
  replace (x * x + 2 * (x * y) + y * y) with (Rsqr (x + y))
    by (unfold Rsqr; ring).
  apply Rle_0_sqr.
Qed.

Lemma law_of_cosines_bounds (a b p : R) :
  -1 <= a <= 1 -> -1 <= b <= 1 ->
  -1 <= a * b + sqrt (1 - a ^ 2) * sqrt (1 - b ^ 2) * cos p <= 1.
Proof.
  intros Ha Hb.
  assert (Haa : a * a <= 1) by nra.
  assert (Hbb : b * b <= 1) by nra.
  assert (Ha2 : 0 <= 1 - a ^ 2) by (simpl; lra).
  assert (Hb2 : 0 <= 1 - b ^ 2) by (simpl; lra).
  pose proof (sqrt_pos (1 - a ^ 2)) as Hu.
  pose proof (sqrt_pos (1 - b ^ 2)) as Hw.
  pose proof (sqrt_def _ Ha2) as Hu2.
  pose proof (sqrt_def _ Hb2) as Hw2.
  pose proof (COS_bound p) as [Hc0 Hc1].
  set (u := sqrt (1 - a ^ 2)) in *. set (w := sqrt (1 - b ^ 2)) in *.
  set (t := cos p) in *.
  simpl in Hu2, Hw2. rewrite Rmult_1_r in Hu2, Hw2.
  assert (Huw : 0 <= u * w) by (apply Rmult_le_pos; assumption).
  pose proof (sqr_diff_nonneg a b) as H1.
  pose proof (sqr_diff_nonneg u w) as H2.
  pose proof (sqr_sum_nonneg a b) as H3.
  assert (Hs1 : a * b + u * w <= 1) by lra.
  assert (Hs2 : -1 <= a * b - u * w) by lra.
  assert (Ht1 : u * w * t <= u * w).
  { rewrite <- (Rmult_1_r (u * w)) at 2.
    apply Rmult_le_compat_l; assumption. }
  assert (Ht2 : - (u * w) <= u * w * t).
  { replace (- (u * w)) with (u * w * -1) by ring.
    apply Rmult_le_compat_l; assumption. }
  lra.
Qed.

Section Kernel.
Variable k : Const.t.
Hypothesis sigma_T_pos : 0 < Const.sigma_T k.

(** The factor common to the shell and ring integrands, at a finite
    cosine [c] and a non-zero distance [x]. *)
Lemma kernel_fin_nonneg (c x e eps : R) :
  -1 <= c <= 1 -> x <> 0 ->
  fin_nonneg ((fin 1 - fin c) * fpow (fin x) (-2)
              * sigma_elt k (fin e * fin eps * (fin 1 - fin c) / fin 2))%fl.
Proof.
  intros Hc Hx.
  rewrite !fsub_fin, !fmul_fin, half_fin.
  rewrite fpow_neg by (lia || exact Hx).
  change (Z.to_nat (- -2)) with 2%nat.
  destruct (sigma_elt_fin_nonneg k (e * eps * (1 - c) / 2) sigma_T_pos)
    as (v & Hv & Hvpos).
  rewrite Hv. change (Some v) with (fin v). rewrite !fmul_fin.
  apply fin_nonneg_intro.
  assert (0 < / x ^ 2).
  { apply Rinv_0_lt_compat. simpl. rewrite Rmult_1_r.
    destruct (Rlt_dec x 0); nra. }
  apply Rmult_le_pos; [| exact Hvpos].
  apply Rmult_le_pos; lra.
Qed.

Lemma kernel_below_threshold (c x e eps : R) :
  -1 <= c <= 1 -> x <> 0 -> 0 <= e * eps < 1 ->
  ((fin 1 - fin c) * fpow (fin x) (-2)
   * sigma_elt k (fin e * fin eps * (fin 1 - fin c) / fin 2))%fl = fin 0.
Proof.
  intros Hc Hx He.
  rewrite !fsub_fin, !fmul_fin, half_fin.
  rewrite fpow_neg by (lia || exact Hx).
  rewrite sigma_elt_below by nra.
  rewrite !fmul_fin. unfold fin. f_equal. ring.
Qed.

End Kernel.

(** The ring geometry at a finite path length. *)
Lemma ring_geometry (R_dt lv : R) :
  0 < R_dt ->
  exists x mu0 : R,
    x_re_ring (fin R_dt) (fin lv) = fin x /\ x <> 0 /\
    (fin lv / fin x)%fl = fin mu0 /\ -1 <= mu0 <= 1.
Proof.
  intros HR.
  assert (Hpos : 0 < R_dt ^ 2 + lv ^ 2) by (simpl; nra).
  exists (sqrt (R_dt ^ 2 + lv ^ 2)), (lv / sqrt (R_dt ^ 2 + lv ^ 2)).
  pose proof (sqrt_lt_R0 _ Hpos) as Hx.
  pose proof (sqrt_def (R_dt ^ 2 + lv ^ 2) (Rlt_le _ _ Hpos)) as Hx2.
  set (x := sqrt (R_dt ^ 2 + lv ^ 2)) in *.
  split; [| split; [lra | split]].
  - unfold x_re_ring. rewrite !fpow_nat by lia.
    change (Z.to_nat 2) with 2%nat. rewrite fadd_fin, fsqrt_fin by lra.
    reflexivity.
  - apply fdiv_fin. lra.
  - assert (Hl2 : lv * lv <= x * x) by (simpl in Hx2; nra).
    assert (Hix : 0 < / x) by (apply Rinv_0_lt_compat; exact Hx).
    assert (Hxi : x * / x = 1) by (apply Rinv_r; lra).
    unfold Rdiv. split.
    + assert (- x <= lv) by nra.
      assert (- x * / x <= lv * / x) by (apply Rmult_le_compat_r; lra).
      nra.
    + assert (lv <= x) by nra.
      assert (lv * / x <= x * / x) by (apply Rmult_le_compat_r; lra).
      nra.
Qed.

(** The shell geometry at a finite cosine and a finite positive path
    length off the shell. *)
Lemma shell_geometry (m R_line lv : R) :
  -1 <= m <= 1 -> 0 < R_line -> 0 < lv -> lv <> R_line ->
  exists x ms : R,
    x_re_shell (fin m) (fin R_line) (fin lv) = fin x /\ x <> 0 /\
    mu_star (fin m) (fin R_line) (fin lv) = fin ms /\ -1 <= ms <= 1.
Proof.
  intros Hm HR Hl Hne.
  set (q := R_line ^ 2 + lv ^ 2 - 2 * R_line * lv * m).
  assert (Hq : 0 < q).
  { unfold q. simpl.
    assert (0 < (R_line - lv) * (R_line - lv)).
    { destruct (Rlt_dec R_line lv); nra. }
    assert (0 <= R_line * lv) by nra.
    nra. }
  assert (Hxe : x_re_shell (fin m) (fin R_line) (fin lv) = fin (sqrt q)).
  { unfold x_re_shell. rewrite !fpow_nat by lia.
    change (Z.to_nat 2) with 2%nat.
    rewrite !fmul_fin, fadd_fin, fsub_fin. fold q.
    apply fsqrt_fin. lra. }
  pose proof (sqrt_lt_R0 _ Hq) as Hx.
  pose proof (sqrt_def q (Rlt_le _ _ Hq)) as Hx2.
  exists (sqrt q), ((lv - R_line * m) / sqrt q).
  set (x := sqrt q) in *.
  split; [exact Hxe | split; [lra | split]].
  - unfold mu_star. rewrite Hxe, fmul_fin, fsub_fin. apply fdiv_fin. lra.
  - set (n := lv - R_line * m).
    assert (Hn2 : n * n <= x * x).
    { rewrite Hx2. unfold n, q. simpl.
      assert (R_line * R_line * (m * m) <= R_line * R_line).
      { assert (m * m <= 1) by nra. nra. }
      nra. }
    assert (Hix : 0 < / x) by (apply Rinv_0_lt_compat; exact Hx).
    assert (Hxi : x * / x = 1) by (apply Rinv_r; lra).
    unfold Rdiv. split.
    + assert (- x <= n) by nra.
      assert (- x * / x <= n * / x) by (apply Rmult_le_compat_r; lra).
      nra.
    + assert (n <= x) by nra.
      assert (n * / x <= x * / x) by (apply Rmult_le_compat_r; lra).
      nra.
Qed.

(** ** The shell and ring integrators *)

Section Integrators.
Variable k : Const.t.
Hypothesis k_pos : positive_constants k.

Lemma mec2_pos : 0 < mec2 k.
Proof.
  destruct k_pos as (_ & Hc & Hm & _). unfold mec2.
  apply Rmult_lt_0_compat; [exact Hm |].
  apply Rmult_lt_0_compat; exact Hc.
Qed.

Lemma ec_denominator_pos (eps : R) : 0 < eps -> 0 < ec_denominator k eps.
Proof.
  intros He. destruct k_pos as (_ & Hc & Hm & _). unfold ec_denominator.
  pose proof PI_RGT_0 as Hpi.
  assert (0 < (4 * PI) ^ 2) by (simpl; nra).
  assert (0 < Const.c k ^ 3).
  { simpl. rewrite Rmult_1_r. repeat apply Rmult_lt_0_compat; exact Hc. }
  apply Rmult_lt_0_compat; [| assumption].
  apply Rmult_lt_0_compat; [| assumption].
  apply Rmult_lt_0_compat; assumption.
Qed.

Lemma ec_prefactor_fin (xi L eps : R) :
  0 < eps ->
  (fin xi * fin L
   / (fpow (fin 4 * fin PI) 2 * fin eps * fin (Const.m_e k)
      * fpow (fin (Const.c k)) 3))%fl
  = fin (xi * L / ec_denominator k eps).
Proof.
  intros He. rewrite !fmul_fin, !fpow_nat by lia.
  change (Z.to_nat 2) with 2%nat. change (Z.to_nat 3) with 3%nat.
  rewrite !fmul_fin. fold (ec_denominator k eps).
  apply fdiv_fin. pose proof (ec_denominator_pos eps He). lra.
Qed.

Lemma epsilon_1_of_fin (self : Absorption) (nus : list R) :
  epsilon_1_of k self (map fin nus) =
  map (fun nu0 => fin (epsilon_of k self nu0)) nus.
Proof.
  unfold epsilon_1_of. rewrite !map_map. apply map_ext. intros nu0.
  rewrite fmul_fin, fdiv_fin by (pose proof mec2_pos; lra).
  rewrite fadd_fin, fmul_fin. reflexivity.
Qed.

Lemma opacity_ring_torus_parts (self : Absorption) (t : RingDustTorus.t)
    (nu : array) :
  _opacity_ring_torus k self t nu =
  map (fun e1 =>
         (fin (RingDustTorus.xi_dt t) * fin (RingDustTorus.L_disk t)
          / (fpow (fin 4 * fin PI) 2 * fin (RingDustTorus.epsilon_dt t)
             * fin (Const.m_e k) * fpow (fin (Const.c k)) 3)
          * ring_integral k self t e1)%fl)
      (epsilon_1_of k self nu).
Proof. reflexivity. Qed.

Lemma opacity_shell_blr_parts (self : Absorption) (b : SphericalShellBLR.t)
    (nu : array) :
  _opacity_shell_blr k self b nu =
  map (fun e1 =>
         (fin (SphericalShellBLR.xi_line b) * fin (SphericalShellBLR.L_disk b)
          / (fpow (fin 4 * fin PI) 2 * fin (SphericalShellBLR.epsilon_line b)
             * fin (Const.m_e k) * fpow (fin (Const.c k)) 3)
          * shell_integral k self b e1)%fl)
      (epsilon_1_of k self nu).
Proof. reflexivity. Qed.

Section OneObject.
Variable self : Absorption.
Hypothesis grids : grid_invariant k self.
Hypothesis mu_s_range : -1 <= Blob.mu_s (blob self) <= 1.

Lemma sigma_T_positive : 0 < Const.sigma_T k.
Proof. destruct k_pos as (_ & _ & _ & H & _). exact H. Qed.

Lemma ring_integrand_nonneg (t : RingDustTorus.t) (p lv e : R) :
  0 < RingDustTorus.R_dt t ->
  fin_nonneg (ring_integrand k self t (fin p) (fin lv) (fin e)).
Proof.
  intros HR. unfold ring_integrand.
  destruct (ring_geometry _ lv HR) as (x & m & Hx & Hx0 & Hm & Hmr).
  rewrite Hx, Hm, cos_psi_fin by assumption.
  apply kernel_fin_nonneg; [exact sigma_T_positive | | exact Hx0].
  apply law_of_cosines_bounds; assumption.
Qed.

Lemma ring_integrand_below_threshold (t : RingDustTorus.t) (p lv e : R) :
  0 < RingDustTorus.R_dt t ->
  0 <= e * RingDustTorus.epsilon_dt t < 1 ->
  ring_integrand k self t (fin p) (fin lv) (fin e) = fin 0.
Proof.
  intros HR He. unfold ring_integrand.
  destruct (ring_geometry _ lv HR) as (x & m & Hx & Hx0 & Hm & Hmr).
  rewrite Hx, Hm, cos_psi_fin by assumption.
  apply kernel_below_threshold; [| exact Hx0 | exact He].
  apply law_of_cosines_bounds; assumption.
Qed.

Lemma shell_integrand_nonneg (b : SphericalShellBLR.t) (m p lv e : R) :
  -1 <= m <= 1 -> 0 < SphericalShellBLR.R_line b -> 0 < lv ->
  lv <> SphericalShellBLR.R_line b ->
  fin_nonneg (shell_integrand k self b (fin m) (fin p) (fin lv) (fin e)).
Proof.
  intros Hm HR Hl Hne. unfold shell_integrand.
  destruct (shell_geometry m _ lv Hm HR Hl Hne)
    as (x & ms & Hx & Hx0 & Hms & Hmsr).
  rewrite Hx, Hms, cos_psi_fin by assumption.
  apply kernel_fin_nonneg; [exact sigma_T_positive | | exact Hx0].
  apply law_of_cosines_bounds; assumption.
Qed.

Lemma ring_integral_nonneg (t : RingDustTorus.t) (e : R) :
  0 < RingDustTorus.R_dt t ->
  fin_nonneg (ring_integral k self t (fin e)).
Proof.
  intros HR. destruct grids as (_ & Hphi & Hl).
  destruct (linear_grid_facts _ _ _ _ two_pi_nonneg Hphi) as [Hpi Hpf].
  destruct (log_grid_facts _ _ _ _ Hl) as [Hli Hlf].
  unfold ring_integral.
  apply trapz_map_nonneg; [exact Hli |]. intros _l Hin.
  destruct (Hlf _ Hin) as (lv & -> & _).
  apply trapz_map_nonneg; [exact Hpi |]. intros _phi Hin'.
  destruct (Hpf _ Hin') as (p & -> & _).
  apply ring_integrand_nonneg. exact HR.
Qed.

Lemma ring_integral_below_threshold (t : RingDustTorus.t) (e : R) :
  0 < RingDustTorus.R_dt t ->
  0 <= e * RingDustTorus.epsilon_dt t < 1 ->
  ring_integral k self t (fin e) = fin 0.
Proof.
  intros HR He. destruct grids as (_ & Hphi & Hl).
  destruct (linear_grid_facts _ _ _ _ two_pi_nonneg Hphi) as [Hpi Hpf].
  destruct (log_grid_facts _ _ _ _ Hl) as [Hli Hlf].
  unfold ring_integral.
  apply trapz_map_zero; [exact Hli |]. intros _l Hin.
  destruct (Hlf _ Hin) as (lv & -> & _).
  apply trapz_map_zero; [exact Hpi |]. intros _phi Hin'.
  destruct (Hpf _ Hin') as (p & -> & _).
  apply ring_integrand_below_threshold; assumption.
Qed.

Lemma shell_integral_nonneg (b : SphericalShellBLR.t) (e : R) :
  0 < SphericalShellBLR.R_line b ->
  ~ In (fin (SphericalShellBLR.R_line b)) (l self) ->
  fin_nonneg (shell_integral k self b (fin e)).
Proof.
  intros HR Hoff. destruct grids as (Hmu & Hphi & Hl).
  destruct (linear_grid_facts (-1) 1 _ _ ltac:(lra) Hmu) as [Hmi Hmf].
  destruct (linear_grid_facts _ _ _ _ two_pi_nonneg Hphi) as [Hpi Hpf].
  destruct (log_grid_facts _ _ _ _ Hl) as [Hli Hlf].
  unfold shell_integral.
  apply trapz_map_nonneg; [exact Hli |]. intros _l Hin.
  destruct (Hlf _ Hin) as (lv & -> & Hlv).
  apply trapz_map_nonneg; [exact Hpi |]. intros _phi Hin'.
  destruct (Hpf _ Hin') as (p & -> & _).
  apply trapz_map_nonneg; [exact Hmi |]. intros _mu Hin''.
  destruct (Hmf _ Hin'') as (m & -> & Hm).
  apply shell_integrand_nonneg; try assumption.
  intros E. apply Hoff. rewrite <- E. exact Hin.
Qed.

End OneObject.
End Integrators.

(** ** Strictly increasing grids and strictly positive quadratures *)

Lemma hd_error_In {A : Type} (g : list A) (a : A) :
  hd_error g = Some a -> In a g.
Proof.
  destruct g as [| x g]; [discriminate |].
  intros E. injection E as ->. left. reflexivity.
Qed.

Lemma last_In {A : Type} (g : list A) (d : A) : g <> [] -> In (last g d) g.
Proof.
  intros Hne. rewrite (app_removelast_last d Hne) at 2.
  apply in_or_app. right. left. reflexivity.
Qed.


Lemma fin_strictly_increasing_weak (x : array) :
  fin_strictly_increasing x -> fin_increasing x.
Proof.
  induction x as [| a x IH]; [exact (fun H => H) |].
  destruct x as [| b x]; [exact (fun H => H) |].
  intros [(u & v & Ha & Hb & Huv) Hrest]. split.
  - exists u, v. repeat split; [exact Ha | exact Hb | lra].
  - apply IH. exact Hrest.
Qed.

Lemma fin_strictly_increasing_of_nth (g : array) :
  (forall i : nat, (i < length g)%nat ->
     exists x : R, nth_error g i = Some (fin x)) ->
  (forall (i : nat) (x y : R),
     nth_error g i = Some (fin x) -> nth_error g (S i) = Some (fin y) ->
     x < y) ->
  fin_strictly_increasing g.
Proof.
  induction g as [| a g IH]; intros Hfin Hlt; [exact I |].
  destruct g as [| b g]; [exact I |].
  cbn [fin_strictly_increasing]. split.
  - destruct (Hfin 0%nat) as [u Hu]; [simpl; lia |].
    destruct (Hfin 1%nat) as [v Hv]; [simpl; lia |].
    cbn in Hu, Hv. injection Hu as ->. injection Hv as ->.
    exists u, v. repeat split. apply (Hlt 0%nat); reflexivity.
  - apply IH.
    + intros i Hi. apply (Hfin (S i)). simpl in *. lia.
    + intros i x y Hx Hy. apply (Hlt (S i)); assumption.
Qed.

Lemma linear_grid_strict (a b : R) (n : Z) (g : array) :
  a < b -> linear_grid a b n g -> fin_strictly_increasing g.
Proof.
  intros Hab (Hn & Hlen & _ & _ & Hnth).
  assert (Hpos : 0 < IZR n - 1).
  { assert (IZR 2 <= IZR n) by (apply IZR_le; exact Hn). lra. }
  assert (Hstep : 0 < (b - a) / (IZR n - 1)).
  { apply Rdiv_lt_0_compat; lra. }
  apply fin_strictly_increasing_of_nth.
  - intros i Hi. eexists. apply Hnth. exact Hi.
  - intros i x y Hx Hy.
    assert (Hi : (S i < length g)%nat).
    { apply nth_error_Some. rewrite Hy. discriminate. }
    rewrite Hnth in Hx by lia. rewrite Hnth in Hy by lia.
    injection Hx as <-. injection Hy as <-.
    pose proof (S_INR i) as HS.
    change (a + INR i * ((b - a) / (IZR n - 1))
            < a + INR (S i) * ((b - a) / (IZR n - 1))).
    rewrite HS. nra.
Qed.

Lemma log_grid_strict (a b : R) (n : Z) (g : array) :
  log_grid a b n g -> fin_strictly_increasing g.
Proof.
  intros (Hn & Hlen & _ & _ & Hnth & Hlt).
  apply fin_strictly_increasing_of_nth.
  - intros i Hi. eexists. apply Hnth. exact Hi.
  - exact Hlt.
Qed.

(** A quadrature of non-negative samples on a strictly increasing grid
    is positive as soon as one sample is. *)
Lemma trapz_map_pos (f : fl -> fl) (x : array) :
  fin_strictly_increasing x -> (2 <= length x)%nat ->
  (forall a : fl, In a x -> fin_nonneg (f a)) ->
  (exists (a : fl) (v : R), In a x /\ f a = fin v /\ 0 < v) ->
  exists t : R, trapz (map f x) x = fin t /\ 0 < t.
Proof.
  induction x as [| x0 x IH]; intros Hinc Hlen Hf Hp;
    [simpl in Hlen; lia |].
  destruct x as [| x1 x]; [simpl in Hlen; lia |].
  cbn [map]. rewrite trapz_cons2.
  pose proof Hinc as [(u & v & -> & -> & Huv) Hrest].
  destruct (Hf (fin u)) as (y0 & Hy0 & Hy0pos); [left; reflexivity |].
  destruct (Hf (fin v)) as (y1 & Hy1 & Hy1pos); [right; left; reflexivity |].
  assert (Hf' : forall a : fl, In a (fin v :: x) -> fin_nonneg (f a)).
  { intros a Ha. apply Hf. right. exact Ha. }
  destruct (trapz_map_nonneg f (fin v :: x)
              (fin_strictly_increasing_weak _ Hrest) Hf')
    as (t & Ht & Htpos).
  cbn [map] in Ht.
  destruct Hp as (a & va & Ha & Hfa & Hva).
  assert (Hcase : 0 < y0 \/ 0 < y1 \/ 0 < t).
  { destruct Ha as [<- | [<- | Ha]].
    - left. rewrite Hfa in Hy0. injection Hy0 as <-. exact Hva.
    - right. left. rewrite Hfa in Hy1. injection Hy1 as <-. exact Hva.
    - right. right.
      destruct (IH Hrest) as (t' & Ht' & Ht'pos).
      + destruct x; [destruct Ha | simpl; lia].
      + exact Hf'.
      + exists a, va. split; [right; exact Ha | split; assumption].
      + cbn [map] in Ht'. rewrite Ht' in Ht. injection Ht as <-.
        exact Ht'pos. }
  rewrite Ht, Hy0, Hy1.
  change (Some y1) with (fin y1). change (Some y0) with (fin y0).
  change (Some t) with (fin t).
  rewrite fsub_fin, fadd_fin, fmul_fin, half_fin, fadd_fin.
  eexists. split; [reflexivity |].
  assert (0 <= (v - u) * (y1 + y0)) by (apply Rmult_le_pos; lra).
  destruct Hcase as [H0 | [H1 | H2]].
  - assert (0 < (v - u) * (y1 + y0)) by (apply Rmult_lt_0_compat; lra). lra.
  - assert (0 < (v - u) * (y1 + y0)) by (apply Rmult_lt_0_compat; lra). lra.
  - lra.
Qed.

(** ** Grids of any size *)

Lemma linspace_facts (a b : R) (n : Z) (g : array) :
  a <= b -> linspace (fin a) (fin b) n = Ret g ->
  fin_increasing g /\
  forall x : fl, In x g -> exists m : R, x = fin m /\ a <= m <= b.
Proof.
  intros Hab Hg.
  destruct (Z_lt_le_dec n 2) as [Hs | Hn].
  - destruct (Z_lt_le_dec n 0) as [Hneg | H0].
    + unfold linspace in Hg. apply Z.ltb_lt in Hneg. rewrite Hneg in Hg.
      discriminate.
    + assert (Hcase : (n = 0 \/ n = 1)%Z) by lia.
      destruct Hcase as [-> | ->].
      * assert (E : linspace (fin a) (fin b) 0 = Ret []) by reflexivity.
        rewrite E in Hg. injection Hg as <-.
        split; [exact I | intros x []].
      * rewrite linspace_one in Hg. injection Hg as <-.
        split; [exact I |].
        intros x [<- | []]. exists a. split; [reflexivity | lra].
  - rewrite linspace_fin in Hg by exact Hn. injection Hg as <-.
    apply (linear_grid_facts a b n); [exact Hab |].
    apply linear_grid_intro. exact Hn.
Qed.

Lemma fexp10_increasing (y : array) :
  fin_increasing y ->
  (forall x : fl, In x y -> exists m : R, x = fin m) ->
  fin_increasing (map fexp10 y) /\
  forall x : fl, In x (map fexp10 y) -> exists lv : R, x = fin lv /\ 0 < lv.
Proof.
  intros Hinc Hfin. split.
  - induction y as [| a y IH]; [exact I |].
    destruct y as [| b y]; [exact I |].
    destruct Hinc as [(u & v & -> & -> & Huv) Hrest].
    cbn [map fin_increasing]. split.
    + exists (Rpower 10 u), (Rpower 10 v). repeat split.
      apply Rle_Rpower; lra.
    + apply IH; [exact Hrest |].
      intros x Hx. apply Hfin. right. exact Hx.
  - intros x Hx. apply in_map_iff in Hx. destruct Hx as (a & <- & Ha).
    destruct (Hfin a Ha) as (m & ->).
    exists (Rpower 10 m). split; [reflexivity |].
    unfold Rpower. apply exp_pos.
Qed.

Lemma logspace_facts (ya yb : R) (n : Z) (g : array) :
  ya <= yb -> logspace (fin ya) (fin yb) n = Ret g ->
  fin_increasing g /\
  forall x : fl, In x g -> exists lv : R, x = fin lv /\ 0 < lv.
Proof.
  intros Hab Hg. unfold logspace in Hg.
  destruct (linspace (fin ya) (fin yb) n) as [y | e] eqn:Hy;
    [| discriminate].
  cbn [obind] in Hg. injection Hg as <-.
  destruct (linspace_facts ya yb n y Hab Hy) as [Hinc Hin].
  apply fexp10_increasing; [exact Hinc |].
  intros x Hx. destruct (Hin x Hx) as (m & -> & _). exists m. reflexivity.
Qed.

Lemma grids_of_setters_facts (k : Const.t) (self : Absorption) :
  0 < Const.pc k -> 0 < r self < 3000 * Const.pc k ->
  grids_of_setters k self -> grid_facts self.
Proof.
  intros Hpc Hr (Hmu & Hphi & Hl). unfold grid_facts.
  split; [| split].
  - apply (linspace_facts (-1) 1 (mu_size self)); [lra | exact Hmu].
  - apply (linspace_facts 0 (2 * PI) (phi_size self));
      [exact two_pi_nonneg | exact Hphi].
  - rewrite !flog10_fin in Hl by lra.
    apply (logspace_facts (log10R (r self)) (log10R (3000 * Const.pc k))
             (l_size self) (l self)); [| exact Hl].
    left. apply log10R_lt; lra.
Qed.

Lemma grid_invariant_facts (k : Const.t) (self : Absorption) :
  grid_invariant k self -> grid_facts self.
Proof.
  intros (Hmu & Hphi & Hl). unfold grid_facts.
  split; [| split].
  - apply (linear_grid_facts (-1) 1 _ _ ltac:(lra) Hmu).
  - apply (linear_grid_facts _ _ _ _ two_pi_nonneg Hphi).
  - apply (log_grid_facts _ _ _ _ Hl).
Qed.

Lemma constructed_grids_of_setters (k : Const.t) (blob0 : Blob.t)
    (target0 : target) (r0 : R) :
  0 < Const.pc k -> 0 < r0 ->
  grids_of_setters k (constructed k blob0 target0 r0).
Proof.
  intros Hpc Hr. unfold grids_of_setters, constructed.
  cbn [mu mu_size phi phi_size l l_size r].
  split; [apply linspace_fin; lia |].
  split; [apply linspace_fin; lia |].
  apply set_l_logspace; [exact Hpc | exact Hr | lia].
Qed.

(** The shell and ring quadratures on grids of any size. *)
Section AnyGrid.
Variable k : Const.t.
Hypothesis k_pos : positive_constants k.
Variable self : Absorption.
Hypothesis facts : grid_facts self.
Hypothesis mu_s_range : -1 <= Blob.mu_s (blob self) <= 1.

Lemma ring_integral_nonneg_any (t : RingDustTorus.t) (e : R) :
  0 < RingDustTorus.R_dt t ->
  fin_nonneg (ring_integral k self t (fin e)).
Proof.
  intros HR. destruct facts as (_ & [Hpi Hpf] & [Hli Hlf]).
  unfold ring_integral.
  apply trapz_map_nonneg; [exact Hli |]. intros _l Hin.
  destruct (Hlf _ Hin) as (lv & -> & _).
  apply trapz_map_nonneg; [exact Hpi |]. intros _phi Hin'.
  destruct (Hpf _ Hin') as (p & -> & _).
  unfold ring_integrand.
  destruct (ring_geometry _ lv HR) as (x & m & Hx & Hx0 & Hm & Hmr).
  rewrite Hx, Hm, cos_psi_fin by assumption.
  apply kernel_fin_nonneg; [exact (sigma_T_positive k k_pos) | | exact Hx0].
  apply law_of_cosines_bounds; assumption.
Qed.

Lemma shell_integral_nonneg_any (b : SphericalShellBLR.t) (e : R) :
  0 < SphericalShellBLR.R_line b ->
  ~ In (fin (SphericalShellBLR.R_line b)) (l self) ->
  fin_nonneg (shell_integral k self b (fin e)).
Proof.
  intros HR Hoff. destruct facts as ([Hmi Hmf] & [Hpi Hpf] & [Hli Hlf]).
  unfold shell_integral.
  apply trapz_map_nonneg; [exact Hli |]. intros _l Hin.
  destruct (Hlf _ Hin) as (lv & -> & Hlv).
  apply trapz_map_nonneg; [exact Hpi |]. intros _phi Hin'.
  destruct (Hpf _ Hin') as (p & -> & _).
  apply trapz_map_nonneg; [exact Hmi |]. intros _mu Hin''.
  destruct (Hmf _ Hin'') as (m & -> & Hm).
  assert (Hne : lv <> SphericalShellBLR.R_line b).
  { intros E. apply Hoff. rewrite <- E. exact Hin. }
  unfold shell_integrand.
  destruct (shell_geometry m _ lv Hm HR Hlv Hne)
    as (x & ms & Hx & Hx0 & Hms & Hmsr).
  rewrite Hx, Hms, cos_psi_fin by assumption.
  apply kernel_fin_nonneg; [exact (sigma_T_positive k k_pos) | | exact Hx0].
  apply law_of_cosines_bounds; assumption.
Qed.

End AnyGrid.

(** ** Above the threshold: strictly positive integrands *)

Lemma pos_fin_nonneg (a : fl) :
  (exists v : R, a = fin v /\ 0 < v) -> fin_nonneg a.
Proof. intros (v & -> & Hv). apply fin_nonneg_intro. lra. Qed.

Lemma kernel_pos (k : Const.t) (c x e eps : R) :
  0 < Const.sigma_T k ->
  -1 <= c < 1 -> x <> 0 -> 1 < e * eps * (1 - c) / 2 ->
  exists v : R,
    ((fin 1 - fin c) * fpow (fin x) (-2)
     * sigma_elt k (fin e * fin eps * (fin 1 - fin c) / fin 2))%fl = fin v
    /\ 0 < v.
Proof.
  intros HT Hc Hx Hs.
  rewrite !fsub_fin, !fmul_fin, half_fin.
  rewrite fpow_neg by (lia || exact Hx).
  change (Z.to_nat (- -2)) with 2%nat.
  rewrite sigma_elt_above by lra.
  rewrite !fmul_fin. eexists. split; [reflexivity |].
  pose proof (dermer17_pos k _ HT Hs) as Hd.
  assert (0 < / x ^ 2).
  { apply Rinv_0_lt_compat. simpl. rewrite Rmult_1_r.
    destruct (Rlt_dec x 0); nra. }
  apply Rmult_lt_0_compat; [| exact Hd].
  apply Rmult_lt_0_compat; lra.
Qed.

(** The ring geometry at a positive path length. *)
Lemma ring_geometry_pos (R_dt lv : R) :
  0 < R_dt -> 0 < lv ->
  exists x mu0 : R,
    x_re_ring (fin R_dt) (fin lv) = fin x /\ x <> 0 /\
    (fin lv / fin x)%fl = fin mu0 /\ 0 <= mu0 <= 1.
Proof.
  intros HR Hl.
  destruct (ring_geometry R_dt lv HR) as (x & m & Hx & Hx0 & Hm & Hmr).
  exists x, m. repeat split; try assumption; try lra.
  assert (Hxe : x = sqrt (R_dt ^ 2 + lv ^ 2)).
  { unfold x_re_ring in Hx. rewrite !fpow_nat in Hx by lia.
    change (Z.to_nat 2) with 2%nat in Hx.
    rewrite fadd_fin, fsqrt_fin in Hx by (simpl; nra).
    injection Hx as <-. reflexivity. }
  assert (Hxpos : 0 < x).
  { rewrite Hxe. apply sqrt_lt_R0. simpl. nra. }
  rewrite fdiv_fin in Hm by exact Hx0. injection Hm as <-.
  apply Rmult_le_pos; [lra |]. left. apply Rinv_0_lt_compat. exact Hxpos.
Qed.

Lemma ring_integrand_pos (k : Const.t) (self : Absorption)
    (t : RingDustTorus.t) (p lv e : R) :
  0 < Const.sigma_T k ->
  0 <= Blob.mu_s (blob self) <= 1 ->
  0 < RingDustTorus.R_dt t -> 0 < lv -> cos p <= 0 ->
  1 < e * RingDustTorus.epsilon_dt t * (1 - Blob.mu_s (blob self)) / 2 ->
  exists v : R,
    ring_integrand k self t (fin p) (fin lv) (fin e) = fin v /\ 0 < v.
Proof.
  intros HT Hmu HR Hl Hcos Hs. unfold ring_integrand.
  destruct (ring_geometry_pos _ lv HR Hl) as (x & m & Hx & Hx0 & Hm & Hmr).
  rewrite Hx, Hm, cos_psi_fin by lra.
  set (ms := Blob.mu_s (blob self)) in *.
  set (c := ms * m + sqrt (1 - ms ^ 2) * sqrt (1 - m ^ 2) * cos p).
  assert (Hlow : -1 <= c <= 1).
  { apply law_of_cosines_bounds; lra. }
  assert (Hup : c <= ms).
  { unfold c.
    pose proof (sqrt_pos (1 - ms ^ 2)) as H1.
    pose proof (sqrt_pos (1 - m ^ 2)) as H2.
    assert (0 <= sqrt (1 - ms ^ 2) * sqrt (1 - m ^ 2))
      by (apply Rmult_le_pos; assumption).
    assert (sqrt (1 - ms ^ 2) * sqrt (1 - m ^ 2) * cos p <= 0) by nra.
    nra. }
  assert (Hms : ms < 1).
  { destruct (Rlt_dec ms 1) as [H | H]; [exact H |].
    assert (ms = 1) by lra. subst ms. rewrite H0 in Hs. lra. }
  apply kernel_pos; [exact HT | lra | exact Hx0 |].
  set (ee := e * RingDustTorus.epsilon_dt t) in *.
  assert (0 < ee) by nra.
  assert (ee * (1 - ms) <= ee * (1 - c)) by (apply Rmult_le_compat_l; lra).
  lra.
Qed.

Lemma shell_integrand_pos_on_axis (k : Const.t) (self : Absorption)
    (b : SphericalShellBLR.t) (p lv e : R) :
  0 < Const.sigma_T k ->
  -1 <= Blob.mu_s (blob self) <= 1 ->
  0 < SphericalShellBLR.R_line b < lv ->
  1 < e * SphericalShellBLR.epsilon_line b
      * (1 - Blob.mu_s (blob self)) / 2 ->
  exists v : R,
    shell_integrand k self b (fin 1) (fin p) (fin lv) (fin e) = fin v
    /\ 0 < v.
Proof.
  intros HT Hmu HR Hs. unfold shell_integrand.
  set (R0 := SphericalShellBLR.R_line b) in *.
  set (ms := Blob.mu_s (blob self)) in *.
  assert (Hx : x_re_shell (fin 1) (fin R0) (fin lv) = fin (lv - R0)).
  { unfold x_re_shell. rewrite !fpow_nat by lia.
    change (Z.to_nat 2) with 2%nat.
    rewrite !fmul_fin, fadd_fin, fsub_fin.
    replace (R0 ^ 2 + lv ^ 2 - 2 * R0 * lv * 1)
      with ((lv - R0) * (lv - R0)) by ring.
    rewrite fsqrt_fin by nra. rewrite sqrt_square by lra. reflexivity. }
  assert (Hm : mu_star (fin 1) (fin R0) (fin lv) = fin 1).
  { unfold mu_star. rewrite Hx, fmul_fin, fsub_fin, fdiv_fin by lra.
    unfold fin. f_equal. field. lra. }
  rewrite Hx, Hm, cos_psi_fin by lra.
  replace (ms * 1 + sqrt (1 - ms ^ 2) * sqrt (1 - 1 ^ 2) * cos p) with ms.
  2:{ replace (1 - 1 ^ 2) with 0 by ring. rewrite sqrt_0. ring. }
  assert (Hms : ms < 1).
  { destruct (Rlt_dec ms 1) as [H | H]; [exact H |].
    assert (ms = 1) by lra. rewrite H0 in Hs. lra. }
  apply kernel_pos; [exact HT | lra | lra | exact Hs].
Qed.

Lemma In_of_length_2 {A : Type} (g : list A) :
  (2 <= length g)%nat -> exists a : A, In a g.
Proof.
  destruct g as [| a g]; [simpl; lia |]. intros _. exists a. left. reflexivity.
Qed.

Section Positive.
Variable k : Const.t.
Hypothesis k_pos : positive_constants k.
Variable self : Absorption.
Hypothesis grids : grid_invariant k self.

Lemma grid_lengths :
  (2 <= length (mu self))%nat /\ (2 <= length (phi self))%nat /\
  (2 <= length (l self))%nat.
Proof.
  destruct grids as ((H1 & L1 & _) & (H2 & L2 & _) & (H3 & L3 & _)).
  rewrite L1, L2, L3. lia.
Qed.

Lemma ring_integral_pos (t : RingDustTorus.t) (e p0 : R) :
  0 <= Blob.mu_s (blob self) <= 1 ->
  0 < RingDustTorus.R_dt t ->
  In (fin p0) (phi self) -> cos p0 <= 0 ->
  1 < e * RingDustTorus.epsilon_dt t * (1 - Blob.mu_s (blob self)) / 2 ->
  exists v : R, ring_integral k self t (fin e) = fin v /\ 0 < v.
Proof.
  intros Hmu HR Hp0 Hcos Hs.
  pose proof grid_lengths as (_ & Lphi & Ll).
  pose proof grids as (_ & Hphi & Hl).
  pose proof (log_grid_strict _ _ _ _ Hl) as Hls.
  assert (H2pi : 0 < 2 * PI) by (pose proof PI_RGT_0; lra).
  pose proof (linear_grid_strict _ _ _ _ H2pi Hphi) as Hps.
  destruct (log_grid_facts _ _ _ _ Hl) as [_ Hlf].
  destruct (linear_grid_facts _ _ _ _ two_pi_nonneg Hphi) as [_ Hpf].
  pose proof (sigma_T_positive k k_pos) as HT.
  assert (Hinner : forall a : fl, In a (l self) ->
            exists v : R,
              trapz (map (fun _phi => ring_integrand k self t _phi a (fin e))
                         (phi self)) (phi self) = fin v /\ 0 < v).
  { intros a Ha. destruct (Hlf a Ha) as (lv & -> & Hlv).
    apply trapz_map_pos; [exact Hps | exact Lphi | |].
    - intros q Hq. destruct (Hpf q Hq) as (pq & -> & _).
      apply (ring_integrand_nonneg k k_pos self); [lra | exact HR].
    - exists (fin p0).
      destruct (ring_integrand_pos k self t p0 lv e HT Hmu HR Hlv Hcos Hs)
        as (v & Hv & Hvpos).
      exists v. split; [exact Hp0 | split; assumption]. }
  unfold ring_integral.
  apply trapz_map_pos; [exact Hls | exact Ll | |].
  - intros a Ha. apply pos_fin_nonneg. apply Hinner. exact Ha.
  - destruct (In_of_length_2 _ Ll) as (a & Ha).
    destruct (Hinner a Ha) as (v & Hv & Hvpos).
    exists a, v. split; [exact Ha | split; assumption].
Qed.

Lemma shell_integral_pos (b : SphericalShellBLR.t) (e : R) :
  -1 <= Blob.mu_s (blob self) <= 1 ->
  0 < SphericalShellBLR.R_line b ->
  (forall lv : R, In (fin lv) (l self) -> SphericalShellBLR.R_line b < lv) ->
  1 < e * SphericalShellBLR.epsilon_line b
      * (1 - Blob.mu_s (blob self)) / 2 ->
  exists v : R, shell_integral k self b (fin e) = fin v /\ 0 < v.
Proof.
  intros Hmus HR Hout Hs.
  pose proof grid_lengths as (Lmu & Lphi & Ll).
  pose proof grids as (Hmu & Hphi & Hl).
  pose proof (log_grid_strict _ _ _ _ Hl) as Hls.
  assert (H2pi : 0 < 2 * PI) by (pose proof PI_RGT_0; lra).
  pose proof (linear_grid_strict _ _ _ _ H2pi Hphi) as Hps.
  pose proof (linear_grid_strict (-1) 1 _ _ ltac:(lra) Hmu) as Hms.
  destruct (log_grid_facts _ _ _ _ Hl) as [_ Hlf].
  destruct (linear_grid_facts _ _ _ _ two_pi_nonneg Hphi) as [_ Hpf].
  destruct (linear_grid_facts (-1) 1 _ _ ltac:(lra) Hmu) as [_ Hmf].
  pose proof (sigma_T_positive k k_pos) as HT.
  assert (Hone : In (fin 1) (mu self)).
  { destruct Hmu as (_ & _ & _ & Hlast & _). rewrite <- Hlast.
    apply last_In. intros E. rewrite E in Lmu. simpl in Lmu. lia. }
  assert (Hin_mu : forall (lv p : R), In (fin lv) (l self) ->
            exists v : R,
              trapz (map (fun _mu =>
                            shell_integrand k self b _mu (fin p) (fin lv)
                                            (fin e))
                         (mu self)) (mu self) = fin v /\ 0 < v).
  { intros lv p Hlv. pose proof (Hout lv Hlv) as Hgt.
    apply trapz_map_pos; [exact Hms | exact Lmu | |].
    - intros q Hq. destruct (Hmf q Hq) as (m & -> & Hm).
      apply (shell_integrand_nonneg k k_pos self); try assumption; lra.
    - exists (fin 1).
      destruct (shell_integrand_pos_on_axis k self b p lv e HT Hmus
                  (conj HR Hgt) Hs) as (v & Hv & Hvpos).
      exists v. split; [exact Hone | split; assumption]. }
  assert (Hin_phi : forall a : fl, In a (l self) ->
            exists v : R,
              trapz (map (fun _phi =>
                            trapz (map (fun _mu =>
                                          shell_integrand k self b _mu _phi a
                                                          (fin e))
                                       (mu self)) (mu self))
                         (phi self)) (phi self) = fin v /\ 0 < v).
  { intros a Ha. destruct (Hlf a Ha) as (lv & -> & _).
    apply trapz_map_pos; [exact Hps | exact Lphi | |].
    - intros q Hq. destruct (Hpf q Hq) as (pq & -> & _).
      apply pos_fin_nonneg. apply Hin_mu. exact Ha.
    - destruct (In_of_length_2 _ Lphi) as (q & Hq).
      destruct (Hpf q Hq) as (pq & -> & _).
      destruct (Hin_mu lv pq Ha) as (v & Hv & Hvpos).
      exists (fin pq), v. split; [exact Hq | split; assumption]. }
  unfold shell_integral.
  apply trapz_map_pos; [exact Hls | exact Ll | |].
  - intros a Ha. apply pos_fin_nonneg. apply Hin_phi. exact Ha.
  - destruct (In_of_length_2 _ Ll) as (a & Ha).
    destruct (Hin_phi a Ha) as (v & Hv & Hvpos).
    exists a, v. split; [exact Ha | split; assumption].
Qed.

End Positive.

(** ** The optical depth of the shell and of the ring *)

Lemma Forall2_map_same {A B : Type} (P : B -> B -> Prop) (f g : A -> B)
    (xs : list A) :
  (forall x : A, P (f x) (g x)) -> Forall2 P (map f xs) (map g xs).
Proof.
  intros H. induction xs as [| x xs IH]; cbn [map]; constructor; auto.
Qed.

Section Tau.
Variable k : Const.t.
Variable uninit : nat -> nat -> fl.
Hypothesis k_pos : positive_constants k.

Lemma tau_ring_value (self : Absorption) (t : RingDustTorus.t)
    (nus : list R) :
  grid_invariant k self ->
  -1 <= Blob.mu_s (blob self) <= 1 ->
  target_ self = IsRingDustTorus t ->
  0 < RingDustTorus.epsilon_dt t -> 0 < RingDustTorus.R_dt t ->
  tau k uninit self (map fin nus) =
  Ret (PyArray
         (map (fun nu0 =>
                 fin (RingDustTorus.xi_dt t * RingDustTorus.L_disk t
                      / ec_denominator k (RingDustTorus.epsilon_dt t)
                      * fl_value
                          (ring_integral k self t
                             (fin (epsilon_of k self nu0)))))
              nus)) /\
  forall nu0 : R,
    0 <= fl_value (ring_integral k self t (fin (epsilon_of k self nu0))).
Proof.
  intros Hg Hmu Ht He HR. split.
  - unfold tau. rewrite Ht.
    rewrite opacity_ring_torus_parts, (epsilon_1_of_fin k k_pos), map_map.
    do 2 f_equal. apply map_ext. intros nu0.
    rewrite (ec_prefactor_fin k k_pos) by exact He.
    destruct (ring_integral_nonneg k k_pos self Hg Hmu t
                (epsilon_of k self nu0) HR) as (v & Hv & _).
    rewrite Hv. reflexivity.
  - intros nu0.
    destruct (ring_integral_nonneg k k_pos self Hg Hmu t
                (epsilon_of k self nu0) HR) as (v & Hv & Hvpos).
    rewrite Hv. exact Hvpos.
Qed.

Lemma tau_shell_value (self : Absorption) (b : SphericalShellBLR.t)
    (nus : list R) :
  grid_invariant k self ->
  -1 <= Blob.mu_s (blob self) <= 1 ->
  target_ self = IsSphericalShellBLR b ->
  0 < SphericalShellBLR.epsilon_line b -> 0 < SphericalShellBLR.R_line b ->
  ~ In (fin (SphericalShellBLR.R_line b)) (l self) ->
  tau k uninit self (map fin nus) =
  Ret (PyArray
         (map (fun nu0 =>
                 fin (SphericalShellBLR.xi_line b * SphericalShellBLR.L_disk b
                      / ec_denominator k (SphericalShellBLR.epsilon_line b)
                      * fl_value
                          (shell_integral k self b
                             (fin (epsilon_of k self nu0)))))
              nus)) /\
  forall nu0 : R,
    0 <= fl_value (shell_integral k self b (fin (epsilon_of k self nu0))).
Proof.
  intros Hg Hmu Ht He HR Hoff. split.
  - unfold tau. rewrite Ht.
    rewrite opacity_shell_blr_parts, (epsilon_1_of_fin k k_pos), map_map.
    do 2 f_equal. apply map_ext. intros nu0.
    rewrite (ec_prefactor_fin k k_pos) by exact He.
    destruct (shell_integral_nonneg k k_pos self Hg Hmu b
                (epsilon_of k self nu0) HR Hoff) as (v & Hv & _).
    rewrite Hv. reflexivity.
  - intros nu0.
    destruct (shell_integral_nonneg k k_pos self Hg Hmu b
                (epsilon_of k self nu0) HR Hoff) as (v & Hv & Hvpos).
    rewrite Hv. exact Hvpos.
Qed.

Lemma scaled_nonneg (xi L D I0 : R) :
  0 <= xi -> 0 <= L -> 0 < D -> 0 <= I0 -> 0 <= xi * L / D * I0.
Proof.
  intros Hxi HL HD HI.
  apply Rmult_le_pos; [| exact HI].
  apply Rmult_le_pos; [apply Rmult_le_pos; assumption |].
  left. apply Rinv_0_lt_compat. exact HD.
Qed.

Lemma scaled_monotone (xi1 xi2 L D I0 : R) :
  0 <= xi1 < xi2 -> 0 <= L -> 0 < D -> 0 <= I0 ->
  0 <= xi1 * L / D * I0 <= xi2 * L / D * I0 /\
  (xi1 * L / D * I0 < xi2 * L / D * I0 <-> xi2 * L / D * I0 <> 0).
Proof.
  intros Hxi HL HD HI.
  assert (HiD : 0 < / D) by (apply Rinv_0_lt_compat; exact HD).
  set (c0 := L * / D * I0).
  assert (Hc : 0 <= c0).
  { unfold c0. apply Rmult_le_pos; [apply Rmult_le_pos; lra | exact HI]. }
  replace (xi1 * L / D * I0) with (xi1 * c0) by (unfold c0, Rdiv; ring).
  replace (xi2 * L / D * I0) with (xi2 * c0) by (unfold c0, Rdiv; ring).
  split; [split; nra |].
  split.
  - intros Hlt E. nra.
  - intros Hne. destruct (Req_dec_T c0 0) as [E | E].
    + exfalso. apply Hne. rewrite E. ring.
    + assert (0 < c0) by lra. nra.
Qed.

Lemma tau_ring_value_any (self : Absorption) (t : RingDustTorus.t)
    (nus : list R) :
  grid_facts self ->
  -1 <= Blob.mu_s (blob self) <= 1 ->
  target_ self = IsRingDustTorus t ->
  0 < RingDustTorus.epsilon_dt t -> 0 < RingDustTorus.R_dt t ->
  tau k uninit self (map fin nus) =
  Ret (PyArray
         (map (fun nu0 =>
                 fin (RingDustTorus.xi_dt t * RingDustTorus.L_disk t
                      / ec_denominator k (RingDustTorus.epsilon_dt t)
                      * fl_value
                          (ring_integral k self t
                             (fin (epsilon_of k self nu0)))))
              nus)) /\
  forall nu0 : R,
    0 <= fl_value (ring_integral k self t (fin (epsilon_of k self nu0))).
Proof.
  intros Hg Hmu Ht He HR. split.
  - unfold tau. rewrite Ht.
    rewrite opacity_ring_torus_parts, (epsilon_1_of_fin k k_pos), map_map.
    do 2 f_equal. apply map_ext. intros nu0.
    rewrite (ec_prefactor_fin k k_pos) by exact He.
    destruct (ring_integral_nonneg_any k k_pos self Hg Hmu t
                (epsilon_of k self nu0) HR) as (v & Hv & _).
    rewrite Hv. reflexivity.
  - intros nu0.
    destruct (ring_integral_nonneg_any k k_pos self Hg Hmu t
                (epsilon_of k self nu0) HR) as (v & Hv & Hvpos).
    rewrite Hv. exact Hvpos.
Qed.

Lemma tau_shell_value_any (self : Absorption) (b : SphericalShellBLR.t)
    (nus : list R) :
  grid_facts self ->
  -1 <= Blob.mu_s (blob self) <= 1 ->
  target_ self = IsSphericalShellBLR b ->
  0 < SphericalShellBLR.epsilon_line b -> 0 < SphericalShellBLR.R_line b ->
  ~ In (fin (SphericalShellBLR.R_line b)) (l self) ->
  tau k uninit self (map fin nus) =
  Ret (PyArray
         (map (fun nu0 =>
                 fin (SphericalShellBLR.xi_line b * SphericalShellBLR.L_disk b
                      / ec_denominator k (SphericalShellBLR.epsilon_line b)
                      * fl_value
                          (shell_integral k self b
                             (fin (epsilon_of k self nu0)))))
              nus)) /\
  forall nu0 : R,
    0 <= fl_value (shell_integral k self b (fin (epsilon_of k self nu0))).
Proof.
  intros Hg Hmu Ht He HR Hoff. split.
  - unfold tau. rewrite Ht.
    rewrite opacity_shell_blr_parts, (epsilon_1_of_fin k k_pos), map_map.
    do 2 f_equal. apply map_ext. intros nu0.
    rewrite (ec_prefactor_fin k k_pos) by exact He.
    destruct (shell_integral_nonneg_any k k_pos self Hg Hmu b
                (epsilon_of k self nu0) HR Hoff) as (v & Hv & _).
    rewrite Hv. reflexivity.
  - intros nu0.
    destruct (shell_integral_nonneg_any k k_pos self Hg Hmu b
                (epsilon_of k self nu0) HR Hoff) as (v & Hv & Hvpos).
    rewrite Hv. exact Hvpos.
Qed.

(** C4, for the two integrators that run to their end, in exact
    arithmetic.  With positive constants, on an object at a distance
    [0 < r < 3000 pc] whose grids are those its setters compute for the
    sizes it records (any sizes), with a viewing-angle cosine in
    [-1, 1], a well-formed shell or ring target and finite frequencies
    that keep the argument of the cross section at or below 1e16, [tau]
    returns an array with, for each frequency and at its place, one
    finite value that is not negative: the value of one function [F] at
    that frequency. *)
Theorem tau_shell_ring_finite_nonneg (self : Absorption) (nus : list R) :
  0 < r self < 3000 * Const.pc k ->
  grids_of_setters k self ->
  -1 <= Blob.mu_s (blob self) <= 1 ->
  match target_ self with
  | IsSphericalShellBLR b =>
      shell_well_formed self b /\
      below_sigma_limit k self (SphericalShellBLR.epsilon_line b) nus
  | IsRingDustTorus t =>
      ring_well_formed t /\
      below_sigma_limit k self (RingDustTorus.epsilon_dt t) nus
  | IsSSDisk _ | OtherTarget => False
  end ->
  exists F : R -> R,
    (forall nu0 : R, 0 <= F nu0) /\
    tau k uninit self (map fin nus) =
    Ret (PyArray (map (fun nu0 => fin (F nu0)) nus)).
Proof.
  intros Hr Hgs Hmu Hwf.
  assert (Hpc : 0 < Const.pc k) by (destruct k_pos as (_ & _ & _ & _ & H); exact H).
  pose proof (grids_of_setters_facts k self Hpc Hr Hgs) as Hg.
  destruct (target_ self) as [d | b | t |] eqn:Ht; try contradiction.
  - destruct Hwf as ((Hxi & HL & He & HR & Hoff) & _).
    destruct (tau_shell_value_any self b nus Hg Hmu Ht He HR Hoff)
      as [Hv Hpos].
    eexists. split; [| exact Hv].
    intros nu0. cbv beta.
    apply scaled_nonneg; try assumption; [| apply Hpos].
    apply (ec_denominator_pos k k_pos). exact He.
  - destruct Hwf as ((Hxi & HL & He & HR) & _).
    destruct (tau_ring_value_any self t nus Hg Hmu Ht He HR) as [Hv Hpos].
    eexists. split; [| exact Hv].
    intros nu0. cbv beta.
    apply scaled_nonneg; try assumption; [| apply Hpos].
    apply (ec_denominator_pos k k_pos). exact He.
Qed.

(** C7, as the sub-threshold zeroing leaves it, in exact arithmetic.
    On an object, frequencies and targets as in C4 (grids of any size,
    the argument of the cross section at or below 1e16), all else fixed,
    raising the luminosity fraction of a well-formed shell or ring
    target from [xi1 >= 0] to [xi2 > xi1] lowers no element of the
    returned array, and raises strictly exactly the elements that are
    not zero; an element that is zero stays zero. *)
Theorem tau_monotone_in_xi (self : Absorption) (nus : list R) (xi1 xi2 : R) :
  0 < r self < 3000 * Const.pc k ->
  grids_of_setters k self ->
  -1 <= Blob.mu_s (blob self) <= 1 ->
  0 <= xi1 < xi2 ->
  (forall b : SphericalShellBLR.t,
     shell_well_formed self b ->
     below_sigma_limit k self (SphericalShellBLR.epsilon_line b) nus ->
     exists taus1 taus2 : list R,
       tau k uninit
         (with_target self (IsSphericalShellBLR (with_xi_line b xi1)))
         (map fin nus) = Ret (PyArray (map fin taus1)) /\
       tau k uninit
         (with_target self (IsSphericalShellBLR (with_xi_line b xi2)))
         (map fin nus) = Ret (PyArray (map fin taus2)) /\
       Forall2 (fun t1 t2 => 0 <= t1 <= t2 /\ (t1 < t2 <-> t2 <> 0))
               taus1 taus2) /\
  (forall t : RingDustTorus.t,
     ring_well_formed t ->
     below_sigma_limit k self (RingDustTorus.epsilon_dt t) nus ->
     exists taus1 taus2 : list R,
       tau k uninit
         (with_target self (IsRingDustTorus (with_xi_dt t xi1)))
         (map fin nus) = Ret (PyArray (map fin taus1)) /\
       tau k uninit
         (with_target self (IsRingDustTorus (with_xi_dt t xi2)))
         (map fin nus) = Ret (PyArray (map fin taus2)) /\
       Forall2 (fun t1 t2 => 0 <= t1 <= t2 /\ (t1 < t2 <-> t2 <> 0))
               taus1 taus2).
Proof.
  intros Hr Hgs Hmu Hxi.
  assert (Hpc : 0 < Const.pc k)
    by (destruct k_pos as (_ & _ & _ & _ & H); exact H).
  pose proof (grids_of_setters_facts k self Hpc Hr Hgs) as Hg.
  split.
  - intros b (_ & HL & He & HR & Hoff) _.
    set (I0 := fun nu0 : R =>
                 fl_value (shell_integral k self b
                             (fin (epsilon_of k self nu0)))).
    set (D := ec_denominator k (SphericalShellBLR.epsilon_line b)).
    exists (map (fun nu0 => xi1 * SphericalShellBLR.L_disk b / D * I0 nu0) nus),
           (map (fun nu0 => xi2 * SphericalShellBLR.L_disk b / D * I0 nu0) nus).
    destruct (tau_shell_value_any
                (with_target self (IsSphericalShellBLR (with_xi_line b xi1)))
                (with_xi_line b xi1) nus Hg Hmu eq_refl He HR Hoff)
      as [Hv1 Hpos].
    destruct (tau_shell_value_any
                (with_target self (IsSphericalShellBLR (with_xi_line b xi2)))
                (with_xi_line b xi2) nus Hg Hmu eq_refl He HR Hoff)
      as [Hv2 _].
    rewrite !map_map. split; [exact Hv1 | split; [exact Hv2 |]].
    apply Forall2_map_same. intros nu0.
    apply scaled_monotone; try assumption.
    + apply (ec_denominator_pos k k_pos). exact He.
    + apply Hpos.
  - intros t (_ & HL & He & HR) _.
    set (I0 := fun nu0 : R =>
                 fl_value (ring_integral k self t
                             (fin (epsilon_of k self nu0)))).
    set (D := ec_denominator k (RingDustTorus.epsilon_dt t)).
    exists (map (fun nu0 => xi1 * RingDustTorus.L_disk t / D * I0 nu0) nus),
           (map (fun nu0 => xi2 * RingDustTorus.L_disk t / D * I0 nu0) nus).
    destruct (tau_ring_value_any
                (with_target self (IsRingDustTorus (with_xi_dt t xi1)))
                (with_xi_dt t xi1) nus Hg Hmu eq_refl He HR)
      as [Hv1 Hpos].
    destruct (tau_ring_value_any
                (with_target self (IsRingDustTorus (with_xi_dt t xi2)))
                (with_xi_dt t xi2) nus Hg Hmu eq_refl He HR)
      as [Hv2 _].
    rewrite !map_map. split; [exact Hv1 | split; [exact Hv2 |]].
    apply Forall2_map_same. intros nu0.
    apply scaled_monotone; try assumption.
    + apply (ec_denominator_pos k k_pos). exact He.
    + apply Hpos.
Qed.

(** Below the pair-production threshold of every grid point the ring
    gives no opacity at all, whatever its covering fraction. *)
Lemma tau_ring_below_threshold (self : Absorption) (t : RingDustTorus.t)
    (nu0 : R) :
  grid_invariant k self ->
  -1 <= Blob.mu_s (blob self) <= 1 ->
  target_ self = IsRingDustTorus t ->
  0 < RingDustTorus.epsilon_dt t -> 0 < RingDustTorus.R_dt t ->
  0 <= epsilon_of k self nu0 * RingDustTorus.epsilon_dt t < 1 ->
  tau k uninit self [fin nu0] = Ret (PyArray [fin 0]).
Proof.
  intros Hg Hmu Ht He HR Hlow.
  destruct (tau_ring_value self t [nu0] Hg Hmu Ht He HR) as [Hv _].
  cbn [map] in Hv. rewrite Hv.
  rewrite (ring_integral_below_threshold k self Hg Hmu t _ HR Hlow).
  cbn [fl_value fin]. do 3 f_equal. unfold fin. f_equal. apply Rmult_0_r.
Qed.

End Tau.

(** ** Concrete instances *)

Lemma mu_s_ex_range : -1 <= Blob.mu_s blob_ex <= 1.
Proof. project. lra. Qed.

Lemma torus_ex_well_formed : ring_well_formed torus_ex.
Proof. unfold ring_well_formed. project. repeat split; lra. Qed.

Lemma blr_ex_well_formed_parts :
  0 <= SphericalShellBLR.xi_line blr_ex /\
  0 <= SphericalShellBLR.L_disk blr_ex /\
  0 < SphericalShellBLR.epsilon_line blr_ex /\
  0 < SphericalShellBLR.R_line blr_ex.
Proof. project. repeat split; lra. Qed.

Lemma r_out_in_range : 0 < r_out < 3000 * Const.pc cgs.
Proof. unfold r_out. project. split; lra. Qed.

(** The samples of a weakly increasing grid are at or above the first. *)
Lemma fin_increasing_lower (g : array) (a : R) :
  fin_increasing g -> hd_error g = Some (fin a) ->
  forall lv : R, In (fin lv) g -> a <= lv.
Proof.
  revert a. induction g as [| x g IH]; intros a Hinc Hhd lv Hin;
    [destruct Hin |].
  cbn in Hhd. injection Hhd as ->.
  destruct Hin as [E | Hin]; [injection E as <-; lra |].
  destruct g as [| y g]; [destruct Hin |].
  destruct Hinc as [(u & v & Eu & Ev & Huv) Hrest].
  injection Eu as <-. subst y.
  pose proof (IH v Hrest eq_refl lv Hin). lra.
Qed.

Lemma constructed_l_lower (k : Const.t) (blob0 : Blob.t) (target0 : target)
    (r0 : R) :
  0 < r0 < 3000 * Const.pc k ->
  forall lv : R, In (fin lv) (l (constructed k blob0 target0 r0)) -> r0 <= lv.
Proof.
  intros Hr.
  destruct (constructed_invariant k blob0 target0 r0 Hr) as (_ & _ & Hl).
  destruct (log_grid_facts _ _ _ _ Hl) as [Hinc _].
  destruct Hl as (_ & _ & Hhd & _).
  apply fin_increasing_lower; assumption.
Qed.

(** With the blob at [r_out], beyond the broad-line region, no
    path-length sample lies on the shell. *)
Lemma blr_ex_well_formed_at_r_out (target0 : target) :
  shell_well_formed (constructed cgs blob_ex target0 r_out) blr_ex.
Proof.
  destruct blr_ex_well_formed_parts as (H1 & H2 & H3 & H4).
  repeat (split; [assumption |]).
  intros Hin.
  pose proof (constructed_l_lower cgs blob_ex target0 r_out r_out_in_range
                _ Hin) as Hle.
  unfold r_out in Hle. revert Hle. project. lra.
Qed.

(** The dimensionless energy of a 1e27 Hz photon for the blob of the
    scene (redshift 0.1). *)
Lemma epsilon_ex_bounds (self : Absorption) :
  blob self = blob_ex -> 8e6 <= epsilon_of cgs self 1e27 <= 1e7.
Proof.
  intros Hb. unfold epsilon_of, mec2. rewrite Hb. project. split; lra.
Qed.

(** The 14th azimuth of the constructor's grid, 26 pi / 49, lies in the
    half turn where the cosine is not positive. *)
Lemma constructed_phi_sample (k : Const.t) (blob0 : Blob.t)
    (target0 : target) (r0 : R) :
  In (fin (26 * PI / 49)) (phi (constructed k blob0 target0 r0)) /\
  cos (26 * PI / 49) <= 0.
Proof.
  pose proof PI_RGT_0 as Hpi. split.
  - unfold constructed. cbn [phi].
    apply (nth_error_In _ 13).
    rewrite lin_samples_nth by (change (Z.to_nat 50) with 50%nat; lia).
    do 2 f_equal. rewrite (INR_IZR_INZ 13). cbn [Z.of_nat Pos.of_succ_nat Pos.succ].
    field.
  - apply cos_le_0; lra.
Qed.

Section TauPositive.
Variable k : Const.t.
Variable uninit : nat -> nat -> fl.
Hypothesis k_pos : positive_constants k.
Variable self : Absorption.
Hypothesis grids : grid_invariant k self.

Lemma scaled_pos (xi L D I0 : R) :
  0 < xi -> 0 < L -> 0 < D -> 0 < I0 -> 0 < xi * L / D * I0.
Proof.
  intros Hxi HL HD HI.
  apply Rmult_lt_0_compat; [| exact HI].
  apply Rmult_lt_0_compat; [apply Rmult_lt_0_compat; assumption |].
  apply Rinv_0_lt_compat. exact HD.
Qed.

(** Above the threshold the optical depth of the ring is strictly
    positive. *)
Lemma tau_ring_pos (t : RingDustTorus.t) (nu0 p0 : R) :
  0 <= Blob.mu_s (blob self) <= 1 ->
  target_ self = IsRingDustTorus t ->
  0 < RingDustTorus.xi_dt t -> 0 < RingDustTorus.L_disk t ->
  0 < RingDustTorus.epsilon_dt t -> 0 < RingDustTorus.R_dt t ->
  In (fin p0) (phi self) -> cos p0 <= 0 ->
  1 < epsilon_of k self nu0 * RingDustTorus.epsilon_dt t
      * (1 - Blob.mu_s (blob self)) / 2 ->
  exists v : R,
    tau k uninit self [fin nu0] = Ret (PyArray [fin v]) /\ 0 < v.
Proof.
  intros Hmu Ht Hxi HL He HR Hp0 Hcos Hs.
  destruct (tau_ring_value k uninit k_pos self t [nu0] grids
              ltac:(lra) Ht He HR) as [Hv _].
  cbn [map] in Hv. rewrite Hv.
  destruct (ring_integral_pos k k_pos self grids t _ p0 Hmu HR Hp0 Hcos Hs)
    as (v & Hvv & Hvpos).
  rewrite Hvv. cbn [fl_value fin]. eexists. split; [reflexivity |].
  apply scaled_pos; try assumption.
  apply (ec_denominator_pos k k_pos). exact He.
Qed.

(** Above the threshold, with every path-length sample beyond the
    shell, the optical depth of the shell is strictly positive. *)
Lemma tau_shell_pos (b : SphericalShellBLR.t) (nu0 : R) :
  -1 <= Blob.mu_s (blob self) <= 1 ->
  target_ self = IsSphericalShellBLR b ->
  0 < SphericalShellBLR.xi_line b -> 0 < SphericalShellBLR.L_disk b ->
  0 < SphericalShellBLR.epsilon_line b -> 0 < SphericalShellBLR.R_line b ->
  (forall lv : R, In (fin lv) (l self) -> SphericalShellBLR.R_line b < lv) ->
  1 < epsilon_of k self nu0 * SphericalShellBLR.epsilon_line b
      * (1 - Blob.mu_s (blob self)) / 2 ->
  exists v : R,
    tau k uninit self [fin nu0] = Ret (PyArray [fin v]) /\ 0 < v.
Proof.
  intros Hmu Ht Hxi HL He HR Hout Hs.
  assert (Hoff : ~ In (fin (SphericalShellBLR.R_line b)) (l self)).
  { intros Hin. pose proof (Hout _ Hin). lra. }
  destruct (tau_shell_value k uninit k_pos self b [nu0] grids
              Hmu Ht He HR Hoff) as [Hv _].
  cbn [map] in Hv. rewrite Hv.
  destruct (shell_integral_pos k k_pos self grids b _ Hmu HR Hout Hs)
    as (v & Hvv & Hvpos).
  rewrite Hvv. cbn [fl_value fin]. eexists. split; [reflexivity |].
  apply scaled_pos; try assumption.
  apply (ec_denominator_pos k k_pos). exact He.
Qed.

End TauPositive.

Lemma tau_shell_ring_finite_nonneg_witness :
  (exists F : R -> R,
     (forall nu0 : R, 0 <= F nu0) /\
     tau cgs (fun _ _ => fin 0)
         (constructed cgs blob_ex (IsSphericalShellBLR blr_ex) r_out)
         (map fin [1e27]) =
     Ret (PyArray (map (fun nu0 => fin (F nu0)) [1e27]))) /\
  (exists F : R -> R,
     (forall nu0 : R, 0 <= F nu0) /\
     tau cgs (fun _ _ => fin 0)
         (constructed cgs blob_ex (IsRingDustTorus torus_ex) r_ex)
         (map fin [1e27]) =
     Ret (PyArray (map (fun nu0 => fin (F nu0)) [1e27]))).
Proof.
  split.
  - apply (tau_shell_ring_finite_nonneg cgs (fun _ _ => fin 0) cgs_positive
             (constructed cgs blob_ex (IsSphericalShellBLR blr_ex) r_out)
             [1e27]).
    + exact r_out_in_range.
    + apply constructed_grids_of_setters; [project; lra | unfold r_out; lra].
    + exact mu_s_ex_range.
    + cbn [target_ constructed].
      split; [apply blr_ex_well_formed_at_r_out |].
      intros nu0 [<- | []].
      pose proof (epsilon_ex_bounds
                    (constructed cgs blob_ex (IsSphericalShellBLR blr_ex) r_out)
                    eq_refl) as [_ Hup].
      set (e := epsilon_of _ _ _) in *. project. lra.
  - apply (tau_shell_ring_finite_nonneg cgs (fun _ _ => fin 0) cgs_positive
             (constructed cgs blob_ex (IsRingDustTorus torus_ex) r_ex)
             [1e27]).
    + exact r_ex_in_range.
    + apply constructed_grids_of_setters; [project; lra | unfold r_ex; lra].
    + exact mu_s_ex_range.
    + cbn [target_ constructed].
      split; [exact torus_ex_well_formed |].
      intros nu0 [<- | []].
      pose proof (epsilon_ex_bounds
                    (constructed cgs blob_ex (IsRingDustTorus torus_ex) r_ex)
                    eq_refl) as [_ Hup].
      set (e := epsilon_of _ _ _) in *. project. lra.
Defined.

Lemma singleton_of_map_fin (ts : list R) (v : R) :
  map fin ts = [fin v] -> ts = [v].
Proof.
  destruct ts as [| t0 [| t1 ts]]; cbn [map]; intros E;
    try discriminate.
  injection E as ->. reflexivity.
Qed.

Lemma tau_monotone_in_xi_witness :
  (exists t1 t2 : R,
     tau cgs (fun _ _ => fin 0)
         (with_target (constructed cgs blob_ex OtherTarget r_out)
            (IsSphericalShellBLR (with_xi_line blr_ex 0.024)))
         [fin 1e27] = Ret (PyArray [fin t1]) /\
     tau cgs (fun _ _ => fin 0)
         (with_target (constructed cgs blob_ex OtherTarget r_out)
            (IsSphericalShellBLR (with_xi_line blr_ex 0.048)))
         [fin 1e27] = Ret (PyArray [fin t2]) /\
     0 <= t1 < t2) /\
  (exists t1 t2 : R,
     tau cgs (fun _ _ => fin 0)
         (with_target (constructed cgs blob_ex OtherTarget r_out)
            (IsRingDustTorus (with_xi_dt torus_ex 0.1)))
         [fin 1e27] = Ret (PyArray [fin t1]) /\
     tau cgs (fun _ _ => fin 0)
         (with_target (constructed cgs blob_ex OtherTarget r_out)
            (IsRingDustTorus (with_xi_dt torus_ex 0.2)))
         [fin 1e27] = Ret (PyArray [fin t2]) /\
     0 <= t1 < t2).
Proof.
  set (self := constructed cgs blob_ex OtherTarget r_out).
  pose proof (constructed_invariant cgs blob_ex OtherTarget r_out
                r_out_in_range) as Hg.
  fold self in Hg.
  assert (Hgs : grids_of_setters cgs self).
  { apply constructed_grids_of_setters; [project; lra | unfold r_out; lra]. }
  pose proof (epsilon_ex_bounds self eq_refl) as [Hlow Hup].
  split.
  - destruct (tau_monotone_in_xi cgs (fun _ _ => fin 0) cgs_positive
                self [1e27] 0.024 0.048 r_out_in_range Hgs mu_s_ex_range
                ltac:(lra))
      as [Hshell _].
    destruct (Hshell blr_ex (blr_ex_well_formed_at_r_out OtherTarget))
      as (taus1 & taus2 & E1 & E2 & HF).
    { intros nu0 [<- | []].
      set (e := epsilon_of cgs self 1e27) in *. project. lra. }
    destruct (tau_shell_pos cgs (fun _ _ => fin 0) cgs_positive
                (with_target self
                   (IsSphericalShellBLR (with_xi_line blr_ex 0.048)))
                Hg (with_xi_line blr_ex 0.048) 1e27)
      as (v & P2 & Hv).
    + exact mu_s_ex_range.
    + reflexivity.
    + project. lra.
    + project. lra.
    + project. lra.
    + project. lra.
    + intros lv Hin.
      pose proof (constructed_l_lower cgs blob_ex OtherTarget r_out
                    r_out_in_range lv Hin) as Hle.
      unfold r_out in Hle. revert Hle. project. lra.
    + change (epsilon_of cgs
                (with_target self
                   (IsSphericalShellBLR (with_xi_line blr_ex 0.048))) 1e27)
        with (epsilon_of cgs self 1e27).
      cbn [blob with_target]. change (blob self) with blob_ex.
      set (e := epsilon_of cgs self 1e27) in *. project. lra.
    + cbn [map] in E2. rewrite P2 in E2. injection E2 as E2.
      symmetry in E2. apply singleton_of_map_fin in E2. subst taus2.
      inversion HF as [| t1 t2 l1 l2 HP Hrest]; subst.
      inversion Hrest; subst.
      exists t1, v. cbn [map] in E1.
      split; [exact E1 |]. split; [exact P2 |].
      destruct HP as [H01 Hiff]. split; [lra |]. apply Hiff. lra.
  - destruct (tau_monotone_in_xi cgs (fun _ _ => fin 0) cgs_positive
                self [1e27] 0.1 0.2 r_out_in_range Hgs mu_s_ex_range
                ltac:(lra))
      as [_ Hring].
    destruct (Hring torus_ex torus_ex_well_formed)
      as (taus1 & taus2 & E1 & E2 & HF).
    { intros nu0 [<- | []].
      set (e := epsilon_of cgs self 1e27) in *. project. lra. }
    destruct (constructed_phi_sample cgs blob_ex OtherTarget r_out)
      as [Hp0 Hcos].
    destruct (tau_ring_pos cgs (fun _ _ => fin 0) cgs_positive
                (with_target self
                   (IsRingDustTorus (with_xi_dt torus_ex 0.2)))
                Hg (with_xi_dt torus_ex 0.2) 1e27 (26 * PI / 49))
      as (v & P2 & Hv).
    + change (0 <= Blob.mu_s blob_ex <= 1). project. lra.
    + reflexivity.
    + project. lra.
    + project. lra.
    + project. lra.
    + project. lra.
    + exact Hp0.
    + exact Hcos.
    + change (epsilon_of cgs
                (with_target self
                   (IsRingDustTorus (with_xi_dt torus_ex 0.2))) 1e27)
        with (epsilon_of cgs self 1e27).
      cbn [blob with_target]. change (blob self) with blob_ex.
      set (e := epsilon_of cgs self 1e27) in *. project. lra.
    + cbn [map] in E2. rewrite P2 in E2. injection E2 as E2.
      symmetry in E2. apply singleton_of_map_fin in E2. subst taus2.
      inversion HF as [| t1 t2 l1 l2 HP Hrest]; subst.
      inversion Hrest; subst.
      exists t1, v. cbn [map] in E1.
      split; [exact E1 |]. split; [exact P2 |].
      destruct HP as [H01 Hiff]. split; [lra |]. apply Hiff. lra.
Defined.

(** On the shell itself the distance [x] to the point of the shell on
    the axis is 0 and its inverse square is not finite. *)
Lemma shell_integrand_on_shell (k : Const.t) (self : Absorption)
    (b : SphericalShellBLR.t) (_phi _epsilon_1 : fl) :
  shell_integrand k self b (fin 1) _phi (fin (SphericalShellBLR.R_line b))
                  _epsilon_1 = None.
Proof.
  unfold shell_integrand.
  set (R0 := SphericalShellBLR.R_line b).
  assert (Hx : x_re_shell (fin 1) (fin R0) (fin R0) = fin 0).
  { unfold x_re_shell. rewrite !fpow_nat by lia.
    change (Z.to_nat 2) with 2%nat.
    rewrite !fmul_fin, fadd_fin, fsub_fin.
    replace (R0 ^ 2 + R0 ^ 2 - 2 * R0 * R0 * 1) with 0 by ring.
    rewrite fsqrt_fin by lra. rewrite sqrt_0. reflexivity. }
  rewrite Hx. rewrite fpow_neg_zero by lia.
  rewrite fmul_None_r. reflexivity.
Qed.

Lemma shell_integral_on_shell (k : Const.t) (self : Absorption)
    (b : SphericalShellBLR.t) (_epsilon_1 : fl) :
  grid_invariant k self ->
  r self = SphericalShellBLR.R_line b ->
  shell_integral k self b _epsilon_1 = None.
Proof.
  intros (Hmu & Hphi & Hl) Hr.
  destruct Hmu as (Hn1 & Hlen1 & _ & Hlast1 & _).
  destruct Hphi as (Hn2 & Hlen2 & Hhd2 & _).
  destruct Hl as (Hn3 & Hlen3 & Hhd3 & _).
  unfold shell_integral.
  apply trapz_map_nan; [lia |].
  exists (fin (SphericalShellBLR.R_line b)). split.
  { apply hd_error_In. rewrite Hhd3, Hr. reflexivity. }
  apply trapz_map_nan; [lia |].
  exists (fin 0). split; [apply hd_error_In; exact Hhd2 |].
  apply trapz_map_nan; [lia |].
  exists (fin 1). split.
  { rewrite <- Hlast1. apply last_In.
    intros E. rewrite E in Hlen1. simpl in Hlen1. lia. }
  apply shell_integrand_on_shell.
Qed.

(** C4 as stated fails on a supported target: with the blob on the
    broad-line shell ([r = R_line = 1e17 cm]) the constructor returns,
    and [tau] at 1e26 Hz returns one value that is not finite. *)
Lemma tau_shell_on_the_shell_is_not_finite :
  Absorption_new cgs blob_ex (IsSphericalShellBLR blr_ex) 1e17 =
    Ret (constructed cgs blob_ex (IsSphericalShellBLR blr_ex) 1e17) /\
  tau cgs (fun _ _ => fin 0)
      (constructed cgs blob_ex (IsSphericalShellBLR blr_ex) 1e17)
      [fin 1e26] = Ret (PyArray [None]).
Proof.
  split.
  - apply Absorption_new_run; [project; lra | lra].
  - unfold tau. cbn [target_ constructed].
    rewrite opacity_shell_blr_parts. unfold epsilon_1_of. cbn [map].
    rewrite shell_integral_on_shell.
    + rewrite fmul_None_r. reflexivity.
    + apply constructed_invariant. project. split; lra.
    + reflexivity.
Qed.

(** C7 as stated fails below threshold: at 1e20 Hz every grid point of
    the ring has [s < 1], and [tau] is 0 with the covering fraction 0.1
    and still 0 with 0.2. *)
Lemma tau_ring_flat_below_threshold :
  RingDustTorus.xi_dt torus_ex < 0.2 /\
  tau cgs (fun _ _ => fin 0)
      (constructed cgs blob_ex (IsRingDustTorus torus_ex) r_ex)
      [fin 1e20] = Ret (PyArray [fin 0]) /\
  tau cgs (fun _ _ => fin 0)
      (constructed cgs blob_ex (IsRingDustTorus (with_xi_dt torus_ex 0.2))
         r_ex)
      [fin 1e20] = Ret (PyArray [fin 0]).
Proof.
  assert (Hlow : 0 <= 6.62607015e-27 * 1e20
                      / (9.1093837015e-28 * (29979245800 * 29979245800))
                      * (1 + 0.1) * 5e-7 < 1).
  { split; lra. }
  split; [project; lra |].
  split.
  - apply (tau_ring_below_threshold cgs (fun _ _ => fin 0) cgs_positive
             _ torus_ex 1e20).
    + apply constructed_invariant. exact r_ex_in_range.
    + exact mu_s_ex_range.
    + reflexivity.
    + project. lra.
    + project. lra.
    + exact Hlow.
  - apply (tau_ring_below_threshold cgs (fun _ _ => fin 0) cgs_positive
             _ (with_xi_dt torus_ex 0.2) 1e20).
    + apply constructed_invariant. exact r_ex_in_range.
    + exact mu_s_ex_range.
    + reflexivity.
    + project. lra.
    + project. lra.
    + exact Hlow.
Qed.

(* ================================================================== *)
(** * Further properties of [absorption.py] *)

(** ** The setters on any size *)

Section SettersMore.
Variable k : Const.t.

(** X1.  Called with a size that is not negative, each setter returns
    normally, records the size and leaves its grid with exactly that many
    samples, whatever the distance [r] of the object. *)
Theorem setters_grid_length (self : Absorption) (size : Z) :
  (0 <= size)%Z ->
  (exists self' : Absorption,
     set_mu size self = (Ret tt, self') /\
     mu_size self' = size /\ length (mu self') = Z.to_nat size) /\
  (exists self' : Absorption,
     set_phi size self = (Ret tt, self') /\
     phi_size self' = size /\ length (phi self') = Z.to_nat size) /\
  (exists self' : Absorption,
     set_l k size self = (Ret tt, self') /\
     l_size self' = size /\ length (l self') = Z.to_nat size).
Proof.
  intros Hn. split; [| split].
  - destruct (linspace_length (fin (-1)) (fin 1) size Hn) as (g & Hg & Hlen).
    eexists. split; [apply set_mu_run; exact Hg |].
    split; [reflexivity | exact Hlen].
  - destruct (linspace_length (fin 0) (fin (2 * PI)) size Hn)
      as (g & Hg & Hlen).
    eexists. split; [apply set_phi_run; exact Hg |].
    split; [reflexivity | exact Hlen].
  - destruct (logspace_length (flog10 (fin (r self)))
                (flog10 (fin (3000 * Const.pc k))) size Hn)
      as (g & Hg & Hlen).
    eexists. split; [apply set_l_run; exact Hg |].
    split; [reflexivity | exact Hlen].
Qed.

Lemma linspace_negative (a b : fl) (num : Z) :
  (num < 0)%Z -> linspace a b num = Raise ValueError.
Proof.
  intros Hn. unfold linspace.
  destruct (num <? 0)%Z eqn:E; [reflexivity | apply Z.ltb_ge in E; lia].
Qed.

(** X2.  Called with a negative size, each setter raises ValueError
    after it has recorded the size: the size attribute is the negative
    number and the grid is the one of before the call. *)
Theorem setters_negative_size (self : Absorption) (size : Z) :
  (size < 0)%Z ->
  (fst (set_mu size self) = Raise ValueError /\
   mu_size (snd (set_mu size self)) = size /\
   mu (snd (set_mu size self)) = mu self) /\
  (fst (set_phi size self) = Raise ValueError /\
   phi_size (snd (set_phi size self)) = size /\
   phi (snd (set_phi size self)) = phi self) /\
  (fst (set_l k size self) = Raise ValueError /\
   l_size (snd (set_l k size self)) = size /\
   l (snd (set_l k size self)) = l self).
Proof.
  intros Hn. split; [| split].
  - unfold set_mu, mbind, set_attr_mu_size, getself, call, set_attr_mu.
    cbn [mu_size]. rewrite linspace_negative by exact Hn.
    repeat split.
  - unfold set_phi, mbind, set_attr_phi_size, getself, call, set_attr_phi.
    cbn [phi_size]. rewrite linspace_negative by exact Hn.
    repeat split.
  - unfold set_l, mbind, set_attr_l_size, getself, call, set_attr_l.
    cbn [l_size r]. unfold logspace.
    rewrite linspace_negative by exact Hn.
    repeat split.
Qed.

End SettersMore.

Lemma setters_grid_length_witness :
  exists self' : Absorption,
    set_mu 0 (constructed cgs blob_ex OtherTarget r_ex) = (Ret tt, self') /\
    mu_size self' = 0%Z /\ length (mu self') = Z.to_nat 0.
Proof.
  apply (setters_grid_length cgs (constructed cgs blob_ex OtherTarget r_ex) 0).
  lia.
Defined.

Lemma setters_negative_size_witness :
  fst (set_mu (-1) (constructed cgs blob_ex OtherTarget r_ex))
  = Raise ValueError.
Proof.
  apply (setters_negative_size cgs
           (constructed cgs blob_ex OtherTarget r_ex) (-1)).
  lia.
Defined.

(** ** Setters in sequence *)

Section SettersCompose.
Variable k : Const.t.

(** X3.  With sizes that are not negative, calling a setter twice leaves
    what the second call alone leaves, and two setters of different
    grids leave the same object in either order. *)
Theorem setters_compose (self : Absorption) (a b : Z) :
  (0 <= a)%Z -> (0 <= b)%Z ->
  mbind (set_mu a) (fun _ => set_mu b) self = set_mu b self /\
  mbind (set_phi a) (fun _ => set_phi b) self = set_phi b self /\
  mbind (set_l k a) (fun _ => set_l k b) self = set_l k b self /\
  mbind (set_mu a) (fun _ => set_phi b) self
  = mbind (set_phi b) (fun _ => set_mu a) self /\
  mbind (set_mu a) (fun _ => set_l k b) self
  = mbind (set_l k b) (fun _ => set_mu a) self /\
  mbind (set_phi a) (fun _ => set_l k b) self
  = mbind (set_l k b) (fun _ => set_phi a) self.
Proof.
  intros Ha Hb.
  destruct (linspace_length (fin (-1)) (fin 1) a Ha) as (ma & Hma & _).
  destruct (linspace_length (fin (-1)) (fin 1) b Hb) as (mb & Hmb & _).
  destruct (linspace_length (fin 0) (fin (2 * PI)) a Ha) as (pa & Hpa & _).
  destruct (linspace_length (fin 0) (fin (2 * PI)) b Hb) as (pb & Hpb & _).
  destruct (logspace_length (flog10 (fin (r self)))
              (flog10 (fin (3000 * Const.pc k))) a Ha) as (la & Hla & _).
  destruct (logspace_length (flog10 (fin (r self)))
              (flog10 (fin (3000 * Const.pc k))) b Hb) as (lb & Hlb & _).
  unfold mbind.
  rewrite !(set_mu_run self a ma Hma), !(set_mu_run self b mb Hmb).
  rewrite !(set_phi_run self a pa Hpa), !(set_phi_run self b pb Hpb).
  rewrite !(set_l_run k self a la Hla), !(set_l_run k self b lb Hlb).
  repeat split.
  - rewrite (set_mu_run _ b mb Hmb). reflexivity.
  - rewrite (set_phi_run _ b pb Hpb). reflexivity.
  - erewrite set_l_run; [reflexivity | exact Hlb].
  - rewrite (set_phi_run _ b pb Hpb), (set_mu_run _ a ma Hma). reflexivity.
  - rewrite (set_mu_run _ a ma Hma).
    erewrite set_l_run; [reflexivity | exact Hlb].
  - rewrite (set_phi_run _ a pa Hpa).
    erewrite set_l_run; [reflexivity | exact Hlb].
Qed.

End SettersCompose.

Lemma setters_compose_witness :
  mbind (set_mu 3) (fun _ => set_mu 5)
        (constructed cgs blob_ex OtherTarget r_ex)
  = set_mu 5 (constructed cgs blob_ex OtherTarget r_ex).
Proof.
  apply (setters_compose cgs (constructed cgs blob_ex OtherTarget r_ex) 3 5);
    lia.
Defined.

(** ** [tau] on an empty array of frequencies *)

(** X4.  On each of the three supported targets, the disk included,
    [tau] of an empty array of frequencies returns an empty array and
    raises nothing. *)
Theorem tau_empty_frequencies
    (k : Const.t) (uninit : nat -> nat -> fl) (self : Absorption) :
  target_ self <> OtherTarget ->
  tau k uninit self [] = Ret (PyArray []).
Proof.
  intros Ht. unfold tau.
  destruct (target_ self); [reflexivity | reflexivity | reflexivity |].
  contradiction.
Qed.

Lemma tau_empty_frequencies_witness :
  tau cgs (fun _ _ => fin 0)
      (constructed cgs blob_ex (IsRingDustTorus torus_ex) r_ex) []
  = Ret (PyArray []).
Proof.
  apply (tau_empty_frequencies cgs (fun _ _ => fin 0)
           (constructed cgs blob_ex (IsRingDustTorus torus_ex) r_ex)).
  discriminate.
Defined.

(** ** The disk integrator on any numbers of frequencies and path lengths *)

Lemma setitem_other (a a' : array) (j : nat) (v : fl) :
  setitem a j v = Ret a' ->
  forall q : nat, q <> j -> nth_error a' q = nth_error a q.
Proof.
  revert a' j. induction a as [| x a IH]; intros a' j H q Hq;
    [discriminate |].
  destruct j as [| j].
  - cbn in H. injection H as <-. destruct q as [| q]; [lia | reflexivity].
  - cbn [setitem] in H.
    destruct (setitem a j v) as [b |] eqn:E; [| discriminate].
    injection H as <-. destruct q as [| q]; [reflexivity |].
    cbn [nth_error]. apply (IH b j E). lia.
Qed.

Lemma epsilon_1_of_length (k : Const.t) (self : Absorption) (nu : array) :
  length (epsilon_1_of k self nu) = length nu.
Proof. unfold epsilon_1_of. rewrite !length_map. reflexivity. Qed.

Section DiskLoops.
Variable k : Const.t.
Variable uninit : nat -> nat -> fl.
Variable self : Absorption.
Variable d : SSDisk.t.

Lemma opacity_disk_loops (nu : array) :
  _opacity_disk k uninit self d nu =
  obind
    (for_each (enumerate (epsilon_1_of k self nu))
       (disk_outer_body k uninit self d)
       (np_empty (uninit 0%nat) (length (epsilon_1_of k self nu)), None))
    (fun st => Ret (sc_mul (disk_prefactor k d) (fst st))).
Proof.
  unfold _opacity_disk, disk_outer_body, disk_inner_body, disk_prefactor.
  destruct (for_each _ _ _) as [[integral j] |]; reflexivity.
Qed.

Lemma disk_inner_in_range (i : nat) (e : fl) (ls : array) (n0 : nat)
    (a : array) (j0 : option nat) :
  (i < length a)%nat ->
  exists a' : array,
    for_each (enumerate_from n0 ls) (disk_inner_body k self d i e) (a, j0)
    = Ret (a', match ls with
               | [] => j0
               | _ :: _ => Some (n0 + length ls - 1)%nat
               end) /\
    length a' = length a.
Proof.
  intros Hi.
  exact (inner_loop_in_range (disk_integral_phi k self d e) i ls n0 a j0 Hi).
Qed.

Lemma disk_inner_out_of_range (i : nat) (e x : fl) (ls : array) (n0 : nat)
    (a : array) (j0 : option nat) :
  (length a <= i)%nat ->
  for_each (enumerate_from n0 (x :: ls)) (disk_inner_body k self d i e)
           (a, j0)
  = Raise IndexError.
Proof.
  intros Hi. cbn [enumerate_from for_each]. unfold disk_inner_body at 1.
  rewrite setitem_out_of_range by exact Hi. reflexivity.
Qed.

(** One pass of the outer loop with the frequency index inside the
    path-length grid and the last path-length index inside [integral]. *)
Lemma disk_outer_body_runs (i : nat) (e : fl) (integral : array)
    (j : option nat) :
  (i < length (l self))%nat ->
  (length (l self) - 1 < length integral)%nat ->
  exists integral' : array,
    disk_outer_body k uninit self d (i, e) (integral, j)
    = Ret (integral', Some (length (l self) - 1)%nat) /\
    length integral' = length integral /\
    forall q : nat, q <> (length (l self) - 1)%nat ->
      nth_error integral' q = nth_error integral q.
Proof.
  intros Hi Hj. unfold disk_outer_body.
  destruct (disk_inner_in_range i e (l self) 0
              (np_empty (uninit (S i)) (length (l self))) j)
    as (a' & Ha' & Hlen').
  { rewrite np_empty_length. exact Hi. }
  unfold enumerate. rewrite Ha'. cbn [obind].
  destruct (l self) as [| x ls] eqn:El; [simpl in Hi; lia |].
  cbn [Nat.add] in *.
  destruct (setitem_in_range integral (length (x :: ls) - 1)
              (trapz a' (x :: ls)) Hj) as (b & Hb & Hlenb).
  rewrite Hb. cbn [obind]. exists b.
  split; [reflexivity |]. split; [exact Hlenb |].
  intros q Hq. apply (setitem_other _ _ _ _ Hb). exact Hq.
Qed.

Lemma disk_outer_body_store_fails (i : nat) (e : fl) (integral : array)
    (j : option nat) :
  (i < length (l self))%nat ->
  (length integral <= length (l self) - 1)%nat ->
  disk_outer_body k uninit self d (i, e) (integral, j) = Raise IndexError.
Proof.
  intros Hi Hj. unfold disk_outer_body.
  destruct (disk_inner_in_range i e (l self) 0
              (np_empty (uninit (S i)) (length (l self))) j)
    as (a' & Ha' & Hlen').
  { rewrite np_empty_length. exact Hi. }
  unfold enumerate. rewrite Ha'. cbn [obind].
  destruct (l self) as [| x ls] eqn:El; [simpl in Hi; lia |].
  cbn [Nat.add] in *.
  rewrite setitem_out_of_range by exact Hj. reflexivity.
Qed.

Lemma disk_outer_body_inner_fails (i : nat) (e : fl) (integral : array)
    (j : option nat) :
  l self <> [] ->
  (length (l self) <= i)%nat ->
  disk_outer_body k uninit self d (i, e) (integral, j) = Raise IndexError.
Proof.
  intros Hne Hi. unfold disk_outer_body.
  destruct (l self) as [| x ls] eqn:El; [contradiction |].
  unfold enumerate. rewrite disk_inner_out_of_range; [reflexivity |].
  rewrite np_empty_length. exact Hi.
Qed.

Lemma disk_outer_body_unbound (i : nat) (e : fl) (integral : array) :
  l self = [] ->
  disk_outer_body k uninit self d (i, e) (integral, None)
  = Raise UnboundLocalError.
Proof. intros El. unfold disk_outer_body. rewrite El. reflexivity. Qed.

(** The outer loop while the frequency indices stay inside the
    path-length grid: only cell [len(l) - 1] of [integral] changes. *)
Lemma disk_outer_loop_runs (es : array) :
  forall (i0 : nat) (integral : array) (j : option nat),
    (length (l self) - 1 < length integral)%nat ->
    (i0 + length es <= length (l self))%nat ->
    exists (integral' : array) (j' : option nat),
      for_each (enumerate_from i0 es) (disk_outer_body k uninit self d)
               (integral, j)
      = Ret (integral', j') /\
      length integral' = length integral /\
      forall q : nat, q <> (length (l self) - 1)%nat ->
        nth_error integral' q = nth_error integral q.
Proof.
  induction es as [| e es IH]; intros i0 integral j Hj Hi.
  - exists integral, j. repeat split.
  - cbn [enumerate_from for_each]. cbn [length] in Hi.
    destruct (disk_outer_body_runs i0 e integral j) as (b & Hb & Hlen & Hsame);
      [lia | exact Hj |].
    rewrite Hb. cbn [obind].
    destruct (IH (S i0) b (Some (length (l self) - 1)%nat))
      as (c & j' & Hc & Hlenc & Hsamec); [lia | lia |].
    exists c, j'. split; [exact Hc |]. split; [lia |].
    intros q Hq. rewrite Hsamec by exact Hq. apply Hsame. exact Hq.
Qed.

(** The outer loop when a frequency index reaches the end of the
    path-length grid. *)
Lemma disk_outer_loop_overruns (es : array) :
  forall (i0 : nat) (integral : array) (j : option nat),
    l self <> [] ->
    (length (l self) - 1 < length integral)%nat ->
    (i0 <= length (l self))%nat ->
    (length (l self) < i0 + length es)%nat ->
    for_each (enumerate_from i0 es) (disk_outer_body k uninit self d)
             (integral, j)
    = Raise IndexError.
Proof.
  induction es as [| e es IH]; intros i0 integral j Hne Hj Hi0 Hover.
  - cbn [length] in Hover. lia.
  - cbn [enumerate_from for_each]. cbn [length] in Hover.
    destruct (Nat.eq_dec i0 (length (l self))) as [E | E].
    + rewrite disk_outer_body_inner_fails; [reflexivity | exact Hne | lia].
    + destruct (disk_outer_body_runs i0 e integral j)
        as (b & Hb & Hlen & _); [lia | exact Hj |].
      rewrite Hb. cbn [obind].
      apply IH; [exact Hne | lia | lia | lia].
Qed.

End DiskLoops.

Section DiskMore.
Variable k : Const.t.
Variable uninit : nat -> nat -> fl.

(** X5.  On a disk target, with at least one frequency and a number of
    frequencies different from the number of path-length samples, [tau]
    never returns: it raises UnboundLocalError when the path-length grid
    is empty (the variable [j] of the inner loop was never bound) and
    IndexError otherwise. *)
Theorem tau_disk_length_mismatch
    (self : Absorption) (d : SSDisk.t) (nu : array) :
  target_ self = IsSSDisk d ->
  nu <> [] ->
  length nu <> length (l self) ->
  tau k uninit self nu =
  Raise (match l self with
         | [] => UnboundLocalError
         | _ :: _ => IndexError
         end).
Proof.
  intros Ht Hnu Hlen. unfold tau. rewrite Ht, opacity_disk_loops.
  pose proof (epsilon_1_of_length k self nu) as Heps.
  destruct (epsilon_1_of k self nu) as [| e es] eqn:Ee.
  { destruct nu; [contradiction | discriminate]. }
  unfold enumerate.
  destruct (l self) as [| x ls] eqn:El.
  - cbn [enumerate_from for_each].
    rewrite disk_outer_body_unbound by exact El. reflexivity.
  - destruct (Nat.lt_ge_cases (length nu) (length (x :: ls))) as [Hlt | Hge].
    + cbn [enumerate_from for_each].
      rewrite disk_outer_body_store_fails; [reflexivity | |].
      * rewrite El. simpl. lia.
      * rewrite np_empty_length, El, Heps. lia.
    + rewrite disk_outer_loop_overruns; [reflexivity | | | |].
      * rewrite El. discriminate.
      * rewrite np_empty_length, El, Heps. simpl in *. lia.
      * lia.
      * rewrite El, Heps. simpl in *. lia.
Qed.

(** X6.  On a disk target, with as many frequencies as path-length
    samples (at least one), [tau] returns an array of that length of
    which only the last element was ever written: every other element is
    the prefactor times what [np.empty] left in that cell of
    [integral]. *)
Theorem tau_disk_equal_lengths
    (self : Absorption) (d : SSDisk.t) (nu : array) :
  target_ self = IsSSDisk d ->
  nu <> [] ->
  length nu = length (l self) ->
  exists a : array,
    tau k uninit self nu = Ret (PyArray a) /\
    length a = length nu /\
    forall i : nat, (S i < length nu)%nat ->
      nth_error a i = Some (disk_prefactor k d * uninit 0%nat i)%fl.
Proof.
  intros Ht Hnu Hlen. unfold tau. rewrite Ht, opacity_disk_loops.
  pose proof (epsilon_1_of_length k self nu) as Heps.
  assert (Hpos : (1 <= length nu)%nat).
  { destruct nu; [contradiction | simpl; lia]. }
  unfold enumerate.
  destruct (disk_outer_loop_runs k uninit self d (epsilon_1_of k self nu) 0
              (np_empty (uninit 0%nat) (length (epsilon_1_of k self nu)))
              None)
    as (integral' & j' & Hrun & Hlen' & Hsame).
  { rewrite np_empty_length, Heps. lia. }
  { rewrite Heps. lia. }
  rewrite Hrun. cbn [obind fst].
  eexists. split; [reflexivity |].
  rewrite np_empty_length, Heps in Hlen'.
  split.
  - unfold sc_mul. rewrite length_map. exact Hlen'.
  - intros i Hi. unfold sc_mul. rewrite nth_error_map.
    rewrite Hsame by lia.
    unfold np_empty.
    rewrite (nth_error_map_seq (uninit 0%nat)) by (rewrite Heps; lia).
    reflexivity.
Qed.

End DiskMore.

Lemma tau_disk_length_mismatch_witness :
  tau cgs (fun _ _ => fin 0)
      (constructed cgs blob_ex (IsSSDisk disk_ex) r_ex)
      [fin 1e26; fin 1e27]
  = Raise (match l (constructed cgs blob_ex (IsSSDisk disk_ex) r_ex) with
           | [] => UnboundLocalError
           | _ :: _ => IndexError
           end).
Proof.
  apply (tau_disk_length_mismatch cgs (fun _ _ => fin 0)
           (constructed cgs blob_ex (IsSSDisk disk_ex) r_ex) disk_ex
           [fin 1e26; fin 1e27]).
  - reflexivity.
  - discriminate.
  - cbn [l constructed]. rewrite log_samples_length.
    change (Z.to_nat 10) with 10%nat. cbn [length]. lia.
Defined.

Lemma tau_disk_equal_lengths_witness :
  exists a : array,
    tau cgs (fun _ _ => fin 0)
        (constructed cgs blob_ex (IsSSDisk disk_ex) r_ex)
        (repeat (fin 1e26) 10) = Ret (PyArray a) /\
    length a = length (repeat (fin 1e26) 10) /\
    forall i : nat, (S i < length (repeat (fin 1e26) 10))%nat ->
      nth_error a i = Some (disk_prefactor cgs disk_ex * fin 0)%fl.
Proof.
  apply (tau_disk_equal_lengths cgs (fun _ _ => fin 0)
           (constructed cgs blob_ex (IsSSDisk disk_ex) r_ex) disk_ex
           (repeat (fin 1e26) 10)).
  - reflexivity.
  - discriminate.
  - cbn [l constructed]. rewrite log_samples_length, repeat_length.
    reflexivity.
Defined.

(** ** Degenerate path-length grids *)

Section ShortGrid.
Variable k : Const.t.
Variable uninit : nat -> nat -> fl.
Hypothesis k_pos : positive_constants k.

Lemma trapz_map_short (f : fl -> fl) (x : array) :
  (length x <= 1)%nat -> trapz (map f x) x = fin 0.
Proof.
  intros Hx. destruct x as [| x0 [| x1 x]]; [reflexivity | reflexivity |].
  simpl in Hx. lia.
Qed.

(** X7.  With a path-length grid of one sample, or of none, the shell
    and ring integrators raise nothing: the quadrature over the path
    length is empty and [tau] is exactly 0 at every frequency, whatever
    the integrand. *)
Theorem tau_short_path_grid_is_zero (self : Absorption) (nu : array) :
  (length (l self) <= 1)%nat ->
  match target_ self with
  | IsSphericalShellBLR b => 0 < SphericalShellBLR.epsilon_line b
  | IsRingDustTorus t => 0 < RingDustTorus.epsilon_dt t
  | IsSSDisk _ | OtherTarget => False
  end ->
  tau k uninit self nu = Ret (PyArray (map (fun _ => fin 0) nu)).
Proof.
  intros Hl Ht. unfold tau.
  destruct (target_ self) as [d | b | t |]; try contradiction.
  - rewrite opacity_shell_blr_parts. unfold epsilon_1_of.
    rewrite !map_map. do 2 f_equal. apply map_ext. intros nu0.
    rewrite (ec_prefactor_fin k k_pos) by exact Ht.
    unfold shell_integral. rewrite trapz_map_short by exact Hl.
    rewrite fmul_fin. unfold fin. f_equal. apply Rmult_0_r.
  - rewrite opacity_ring_torus_parts. unfold epsilon_1_of.
    rewrite !map_map. do 2 f_equal. apply map_ext. intros nu0.
    rewrite (ec_prefactor_fin k k_pos) by exact Ht.
    unfold ring_integral. rewrite trapz_map_short by exact Hl.
    rewrite fmul_fin. unfold fin. f_equal. apply Rmult_0_r.
Qed.

End ShortGrid.

Lemma logspace_zero (a b : fl) : logspace a b 0 = Ret [].
Proof. reflexivity. Qed.

Lemma tau_short_path_grid_is_zero_witness :
  tau cgs (fun _ _ => fin 0)
      (snd (set_l cgs 0
              (constructed cgs blob_ex (IsRingDustTorus torus_ex) r_ex)))
      [fin 1e26]
  = Ret (PyArray (map (fun _ => fin 0) [fin 1e26])).
Proof.
  apply (tau_short_path_grid_is_zero cgs (fun _ _ => fin 0) cgs_positive
           (snd (set_l cgs 0
                   (constructed cgs blob_ex (IsRingDustTorus torus_ex) r_ex)))
           [fin 1e26]).
  - rewrite (set_l_run cgs _ 0 [] (logspace_zero _ _)).
    cbn [snd l length]. lia.
  - rewrite (set_l_run cgs _ 0 [] (logspace_zero _ _)).
    cbn [snd target_ constructed]. project. lra.
Defined.

(** ** What [tau] reads *)

Section Reads.
Variable k : Const.t.
Variable uninit : nat -> nat -> fl.

(** [tau] reads the frequencies and the redshift through the array of
    blueshifted dimensionless energies only. *)
Lemma tau_reads_epsilon_1 (self : Absorption) (z0 : R) (nu nu' : array) :
  epsilon_1_of k self nu = epsilon_1_of k (with_redshift self z0) nu' ->
  tau k uninit self nu = tau k uninit (with_redshift self z0) nu'.
Proof.
  intros He. unfold tau. cbn [target_ with_redshift].
  destruct (target_ self) as [d | b | t |]; [| | | reflexivity].
  - rewrite !opacity_disk_loops. rewrite <- He. reflexivity.
  - rewrite !opacity_shell_blr_parts. rewrite <- He. reflexivity.
  - rewrite !opacity_ring_torus_parts. rewrite <- He. reflexivity.
Qed.

(** X8.  The redshift enters [tau] as a blueshift of the frequencies and
    in no other way: on any target, [tau] at the frequencies [nu] for a
    blob at redshift [z] is [tau] at the frequencies [nu (1 + z)] for the
    same blob at redshift 0. *)
Theorem tau_redshift_is_blueshift (self : Absorption) (nus : list R) :
  positive_constants k ->
  tau k uninit self (map fin nus) =
  tau k uninit (with_redshift self 0)
      (map fin (map (fun nu0 => nu0 * (1 + Blob.z (blob self))) nus)).
Proof.
  intros Hk. apply tau_reads_epsilon_1.
  rewrite !(epsilon_1_of_fin k Hk), map_map.
  apply map_ext. intros nu0. unfold fin. f_equal.
  unfold epsilon_of. cbn [blob with_redshift Blob.z].
  field. pose proof (mec2_pos k Hk). lra.
Qed.

(** X9.  The ring and disk integrators never read the grid of cosines:
    on a target that is not the spherical shell, [tau] after a call of
    [set_mu], with any size and whether or not the call raised, is [tau]
    before it. *)
Theorem tau_ignores_mu_grid (self : Absorption) (size : Z) (nu : array) :
  (forall b : SphericalShellBLR.t, target_ self <> IsSphericalShellBLR b) ->
  tau k uninit (snd (set_mu size self)) nu = tau k uninit self nu.
Proof.
  intros Ht.
  unfold set_mu, mbind, set_attr_mu_size, getself, call, set_attr_mu.
  cbn [mu_size]. unfold tau.
  destruct (linspace _ _ size); cbn [snd target_];
    (destruct (target_ self) as [d | b | t |];
     [reflexivity | exfalso; apply (Ht b); reflexivity
      | reflexivity | reflexivity]).
Qed.

End Reads.

Lemma tau_redshift_is_blueshift_witness :
  tau cgs (fun _ _ => fin 0)
      (constructed cgs blob_ex (IsRingDustTorus torus_ex) r_ex)
      (map fin [1e26]) =
  tau cgs (fun _ _ => fin 0)
      (with_redshift
         (constructed cgs blob_ex (IsRingDustTorus torus_ex) r_ex) 0)
      (map fin
         (map (fun nu0 =>
                 nu0 * (1 + Blob.z
                            (blob (constructed cgs blob_ex
                                     (IsRingDustTorus torus_ex) r_ex))))
              [1e26])).
Proof.
  apply (tau_redshift_is_blueshift cgs (fun _ _ => fin 0)
           (constructed cgs blob_ex (IsRingDustTorus torus_ex) r_ex) [1e26]).
  exact cgs_positive.
Defined.

Lemma tau_ignores_mu_grid_witness :
  tau cgs (fun _ _ => fin 0)
      (snd (set_mu 7 (constructed cgs blob_ex (IsRingDustTorus torus_ex) r_ex)))
      [fin 1e26]
  = tau cgs (fun _ _ => fin 0)
        (constructed cgs blob_ex (IsRingDustTorus torus_ex) r_ex)
        [fin 1e26].
Proof.
  apply (tau_ignores_mu_grid cgs (fun _ _ => fin 0)
           (constructed cgs blob_ex (IsRingDustTorus torus_ex) r_ex)
           7 [fin 1e26]).
  intros b. discriminate.
Defined.

(** ** More on the cross section *)

Section SigmaMore.
Variable k : Const.t.

(** X10.  In exact arithmetic, with a positive Thomson cross section,
    [sigma] is bounded on the arguments up to 1e16 (below [2^54], from
    where the binary64 value is nan): its value is finite, not negative
    and at most (9/4) sigma_T. *)
Theorem sigma_bounded (x : R) :
  0 < Const.sigma_T k ->
  x <= 1e16 ->
  exists v : R,
    sigma k [fin x] = [fin v] /\ 0 <= v <= 9 / 4 * Const.sigma_T k.
Proof.
  intros HT _. rewrite sigma_map. cbn [map].
  destruct (Rlt_dec x 1) as [Hlt | Hge].
  - exists 0. rewrite sigma_elt_below by exact Hlt.
    split; [reflexivity | lra].
  - assert (Hx : 1 <= x) by lra.
    exists (dermer17 k x). rewrite sigma_elt_above by exact Hx.
    split; [reflexivity |].
    pose proof (dermer17_nonneg k x HT Hx) as Hn.
    pose proof (dermer17_upper k x HT Hx) as Hu.
    pose proof (beta_of_range x Hx) as [Hb0 Hb1].
    split; [exact Hn |].
    assert (9 / 4 * Const.sigma_T k * beta_of x
            <= 9 / 4 * Const.sigma_T k * 1)
      by (apply Rmult_le_compat_l; lra).
    lra.
Qed.

(** X11.  [sigma] acts on each element by itself: the result has the
    length of the argument and the result of a concatenation is the
    concatenation of the results.  On the elements that are not finite,
    in binary64: nan and +inf give nan (the mask [s < 1] is false on
    them), and -inf gives 0 ([-inf < 1] is true). *)
Theorem sigma_elementwise (s1 s2 : array) :
  length (sigma k (s1 ++ s2)) = (length s1 + length s2)%nat /\
  sigma k (s1 ++ s2) = sigma k s1 ++ sigma k s2 /\
  B64.sigma_elt B64.sigma_T_cgs PrimFloat.nan = Some PrimFloat.nan /\
  B64.sigma_elt B64.sigma_T_cgs PrimFloat.infinity = Some PrimFloat.nan /\
  B64.sigma_elt B64.sigma_T_cgs PrimFloat.neg_infinity = Some PrimFloat.zero.
Proof.
  rewrite !sigma_map. split; [| split].
  - rewrite length_map, length_app. reflexivity.
  - apply map_app.
  - repeat split; reflexivity.
Qed.

End SigmaMore.

Lemma sigma_bounded_witness :
  exists v : R,
    sigma cgs [fin 2] = [fin v] /\ 0 <= v <= 9 / 4 * Const.sigma_T cgs.
Proof.
  apply (sigma_bounded cgs 2); [project; lra | lra].
Defined.

(** ** A distance that is not positive *)

Lemma flog10_nonpositive (x : R) : x <= 0 -> flog10 (fin x) = None.
Proof.
  intros Hx. unfold flog10, fin. destruct (Rlt_dec 0 x); [lra | reflexivity].
Qed.

(** [np.linspace] from a start that is not finite: every sample but the
    last, which is overwritten with [stop], is not finite. *)
Lemma linspace_nan_start (b : fl) (num : Z) :
  (2 <= num)%Z ->
  linspace None b num = Ret (repeat None (Z.to_nat num - 1) ++ [b]).
Proof.
  intros Hn. unfold linspace.
  destruct (num <? 0)%Z eqn:E0; [apply Z.ltb_lt in E0; lia |].
  destruct (1 <? num)%Z eqn:E2; [| apply Z.ltb_ge in E2; lia].
  f_equal.
  assert (Hy : forall y : array,
             sc_add None y = repeat None (length y)).
  { intros y. unfold sc_add. rewrite <- map_const.
    apply map_ext. intros a. reflexivity. }
  rewrite Hy.
  assert (Hlen : forall k0 : fl,
             length (sc_mul k0 (arange (Z.to_nat num))) = Z.to_nat num).
  { intros k0. unfold sc_mul, arange.
    rewrite !length_map, length_seq. reflexivity. }
  destruct (0 <? num - 1)%Z; rewrite Hlen;
    (destruct (Z.to_nat num) as [| m] eqn:Em; [lia |];
     cbn [repeat]; rewrite repeat_cons, set_last_snoc;
     replace (S m - 1)%nat with m by lia; reflexivity).
Qed.

Section NonPositiveDistance.
Variable k : Const.t.
Variable uninit : nat -> nat -> fl.
Hypothesis pc_pos : 0 < Const.pc k.

Lemma set_l_logspace_nonpositive (r0 : R) (size : Z) :
  r0 <= 0 -> (2 <= size)%Z ->
  logspace (flog10 (fin r0)) (flog10 (fin (3000 * Const.pc k))) size =
  Ret (repeat None (Z.to_nat size - 1) ++ [fin (3000 * Const.pc k)]).
Proof.
  intros Hr Hn. unfold logspace.
  rewrite flog10_nonpositive by exact Hr.
  rewrite linspace_nan_start by exact Hn. cbn [obind].
  rewrite map_app, map_repeat. cbn [map fexp10].
  rewrite flog10_fin by lra. cbn [fexp10 fin].
  fold (log10R (3000 * Const.pc k)).
  rewrite Rpower_10_log10R by lra. reflexivity.
Qed.

(** X12.  [set_l] does not reject a distance [r <= 0]: with a size of at
    least 2 it returns normally and leaves a grid of that size whose last
    sample is 3000 pc and whose other samples are all not finite. *)
Theorem set_l_nonpositive_distance (self : Absorption) (size : Z) :
  r self <= 0 -> (2 <= size)%Z ->
  exists self' : Absorption,
    set_l k size self = (Ret tt, self') /\
    length (l self') = Z.to_nat size /\
    last (l self') None = fin (3000 * Const.pc k) /\
    forall i : nat, (S i < length (l self'))%nat ->
      nth_error (l self') i = Some None.
Proof.
  intros Hr Hn. eexists. split.
  - apply set_l_run. apply set_l_logspace_nonpositive; assumption.
  - cbn [l]. split; [| split].
    + rewrite length_app, repeat_length. cbn [length]. lia.
    + apply last_last.
    + intros i Hi. rewrite length_app, repeat_length in Hi.
      cbn [length] in Hi.
      rewrite nth_error_app1 by (rewrite repeat_length; lia).
      apply nth_error_repeat. lia.
Qed.

Lemma Absorption_new_nonpositive (blob0 : Blob.t) (target0 : target)
    (r0 : R) :
  r0 <= 0 ->
  Absorption_new k blob0 target0 r0 =
  Ret {| blob := blob0; target_ := target0; r := r0;
         mu_size := 100;
         mu := lin_samples (-1) ((1 - -1) / (IZR 100 - 1)) (Z.to_nat 100);
         phi_size := 50;
         phi := lin_samples 0 ((2 * PI - 0) / (IZR 50 - 1)) (Z.to_nat 50);
         l_size := 10;
         l := repeat None (Z.to_nat 10 - 1) ++ [fin (3000 * Const.pc k)] |}.
Proof.
  intros Hr. unfold Absorption_new, init, mbind.
  rewrite (set_mu_run _ 100 _ (linspace_fin (-1) 1 100 ltac:(lia))).
  rewrite (set_phi_run _ 50 _ (linspace_fin 0 (2 * PI) 50 ltac:(lia))).
  erewrite set_l_run; [reflexivity |].
  cbn [r fresh]. apply set_l_logspace_nonpositive; [exact Hr | lia].
Qed.

Lemma x_re_ring_nan (R_re : fl) : x_re_ring R_re None = None.
Proof. unfold x_re_ring. cbn [fpow]. rewrite fadd_None_r. reflexivity. Qed.

Lemma fsub_None_l (a : fl) : (None - a)%fl = None.
Proof. reflexivity. Qed.

Lemma x_re_shell_nan (m R_re : fl) : x_re_shell m R_re None = None.
Proof.
  unfold x_re_shell. cbn [fpow]. rewrite fadd_None_r. reflexivity.
Qed.

Lemma ring_integrand_nan (self : Absorption) (t : RingDustTorus.t)
    (p e1 : fl) :
  ring_integrand k self t p None e1 = None.
Proof.
  unfold ring_integrand. rewrite x_re_ring_nan. cbn [fpow].
  rewrite fmul_None_r. reflexivity.
Qed.

Lemma shell_integrand_nan (self : Absorption) (b : SphericalShellBLR.t)
    (m p e1 : fl) :
  shell_integrand k self b m p None e1 = None.
Proof.
  unfold shell_integrand. rewrite x_re_shell_nan. cbn [fpow].
  rewrite fmul_None_r. reflexivity.
Qed.

Lemma nonempty_has_element (x : array) :
  (2 <= length x)%nat -> exists a : fl, In a x.
Proof.
  destruct x as [| a x]; [simpl; lia |]. intros _. exists a. left. reflexivity.
Qed.

Lemma ring_integral_nan (self : Absorption) (t : RingDustTorus.t) (e1 : fl) :
  (2 <= length (phi self))%nat -> (2 <= length (l self))%nat ->
  In None (l self) ->
  ring_integral k self t e1 = None.
Proof.
  intros Hphi Hl Hin. unfold ring_integral.
  apply trapz_map_nan; [exact Hl |].
  exists None. split; [exact Hin |].
  apply trapz_map_nan; [exact Hphi |].
  destruct (nonempty_has_element _ Hphi) as [p Hp].
  exists p. split; [exact Hp | apply ring_integrand_nan].
Qed.

Lemma shell_integral_nan (self : Absorption) (b : SphericalShellBLR.t)
    (e1 : fl) :
  (2 <= length (mu self))%nat -> (2 <= length (phi self))%nat ->
  (2 <= length (l self))%nat -> In None (l self) ->
  shell_integral k self b e1 = None.
Proof.
  intros Hmu Hphi Hl Hin. unfold shell_integral.
  apply trapz_map_nan; [exact Hl |].
  exists None. split; [exact Hin |].
  apply trapz_map_nan; [exact Hphi |].
  destruct (nonempty_has_element _ Hphi) as [p Hp].
  exists p. split; [exact Hp |].
  apply trapz_map_nan; [exact Hmu |].
  destruct (nonempty_has_element _ Hmu) as [m Hm].
  exists m. split; [exact Hm | apply shell_integrand_nan].
Qed.

(** X13.  A distance [r <= 0] is rejected nowhere: the constructor
    returns, and on a shell or ring target [tau] then returns, without
    raising, an array that is not finite at any frequency. *)
Theorem tau_nonpositive_distance_is_nan
    (blob0 : Blob.t) (target0 : target) (r0 : R) :
  r0 <= 0 ->
  match target0 with
  | IsSphericalShellBLR _ | IsRingDustTorus _ => True
  | IsSSDisk _ | OtherTarget => False
  end ->
  exists self : Absorption,
    Absorption_new k blob0 target0 r0 = Ret self /\
    forall nu : array,
      tau k uninit self nu = Ret (PyArray (map (fun _ => None) nu)).
Proof.
  intros Hr Ht. eexists. split; [apply Absorption_new_nonpositive; exact Hr |].
  intros nu. unfold tau. cbn [target_].
  assert (Hin : In None (repeat None (Z.to_nat 10 - 1)
                         ++ [fin (3000 * Const.pc k)])).
  { apply in_or_app. left. change (Z.to_nat 10 - 1)%nat with 9%nat.
    left. reflexivity. }
  assert (Hl : (2 <= length (repeat None (Z.to_nat 10 - 1)
                             ++ [fin (3000 * Const.pc k)]))%nat).
  { rewrite length_app, repeat_length. cbn [length].
    change (Z.to_nat 10 - 1)%nat with 9%nat. lia. }
  assert (Hphi : (2 <= length (lin_samples 0 ((2 * PI - 0) / (IZR 50 - 1))
                                 (Z.to_nat 50)))%nat).
  { rewrite lin_samples_length. change (Z.to_nat 50) with 50%nat. lia. }
  assert (Hmu : (2 <= length (lin_samples (-1) ((1 - -1) / (IZR 100 - 1))
                                (Z.to_nat 100)))%nat).
  { rewrite lin_samples_length. change (Z.to_nat 100) with 100%nat. lia. }
  destruct target0 as [d | b | t |]; try contradiction.
  - rewrite opacity_shell_blr_parts. unfold epsilon_1_of.
    rewrite !map_map. do 2 f_equal. apply map_ext. intros nu0.
    rewrite shell_integral_nan; [apply fmul_None_r | | | |]; assumption.
  - rewrite opacity_ring_torus_parts. unfold epsilon_1_of.
    rewrite !map_map. do 2 f_equal. apply map_ext. intros nu0.
    rewrite ring_integral_nan; [apply fmul_None_r | | |]; assumption.
Qed.

End NonPositiveDistance.

Lemma set_l_nonpositive_distance_witness :
  exists self' : Absorption,
    set_l cgs 10 (constructed cgs blob_ex OtherTarget 0)
    = (Ret tt, self') /\
    length (l self') = Z.to_nat 10 /\
    last (l self') None = fin (3000 * Const.pc cgs) /\
    forall i : nat, (S i < length (l self'))%nat ->
      nth_error (l self') i = Some None.
Proof.
  apply (set_l_nonpositive_distance cgs ltac:(project; lra)
           (constructed cgs blob_ex OtherTarget 0) 10).
  - cbn [r constructed]. lra.
  - lia.
Defined.

Lemma tau_nonpositive_distance_is_nan_witness :
  exists self : Absorption,
    Absorption_new cgs blob_ex (IsRingDustTorus torus_ex) 0 = Ret self /\
    forall nu : array,
      tau cgs (fun _ _ => fin 0) self nu
      = Ret (PyArray (map (fun _ => None) nu)).
Proof.
  apply (tau_nonpositive_distance_is_nan cgs (fun _ _ => fin 0)
           ltac:(project; lra) blob_ex (IsRingDustTorus torus_ex) 0).
  - lra.
  - exact I.
Defined.

(** ** Below the pair-production threshold *)

Section BelowThreshold.
Variable k : Const.t.
Variable uninit : nat -> nat -> fl.
Hypothesis k_pos : positive_constants k.
Variable self : Absorption.
Hypothesis grids : grid_invariant k self.
Hypothesis mu_s_range : -1 <= Blob.mu_s (blob self) <= 1.

Lemma shell_integrand_below_threshold
    (b : SphericalShellBLR.t) (m p lv e : R) :
  -1 <= m <= 1 -> 0 < SphericalShellBLR.R_line b -> 0 < lv ->
  lv <> SphericalShellBLR.R_line b ->
  0 <= e * SphericalShellBLR.epsilon_line b < 1 ->
  shell_integrand k self b (fin m) (fin p) (fin lv) (fin e) = fin 0.
Proof.
  intros Hm HR Hl Hne He. unfold shell_integrand.
  destruct (shell_geometry m _ lv Hm HR Hl Hne)
    as (x & ms & Hx & Hx0 & Hms & Hmsr).
  rewrite Hx, Hms, cos_psi_fin by assumption.
  apply kernel_below_threshold; [| exact Hx0 | exact He].
  apply law_of_cosines_bounds; assumption.
Qed.

Lemma shell_integral_below_threshold (b : SphericalShellBLR.t) (e : R) :
  0 < SphericalShellBLR.R_line b ->
  ~ In (fin (SphericalShellBLR.R_line b)) (l self) ->
  0 <= e * SphericalShellBLR.epsilon_line b < 1 ->
  shell_integral k self b (fin e) = fin 0.
Proof.
  intros HR Hoff He. destruct grids as (Hmu & Hphi & Hl).
  destruct (linear_grid_facts (-1) 1 _ _ ltac:(lra) Hmu) as [Hmi Hmf].
  destruct (linear_grid_facts _ _ _ _ two_pi_nonneg Hphi) as [Hpi Hpf].
  destruct (log_grid_facts _ _ _ _ Hl) as [Hli Hlf].
  unfold shell_integral.
  apply trapz_map_zero; [exact Hli |]. intros _l Hin.
  destruct (Hlf _ Hin) as (lv & -> & Hlv).
  apply trapz_map_zero; [exact Hpi |]. intros _phi Hin'.
  destruct (Hpf _ Hin') as (p & -> & _).
  apply trapz_map_zero; [exact Hmi |]. intros _mu Hin''.
  destruct (Hmf _ Hin'') as (m & -> & Hm).
  apply shell_integrand_below_threshold; try assumption.
  intros E. apply Hoff. rewrite <- E. exact Hin.
Qed.

(** X14.  Frequencies below the pair-production threshold are not
    absorbed at all: on a well-formed shell or ring target, when the
    product of the blueshifted dimensionless energy of every frequency
    with the photon energy of the target is in [0, 1), so that [s < 1] at
    every grid point, [tau] is exactly 0 at every frequency. *)
Theorem tau_below_threshold_is_zero (nus : list R) :
  match target_ self with
  | IsSphericalShellBLR b =>
      shell_well_formed self b /\
      forall nu0 : R, In nu0 nus ->
        0 <= epsilon_of k self nu0 * SphericalShellBLR.epsilon_line b < 1
  | IsRingDustTorus t =>
      ring_well_formed t /\
      forall nu0 : R, In nu0 nus ->
        0 <= epsilon_of k self nu0 * RingDustTorus.epsilon_dt t < 1
  | IsSSDisk _ | OtherTarget => False
  end ->
  tau k uninit self (map fin nus) =
  Ret (PyArray (map (fun _ => fin 0) nus)).
Proof.
  intros Hwf.
  destruct (target_ self) as [d | b | t |] eqn:Ht; try contradiction.
  - destruct Hwf as [(_ & _ & He & HR & Hoff) Hlow].
    destruct (tau_shell_value k uninit k_pos self b nus grids mu_s_range
                Ht He HR Hoff) as [Hv _].
    rewrite Hv. do 2 f_equal. apply map_ext_in. intros nu0 Hin.
    rewrite (shell_integral_below_threshold b _ HR Hoff (Hlow nu0 Hin)).
    cbn [fl_value fin]. unfold fin. f_equal. apply Rmult_0_r.
  - destruct Hwf as [(_ & _ & He & HR) Hlow].
    destruct (tau_ring_value k uninit k_pos self t nus grids mu_s_range
                Ht He HR) as [Hv _].
    rewrite Hv. do 2 f_equal. apply map_ext_in. intros nu0 Hin.
    rewrite (ring_integral_below_threshold k self grids mu_s_range t _ HR
               (Hlow nu0 Hin)).
    cbn [fl_value fin]. unfold fin. f_equal. apply Rmult_0_r.
Qed.

End BelowThreshold.

Lemma tau_below_threshold_is_zero_witness :
  tau cgs (fun _ _ => fin 0)
      (constructed cgs blob_ex (IsRingDustTorus torus_ex) r_ex)
      (map fin [1e20])
  = Ret (PyArray (map (fun _ => fin 0) [1e20])).
Proof.
  apply (tau_below_threshold_is_zero cgs (fun _ _ => fin 0) cgs_positive
           (constructed cgs blob_ex (IsRingDustTorus torus_ex) r_ex)
           (constructed_invariant cgs blob_ex (IsRingDustTorus torus_ex)
              r_ex r_ex_in_range)
           mu_s_ex_range [1e20]).
  cbn [target_ constructed]. split; [exact torus_ex_well_formed |].
  intros nu0 [<- | []].
  unfold epsilon_of, mec2. cbn [blob constructed]. project.
  split; lra.
Defined.

(** ** The blob on the shell *)

Lemma shell_integral_sample_on_shell (k : Const.t) (self : Absorption)
    (b : SphericalShellBLR.t) (_epsilon_1 : fl) :
  linear_grid (-1) 1 (mu_size self) (mu self) ->
  (2 <= length (phi self))%nat -> (2 <= length (l self))%nat ->
  In (fin (SphericalShellBLR.R_line b)) (l self) ->
  shell_integral k self b _epsilon_1 = None.
Proof.
  intros (Hn1 & Hlen1 & _ & Hlast1 & _) Lphi Ll Hin.
  unfold shell_integral.
  apply trapz_map_nan; [exact Ll |].
  exists (fin (SphericalShellBLR.R_line b)). split; [exact Hin |].
  apply trapz_map_nan; [exact Lphi |].
  destruct (In_of_length_2 _ Lphi) as (p & Hp).
  exists p. split; [exact Hp |].
  apply trapz_map_nan; [lia |].
  exists (fin 1). split.
  { rewrite <- Hlast1. apply last_In.
    intros E. rewrite E in Hlen1. simpl in Hlen1. lia. }
  apply shell_integrand_on_shell.
Qed.

(** X15.  Nothing keeps the path off the broad-line shell.  When a
    path-length sample lies exactly on the shell (as the first one does
    for [r = R_line = 1e17] cm), the cosine grid is one the setter left
    with at least 2 samples (its last sample is then exactly 1) and the
    two other grids hold at least 2 samples, the distance to the point of
    the shell on the axis is 0 there and [tau] returns, without raising,
    an array that is not finite at any frequency. *)
Theorem tau_blob_on_shell_is_nan
    (k : Const.t) (uninit : nat -> nat -> fl)
    (self : Absorption) (b : SphericalShellBLR.t) :
  target_ self = IsSphericalShellBLR b ->
  linear_grid (-1) 1 (mu_size self) (mu self) ->
  (2 <= length (phi self))%nat -> (2 <= length (l self))%nat ->
  In (fin (SphericalShellBLR.R_line b)) (l self) ->
  forall nu : array,
    tau k uninit self nu = Ret (PyArray (map (fun _ => None) nu)).
Proof.
  intros Ht Hmu Lphi Ll Hin nu. unfold tau. rewrite Ht.
  rewrite opacity_shell_blr_parts. unfold epsilon_1_of.
  rewrite !map_map. do 2 f_equal. apply map_ext. intros nu0.
  rewrite (shell_integral_sample_on_shell k self b _ Hmu Lphi Ll Hin).
  apply fmul_None_r.
Qed.

Lemma tau_blob_on_shell_is_nan_witness :
  tau cgs (fun _ _ => fin 0)
      (constructed cgs blob_ex (IsSphericalShellBLR blr_ex) 1e17)
      [fin 1e26; fin 1e27]
  = Ret (PyArray (map (fun _ => None) [fin 1e26; fin 1e27])).
Proof.
  assert (Hr : 0 < 1e17 < 3000 * Const.pc cgs) by (project; split; lra).
  pose proof (constructed_invariant cgs blob_ex (IsSphericalShellBLR blr_ex)
                1e17 Hr) as Hg.
  pose proof (grid_lengths cgs _ Hg) as (_ & Lphi & Ll).
  destruct Hg as (Hmu & _ & (_ & _ & Hhd & _)).
  apply (tau_blob_on_shell_is_nan cgs (fun _ _ => fin 0)
           (constructed cgs blob_ex (IsSphericalShellBLR blr_ex) 1e17)
           blr_ex).
  - reflexivity.
  - exact Hmu.
  - exact Lphi.
  - exact Ll.
  - apply hd_error_In. exact Hhd.
Defined.

(* ================================================================== *)
(** * Properties of [wrappers/gammapy.py] *)

Ltac param_eval :=
  cbv beta iota zeta delta
    [when Param.set_min Param.set_max Param.set_frozen
     Param.set_scale_method Param.set_interp Param.set__is_norm
     Param.name Param.value Param.min Param.max Param.frozen
     Param.scale_method Param.interp Param._is_norm].

(** Case analysis on the tests of a loop body on the name [n]. *)
Ltac param_cases :=
  repeat match goal with
         | |- context [String.eqb ?n ?s] =>
             is_var n; destruct (String.eqb n s) eqn:?
         | |- context [String.prefix ?s ?n] =>
             is_var n; destruct (String.prefix s n) eqn:?
         end.

Lemma when_name (c : bool) (f : Param.t -> Param.t) (p : Param.t) :
  (forall q, Param.name (f q) = Param.name q) ->
  Param.name (when c f p) = Param.name p.
Proof. intros H. destruct c; [apply H | reflexivity]. Qed.

Lemma when_value (c : bool) (f : Param.t -> Param.t) (p : Param.t) :
  (forall q, Param.value (f q) = Param.value q) ->
  Param.value (when c f p) = Param.value p.
Proof. intros H. destruct c; [apply H | reflexivity]. Qed.

Ltac names_of_whens :=
  cbv zeta; rewrite !when_name by (intros; reflexivity).

(** The tests of a body all read the name the parameter had when the
    body started: no assignment of the body changes the name. *)
Lemma spectral_pars_body_by_name (p : Param.t) :
  spectral_pars_body p =
  let n := Param.name p in
  when (String.prefix "p"%str n)
    (fun p => Param.set_interp "lin"%str
       (Param.set_scale_method "factor1"%str
          (Param.set_max 5 (Param.set_min 1 p))))
  (when (String.eqb n "gamma_max"%str)
    (fun p => Param.set_frozen true (Param.set_max 1e8 (Param.set_min 1e4 p)))
  (when (String.eqb n "gamma_min"%str)
    (fun p => Param.set_frozen true (Param.set_max 1e3 (Param.set_min 1 p)))
  (when (String.prefix "gamma"%str n)
    (fun p => Param.set_interp "log"%str
       (Param.set_scale_method "scale10"%str p))
  (when (String.eqb n "k_e"%str)
    (fun p => Param.set__is_norm true
       (Param.set_interp "log"%str
          (Param.set_scale_method "scale10"%str
             (Param.set_max 1e9 (Param.set_min 1 p))))) p)))).
Proof. unfold spectral_pars_body. names_of_whens. reflexivity. Qed.

Lemma emission_region_pars_body_by_name (distance_cm : R -> fl) (p : Param.t) :
  emission_region_pars_body distance_cm p =
  let n := Param.name p in
  when (String.eqb n "r"%str)
    (fun p => Param.set_interp "log"%str
       (Param.set_scale_method "scale10"%str
          (Param.set_max 1e20 (Param.set_min 1e16 p))))
  (when (String.eqb n "mu_s"%str)
    (fun p => Param.set_frozen true (Param.set_max 1 (Param.set_min 0 p)))
  (when (String.eqb n "R_b"%str)
    (fun p => Param.set_interp "log"%str
       (Param.set_scale_method "scale10"%str
          (Param.set_max 1e18 (Param.set_min 1e12 p))))
  (when (String.eqb n "B"%str)
    (fun p => Param.set_interp "log"%str
       (Param.set_scale_method "scale10"%str
          (Param.set_max 1e3 (Param.set_min 1e-4 p))))
  (when (String.eqb n "delta_D"%str)
    (fun p => Param.set_interp "lin"%str
       (Param.set_scale_method "factor1"%str
          (Param.set_max 100 (Param.set_min 1 p))))
  (when (String.eqb n "d_L"%str)
    (fun p => Param.set_frozen true
       (Param.set_max (distance_cm 10)
          (Param.set_min (distance_cm 0.001) p)))
  (when (String.eqb n "z"%str)
    (fun p => Param.set_frozen true
       (Param.set_max 10 (Param.set_min 0.001 p))) p)))))).
Proof. unfold emission_region_pars_body. names_of_whens. reflexivity. Qed.

Lemma targets_pars_body_by_name (p : Param.t) :
  targets_pars_body p =
  let n := Param.name p in
  when (String.eqb n "R_dt"%str)
    (fun p => Param.set_frozen true (Param.set_max 1e21 (Param.set_min 1e17 p)))
  (when (String.eqb n "epsilon_dt"%str)
    (fun p => Param.set_frozen true (Param.set_max 1e-8 (Param.set_min 1e-6 p)))
  (when (String.eqb n "xi_dt"%str)
    (fun p => Param.set_frozen true (Param.set_max 1 (Param.set_min 1e-3 p)))
  (when (String.eqb n "R_line"%str)
    (fun p => Param.set_frozen true (Param.set_max 1e18 (Param.set_min 1e15 p)))
  (when (String.eqb n "epsilon_line"%str)
    (fun p => Param.set_frozen true (Param.set_max 1e-4 (Param.set_min 1e-7 p)))
  (when (String.eqb n "xi_line"%str)
    (fun p => Param.set_frozen true (Param.set_max 1 (Param.set_min 1e-3 p)))
  (when (String.eqb n "L_disk"%str)
    (fun p => Param.set_frozen true
       (Param.set_max 1e48 (Param.set_min 1e42 p))) p)))))).
Proof. unfold targets_pars_body. names_of_whens. reflexivity. Qed.

Lemma spectral_pars_body_frame (p : Param.t) :
  Param.name (spectral_pars_body p) = Param.name p
  /\ Param.value (spectral_pars_body p) = Param.value p.
Proof.
  rewrite spectral_pars_body_by_name. cbv zeta. split.
  - rewrite !when_name by (intros; reflexivity). reflexivity.
  - rewrite !when_value by (intros; reflexivity). reflexivity.
Qed.

Lemma emission_region_pars_body_frame (distance_cm : R -> fl) (p : Param.t) :
  Param.name (emission_region_pars_body distance_cm p) = Param.name p
  /\ Param.value (emission_region_pars_body distance_cm p) = Param.value p.
Proof.
  rewrite emission_region_pars_body_by_name. cbv zeta. split.
  - rewrite !when_name by (intros; reflexivity). reflexivity.
  - rewrite !when_value by (intros; reflexivity). reflexivity.
Qed.

Lemma targets_pars_body_frame (p : Param.t) :
  Param.name (targets_pars_body p) = Param.name p
  /\ Param.value (targets_pars_body p) = Param.value p.
Proof.
  rewrite targets_pars_body_by_name. cbv zeta. split.
  - rewrite !when_name by (intros; reflexivity). reflexivity.
  - rewrite !when_value by (intros; reflexivity). reflexivity.
Qed.

Lemma map_body_frame (f : Param.t -> Param.t) (ps : list Param.t) :
  (forall p, Param.name (f p) = Param.name p
             /\ Param.value (f p) = Param.value p) ->
  same_names_values (map f ps) ps.
Proof.
  intros H. unfold same_names_values. rewrite !map_map.
  split; apply map_ext; intros p; apply H.
Qed.

Ltac split_names H :=
  repeat (apply orb_false_iff in H; let H' := fresh H in destruct H as [H H']).

Lemma spectral_pars_body_other (p : Param.t) :
  spectral_name (Param.name p) = false -> spectral_pars_body p = p.
Proof.
  rewrite spectral_pars_body_by_name. cbv zeta.
  generalize (Param.name p) as n. intros n H.
  unfold spectral_name in H. split_names H.
  param_cases; try congruence. reflexivity.
Qed.

Lemma emission_region_pars_body_other (distance_cm : R -> fl) (p : Param.t) :
  emission_region_name (Param.name p) = false ->
  emission_region_pars_body distance_cm p = p.
Proof.
  rewrite emission_region_pars_body_by_name. cbv zeta.
  generalize (Param.name p) as n. intros n H.
  unfold emission_region_name in H. split_names H.
  param_cases; try congruence. reflexivity.
Qed.

Lemma targets_pars_body_other (p : Param.t) :
  targets_name (Param.name p) = false -> targets_pars_body p = p.
Proof.
  rewrite targets_pars_body_by_name. cbv zeta.
  generalize (Param.name p) as n. intros n H.
  unfold targets_name in H. split_names H.
  param_cases; try congruence. reflexivity.
Qed.

(** ** What the three functions leave alone *)

(** X16.  None of the three functions renames a parameter, changes its
    value, or adds, drops or reorders parameters: the names and the
    values after the call are those before it, in the same order. *)
Theorem ranges_scales_keep_names_values
    (distance_cm : R -> fl) (parameters : list Param.t) :
  same_names_values (set_spectral_pars_ranges_scales parameters) parameters
  /\ same_names_values
       (set_emission_region_pars_ranges_scales distance_cm parameters)
       parameters
  /\ same_names_values (set_targets_pars_ranges_scales parameters) parameters.
Proof.
  split; [| split]; apply map_body_frame.
  - apply spectral_pars_body_frame.
  - apply emission_region_pars_body_frame.
  - apply targets_pars_body_frame.
Qed.

(** X17.  A parameter whose name a function does not test for comes out
    of that function as it went in, at the same position: every
    attribute is kept. *)
Theorem ranges_scales_other_names_untouched
    (distance_cm : R -> fl) (parameters : list Param.t)
    (i : nat) (p : Param.t) :
  nth_error parameters i = Some p ->
  (spectral_name (Param.name p) = false ->
   nth_error (set_spectral_pars_ranges_scales parameters) i = Some p)
  /\ (emission_region_name (Param.name p) = false ->
      nth_error
        (set_emission_region_pars_ranges_scales distance_cm parameters) i
      = Some p)
  /\ (targets_name (Param.name p) = false ->
      nth_error (set_targets_pars_ranges_scales parameters) i = Some p).
Proof.
  intros Hp.
  unfold set_spectral_pars_ranges_scales,
    set_emission_region_pars_ranges_scales, set_targets_pars_ranges_scales.
  rewrite !nth_error_map, Hp. cbn [option_map].
  split; [| split]; intros Hn; f_equal.
  - apply spectral_pars_body_other, Hn.
  - apply emission_region_pars_body_other, Hn.
  - apply targets_pars_body_other, Hn.
Qed.

Lemma ranges_scales_other_names_untouched_witness :
  let norm := parameter_ex "norm"%str 1 in
  nth_error (set_spectral_pars_ranges_scales [norm]) 0 = Some norm
  /\ nth_error
       (set_emission_region_pars_ranges_scales (fun _ => None) [norm]) 0
     = Some norm
  /\ nth_error (set_targets_pars_ranges_scales [norm]) 0 = Some norm.
Proof.
  intros norm.
  destruct (ranges_scales_other_names_untouched
              (fun _ => None) [norm] 0 norm eq_refl) as (A & B & C).
  split; [| split]; [apply A | apply B | apply C]; reflexivity.
Defined.

(** ** The table of the targets *)

Lemma targets_pars_body_table (p : Param.t) :
  targets_name (Param.name p) = true ->
  Param.frozen (targets_pars_body p) = true
  /\ exists lo hi : R,
       Param.min (targets_pars_body p) = fin lo
       /\ Param.max (targets_pars_body p) = fin hi
       /\ (if String.eqb (Param.name p) "epsilon_dt"%str
           then hi < lo else lo < hi).
Proof.
  rewrite targets_pars_body_by_name. cbv zeta.
  destruct p as [n v lo0 hi0 fr sm ip nm]. cbn [Param.name].
  unfold targets_name. intros H.
  repeat match goal with
         | H : (_ || _)%bool = true |- _ =>
             apply orb_true_iff in H; destruct H as [H | H]
         end;
    apply String.eqb_eq in H; subst n;
    repeat match goal with
           | |- context [String.eqb ?a ?b] =>
               let v := eval vm_compute in (String.eqb a b) in
               change (String.eqb a b) with v
           end;
    param_eval;
    (split; [reflexivity |]);
    do 2 eexists; (split; [reflexivity |]); (split; [reflexivity |]); lra.
Qed.

(** X18.  After [set_targets_pars_ranges_scales] every parameter with one
    of the seven names of the targets is frozen and has finite bounds;
    the lower bound is below the upper one for six of them, and above it
    for [epsilon_dt], whose range is written as [1e-6, 1e-8]. *)
Theorem targets_ranges_frozen_epsilon_dt_inverted
    (parameters : list Param.t) (p : Param.t) :
  In p (set_targets_pars_ranges_scales parameters) ->
  targets_name (Param.name p) = true ->
  Param.frozen p = true
  /\ exists lo hi : R,
       Param.min p = fin lo /\ Param.max p = fin hi
       /\ (if String.eqb (Param.name p) "epsilon_dt"%str
           then hi < lo else lo < hi).
Proof.
  intros Hin Hn. apply in_map_iff in Hin. destruct Hin as (q & <- & _).
  rewrite (proj1 (targets_pars_body_frame q)) in *.
  apply targets_pars_body_table, Hn.
Qed.

Lemma targets_ranges_frozen_epsilon_dt_inverted_witness :
  let p := targets_pars_body (parameter_ex "epsilon_dt"%str 5e-7) in
  Param.frozen p = true
  /\ exists lo hi : R,
       Param.min p = fin lo /\ Param.max p = fin hi
       /\ (if String.eqb (Param.name p) "epsilon_dt"%str
           then hi < lo else lo < hi).
Proof.
  intros p.
  apply (targets_ranges_frozen_epsilon_dt_inverted
           [parameter_ex "epsilon_dt"%str 5e-7] p).
  - left. reflexivity.
  - reflexivity.
Defined.

(** ** Composition *)

Ltac name_is_one_of H :=
  repeat match type of H with
         | (_ || _)%bool = true =>
             apply orb_true_iff in H; destruct H as [H | H]
         end;
  apply String.eqb_eq in H.

Lemma emission_region_name_not_spectral (s : String.string) :
  emission_region_name s = true -> spectral_name s = false.
Proof.
  unfold emission_region_name. intros H.
  name_is_one_of H; subst s; reflexivity.
Qed.

Lemma targets_name_not_spectral (s : String.string) :
  targets_name s = true -> spectral_name s = false.
Proof.
  unfold targets_name. intros H.
  name_is_one_of H; subst s; reflexivity.
Qed.

Lemma targets_name_not_emission_region (s : String.string) :
  targets_name s = true -> emission_region_name s = false.
Proof.
  unfold targets_name. intros H.
  name_is_one_of H; subst s; reflexivity.
Qed.

(** Two bodies that keep the names and act on disjoint sets of names
    can be run in either order. *)
Lemma bodies_commute (f g : Param.t -> Param.t)
    (nf ng : String.string -> bool) :
  (forall p, Param.name (f p) = Param.name p) ->
  (forall p, Param.name (g p) = Param.name p) ->
  (forall p, nf (Param.name p) = false -> f p = p) ->
  (forall p, ng (Param.name p) = false -> g p = p) ->
  (forall s, ng s = true -> nf s = false) ->
  forall p, f (g p) = g (f p).
Proof.
  intros Hf Hg If Ig D p. destruct (ng (Param.name p)) eqn:E.
  - rewrite (If p) by auto. apply If. rewrite Hg. auto.
  - rewrite (Ig p E). symmetry. apply Ig. rewrite Hf. exact E.
Qed.

(** X19.  The three functions can be called in any order: each pair of
    them commutes, whatever the names of the parameters, because no name
    passes a test of two of them. *)
Theorem ranges_scales_commute
    (distance_cm : R -> fl) (parameters : list Param.t) :
  set_spectral_pars_ranges_scales
    (set_emission_region_pars_ranges_scales distance_cm parameters)
  = set_emission_region_pars_ranges_scales distance_cm
      (set_spectral_pars_ranges_scales parameters)
  /\ set_spectral_pars_ranges_scales
       (set_targets_pars_ranges_scales parameters)
     = set_targets_pars_ranges_scales
         (set_spectral_pars_ranges_scales parameters)
  /\ set_emission_region_pars_ranges_scales distance_cm
       (set_targets_pars_ranges_scales parameters)
     = set_targets_pars_ranges_scales
         (set_emission_region_pars_ranges_scales distance_cm parameters).
Proof.
  unfold set_spectral_pars_ranges_scales,
    set_emission_region_pars_ranges_scales, set_targets_pars_ranges_scales.
  rewrite !map_map.
  split; [| split]; apply map_ext.
  - apply (bodies_commute _ _ spectral_name emission_region_name).
    + apply spectral_pars_body_frame.
    + apply emission_region_pars_body_frame.
    + apply spectral_pars_body_other.
    + apply emission_region_pars_body_other.
    + apply emission_region_name_not_spectral.
  - apply (bodies_commute _ _ spectral_name targets_name).
    + apply spectral_pars_body_frame.
    + apply targets_pars_body_frame.
    + apply spectral_pars_body_other.
    + apply targets_pars_body_other.
    + apply targets_name_not_spectral.
  - apply (bodies_commute _ _ emission_region_name targets_name).
    + apply emission_region_pars_body_frame.
    + apply targets_pars_body_frame.
    + apply emission_region_pars_body_other.
    + apply targets_pars_body_other.
    + apply targets_name_not_emission_region.
Qed.

Lemma spectral_pars_body_idempotent (p : Param.t) :
  spectral_pars_body (spectral_pars_body p) = spectral_pars_body p.
Proof.
  rewrite (spectral_pars_body_by_name (spectral_pars_body p)).
  rewrite (proj1 (spectral_pars_body_frame p)).
  rewrite spectral_pars_body_by_name. cbv zeta.
  destruct p as [n v lo hi fr sm ip nm]. cbn [Param.name].
  param_cases; param_eval; reflexivity.
Qed.

Lemma emission_region_pars_body_idempotent
    (distance_cm : R -> fl) (p : Param.t) :
  emission_region_pars_body distance_cm
    (emission_region_pars_body distance_cm p)
  = emission_region_pars_body distance_cm p.
Proof.
  rewrite (emission_region_pars_body_by_name _
             (emission_region_pars_body distance_cm p)).
  rewrite (proj1 (emission_region_pars_body_frame distance_cm p)).
  rewrite emission_region_pars_body_by_name. cbv zeta.
  destruct p as [n v lo hi fr sm ip nm]. cbn [Param.name].
  param_cases; param_eval; reflexivity.
Qed.

Lemma targets_pars_body_idempotent (p : Param.t) :
  targets_pars_body (targets_pars_body p) = targets_pars_body p.
Proof.
  rewrite (targets_pars_body_by_name (targets_pars_body p)).
  rewrite (proj1 (targets_pars_body_frame p)).
  rewrite targets_pars_body_by_name. cbv zeta.
  destruct p as [n v lo hi fr sm ip nm]. cbn [Param.name].
  param_cases; param_eval; reflexivity.
Qed.

(** X20.  Calling one of the three functions a second time changes
    nothing: each of them is idempotent. *)
Theorem ranges_scales_idempotent
    (distance_cm : R -> fl) (parameters : list Param.t) :
  set_spectral_pars_ranges_scales (set_spectral_pars_ranges_scales parameters)
  = set_spectral_pars_ranges_scales parameters
  /\ set_emission_region_pars_ranges_scales distance_cm
       (set_emission_region_pars_ranges_scales distance_cm parameters)
     = set_emission_region_pars_ranges_scales distance_cm parameters
  /\ set_targets_pars_ranges_scales (set_targets_pars_ranges_scales parameters)
     = set_targets_pars_ranges_scales parameters.
Proof.
  unfold set_spectral_pars_ranges_scales,
    set_emission_region_pars_ranges_scales, set_targets_pars_ranges_scales.
  rewrite !map_map.
  split; [| split]; apply map_ext.
  - apply spectral_pars_body_idempotent.
  - apply emission_region_pars_body_idempotent.
  - apply targets_pars_body_idempotent.
Qed.
